(** * claude-dotfiles: feedback parser, ingestion filter, manifest and
    worktree planner

    A shallow embedding of the Python scripts under [scripts/]:
    - [feedback_parser.py]  ([FeedbackParser]),
    - [ingest-repo.py]      ([SecurityFilter], [RepoIngestion]),
    - [remove-ingested-repo.py],
    - [planworktree.py]     ([create_worktree]).

    Python [str] values are sequences of Unicode code points; they are
    modelled as [list N].  Dictionaries that are only looked up are records
    or association lists, the manifest's ["repositories"] object is a
    [gmap].  What the scripts take from the interpreter's libraries and from
    the programs they run ([str.isalnum] and [str.isdecimal] outside ASCII,
    [fnmatch.fnmatch], [urllib.parse.urlparse], [pathlib], [git]) is a
    parameter, packaged as a class per script.

    Part I holds the programs, one module per script; Part II holds what is
    proved about them. *)

From Stdlib Require Import List ZArith NArith QArith Lia Bool String Ascii
  Permutation Sorted.
From stdpp Require Import gmap.
Import ListNotations.

Local Open Scope Z_scope.

(** * Part I: the programs *)

(** ** Python strings *)

Module PyStr.

(** A character is a code point. *)
Definition char : Type := N.
Definition str : Type := list N.

(** [u "text"] is the [str] with the code points of an ASCII literal. *)
Definition u (s : string) : str := List.map N_of_ascii (list_ascii_of_string s).
Arguments u s%_string : simpl never.

Definition char_eqb (a b : char) : bool := N.eqb a b.

Fixpoint str_eqb (a b : str) : bool :=
  match a, b with
  | [], [] => true
  | x :: a', y :: b' => char_eqb x y && str_eqb a' b'
  | _, _ => false
  end.

(** [s.startswith(p)] *)
Fixpoint startswith (p s : str) : bool :=
  match p, s with
  | [], _ => true
  | x :: p', y :: s' => char_eqb x y && startswith p' s'
  | _ :: _, [] => false
  end.

(** [p in s]: [p] occurs in [s] as a contiguous substring. *)
Fixpoint contains (p s : str) : bool :=
  startswith p s ||
  match s with
  | [] => false
  | _ :: s' => contains p s'
  end.

(** [str.isspace] for one character, the class behind [\s] of [re] on
    [str] patterns and behind [str.rstrip()] without argument
    (CPython's [_PyUnicode_IsWhitespace]). *)
Definition isspace (c : char) : bool :=
  ((9 <=? c) && (c <=? 13) || (28 <=? c) && (c <=? 32)
   || (c =? 133) || (c =? 160) || (c =? 5760)
   || (8192 <=? c) && (c <=? 8202)
   || (c =? 8232) || (c =? 8233) || (c =? 8239) || (c =? 8287)
   || (c =? 12288))%N.

Definition is_ascii_digit (c : char) : bool := ((48 <=? c) && (c <=? 57))%N.
Definition is_ascii_upper (c : char) : bool := ((65 <=? c) && (c <=? 90))%N.
Definition is_ascii_lower (c : char) : bool := ((97 <=? c) && (c <=? 122))%N.
Definition is_ascii_alnum (c : char) : bool :=
  is_ascii_digit c || is_ascii_upper c || is_ascii_lower c.

(** Longest prefix of characters in a class, and what follows it. *)
Fixpoint take_while (p : char -> bool) (s : str) : str :=
  match s with
  | [] => []
  | c :: s' => if p c then c :: take_while p s' else []
  end.

Fixpoint drop_while (p : char -> bool) (s : str) : str :=
  match s with
  | [] => []
  | c :: s' => if p c then drop_while p s' else s
  end.

(** [s.rstrip(chars)]: drop the longest suffix of characters of the class. *)
Fixpoint rstrip_by (p : char -> bool) (s : str) : str :=
  match s with
  | [] => []
  | c :: s' =>
      match rstrip_by p s' with
      | [] => if p c then [] else [c]
      | r => c :: r
      end
  end.

(** [s.rstrip()] *)
Definition rstrip (s : str) : str := rstrip_by isspace s.

Definition mem_char (c : char) (set : str) : bool := existsb (char_eqb c) set.

(** [s.rstrip(set)]: the argument is a set of characters, not a suffix. *)
Definition rstrip_chars (set : str) (s : str) : str :=
  rstrip_by (fun c => mem_char c set) s.

(** [s.split(sep)] for a one-character separator: never empty. *)
Fixpoint split (sep : char) (s : str) : list str :=
  match s with
  | [] => [[]]
  | c :: s' =>
      if char_eqb c sep then [] :: split sep s'
      else match split sep s' with
           | [] => [[c]]
           | w :: ws => (c :: w) :: ws
           end
  end.

(** [sep.join(parts)] *)
Fixpoint join (sep : str) (parts : list str) : str :=
  match parts with
  | [] => []
  | [p] => p
  | p :: ps => p ++ sep ++ join sep ps
  end.

(** [s.lstrip()] and [s.strip()] *)
Definition lstrip (s : str) : str := drop_while isspace s.
Definition strip (s : str) : str := rstrip (lstrip s).

(** [not s] for a string. *)
Definition is_empty (s : str) : bool :=
  match s with
  | [] => true
  | _ :: _ => false
  end.

(** [p] occurs in [s]. *)
Definition substring (p s : str) : Prop := exists a b, s = a ++ p ++ b.

End PyStr.

(** ** feedback_parser.py *)

Module FeedbackParser.
Import PyStr.

(** The three tags a feedback comment can carry: group 1 of [PATTERNS]. *)
Inductive comment_type : Type := FEEDBACK | RESPONSE | RESOLVED.

Definition comment_type_eqb (a b : comment_type) : bool :=
  match a, b with
  | FEEDBACK, FEEDBACK | RESPONSE, RESPONSE | RESOLVED, RESOLVED => true
  | _, _ => false
  end.

(** [(FEEDBACK|RESPONSE|RESOLVED)] at the head of [s]: the alternative that
    matches, tried in this order, and the text after it. *)
Definition match_keyword (s : str) : option (comment_type * str) :=
  if startswith (u "FEEDBACK") s then Some (FEEDBACK, skipn 8 s)
  else if startswith (u "RESPONSE") s then Some (RESPONSE, skipn 8 s)
  else if startswith (u "RESOLVED") s then Some (RESOLVED, skipn 8 s)
  else None.

(** [.*?lit]: [lit] occurs further on and only characters other than the
    newline stand before it ([.] does not match U+000A). *)
Fixpoint lazy_dots_then (lit s : str) : bool :=
  startswith lit s ||
  match s with
  | [] => false
  | c :: s' => negb (c =? 10)%N && lazy_dots_then lit s'
  end.

(** One entry of [PATTERNS]: [^\s*<opener>\s*(FEEDBACK|RESPONSE|RESOLVED)],
    followed by [.*?<closer>] for the HTML and CSS comment styles. *)
Record pattern : Type := { opener : str; closer : option str }.

Definition PATTERNS : list (str * pattern) :=
  [ (u "python", {| opener := u "#";    closer := None |});
    (u "js",     {| opener := u "//";   closer := None |});
    (u "html",   {| opener := u "<!--"; closer := Some (u "-->") |});
    (u "css",    {| opener := u "/*";   closer := Some (u "*/") |}) ].

(** [pattern.search(line)]: the pattern is anchored by [^] and compiled
    without MULTILINE, so it can only match at the start of the line; both
    [\s*] are followed by a character that is not white space, so they
    take the whole run of white space. *)
Definition pattern_search (p : pattern) (line : str) : option comment_type :=
  let s := drop_while isspace line in
  if startswith (opener p) s then
    match match_keyword (drop_while isspace (skipn (length (opener p)) s)) with
    | Some (t, rest) =>
        match closer p with
        | None => Some t
        | Some c => if lazy_dots_then c rest then Some t else None
        end
    | None => None
    end
  else None.

Fixpoint first_match (ps : list (str * pattern)) (line : str)
  : option comment_type :=
  match ps with
  | [] => None
  | (_, p) :: ps' =>
      match pattern_search p line with
      | Some t => Some t
      | None => first_match ps' line
      end
  end.

(** [FeedbackParser.is_feedback_line] *)
Definition is_feedback_line (line : str) : option comment_type :=
  first_match PATTERNS line.

Definition SEVERITIES : list str :=
  [u "CRITICAL"; u "MAJOR"; u "MINOR"; u "NIT"].

(** The [metadata] dictionary; [{}.get(key)] and a key bound to [None] both
    read as [None]. *)
Record metadata : Type := {
  md_severity : option str;
  md_reviewer : option str;
  md_date : option str
}.

Definition no_metadata : metadata :=
  {| md_severity := None; md_reviewer := None; md_date := None |}.

(** [for severity in SEVERITIES: if f'[{severity}]' in line: ...; break] *)
Fixpoint find_severity (sevs : list str) (line : str) : option str :=
  match sevs with
  | [] => None
  | s :: sevs' =>
      if contains (u "[" ++ s ++ u "]") line then Some s
      else find_severity sevs' line
  end.

(** [str.isalnum] and [str.isdecimal] on code points from 128 on: the
    Unicode tables of the interpreter. *)
Class Tables : Type := {
  unicode_alnum : char -> bool;
  unicode_decimal : char -> bool
}.

(** Tables in which no code point from 128 on is alphanumeric or a decimal
    digit; enough for ASCII text. *)
Definition ascii_tables : Tables :=
  {| unicode_alnum := fun _ => false; unicode_decimal := fun _ => false |}.

(** The status of a block: ['open'], ['responded'] or ['resolved']. *)
Inductive status_t : Type := open | responded | resolved.

(** The [FeedbackBlock] dataclass. *)
Record FeedbackBlock : Type := {
  file_path : str;
  line_start : Z;
  line_end : Z;
  feedback_lines : list str;
  severity : option str;
  reviewer : option str;
  date : option str;
  status : status_t;
  has_response : bool;
  has_resolved : bool
}.

(** What [open(...)] and [f.readlines()] do for a path. *)
Inductive read_result : Type :=
  | ReadLines (lines : list str)
  | RaiseIOError
  | RaiseUnicodeDecodeError.

Definition filesystem : Type := str -> read_result.

Section CharacterTables.

Context {tables : Tables}.

(** [\w] *)
Definition is_word (c : char) : bool :=
  if (c <? 128)%N then is_ascii_alnum c || (c =? 95)%N else unicode_alnum c.

(** [\d] *)
Definition is_digit (c : char) : bool :=
  if (c <? 128)%N then is_ascii_digit c else unicode_decimal c.

(** [[\w-]] *)
Definition is_handle_char (c : char) : bool := is_word c || (c =? 45)%N.

(** [re.search(r'@([\w-]+)', line)]: group 1 of the leftmost match. *)
Fixpoint search_reviewer (line : str) : option str :=
  match line with
  | [] => None
  | c :: rest =>
      if (c =? 64)%N then
        match take_while is_handle_char rest with
        | [] => search_reviewer rest
        | h => Some h
        end
      else search_reviewer rest
  end.

(** [\d{4}-\d{2}-\d{2}] at the head of [s]. *)
Definition match_date (s : str) : option str :=
  match s with
  | y1 :: y2 :: y3 :: y4 :: h1 :: m1 :: m2 :: h2 :: d1 :: d2 :: _ =>
      if is_digit y1 && is_digit y2 && is_digit y3 && is_digit y4
         && (h1 =? 45)%N && is_digit m1 && is_digit m2
         && (h2 =? 45)%N && is_digit d1 && is_digit d2
      then Some [y1; y2; y3; y4; h1; m1; m2; h2; d1; d2]
      else None
  | _ => None
  end.

(** [re.search(r'(\d{4}-\d{2}-\d{2})', line)]: the leftmost match. *)
Fixpoint search_date (line : str) : option str :=
  match match_date line with
  | Some d => Some d
  | None =>
      match line with
      | [] => None
      | _ :: rest => search_date rest
      end
  end.

(** [FeedbackParser.parse_metadata] *)
Definition parse_metadata (line : str) : metadata :=
  {| md_severity := find_severity SEVERITIES line;
     md_reviewer := search_reviewer line;
     md_date := search_date line |}.

(** The local variables of [parse_file] that live across loop iterations.
    [current_block] is [None] or [True] in the source. *)
Record scan_state : Type := {
  blocks : list FeedbackBlock;
  current_block : option bool;
  current_lines : list str;
  block_start : option Z;
  st_has_feedback : bool;
  st_has_response : bool;
  st_has_resolved : bool;
  st_metadata : metadata
}.

Definition initial_state : scan_state :=
  {| blocks := []; current_block := None; current_lines := [];
     block_start := None; st_has_feedback := false;
     st_has_response := false; st_has_resolved := false;
     st_metadata := no_metadata |}.

(** [if has_resolved: 'resolved' elif has_response: 'responded' else: 'open'] *)
Definition determine_status (st : scan_state) : status_t :=
  if st_has_resolved st then resolved
  else if st_has_response st then responded
  else open.

(** The [FeedbackBlock(...)] built when a block ends (both copies of this
    code in [parse_file] are the same). *)
Definition make_block (fp : str) (start : Z) (st : scan_state) : FeedbackBlock :=
  {| file_path := fp;
     line_start := start;
     line_end := start + Z.of_nat (length (current_lines st)) - 1;
     feedback_lines := current_lines st;
     severity := md_severity (st_metadata st);
     reviewer := md_reviewer (st_metadata st);
     date := md_date (st_metadata st);
     status := determine_status st;
     has_response := st_has_response st;
     has_resolved := st_has_resolved st |}.

(** The [if comment_type:] branch of the loop body. *)
Definition on_tagged (t : comment_type) (line_num : Z) (line : str)
  (st : scan_state) : scan_state :=
  (* if current_block is None: open a block and reset the flags *)
  let st1 :=
    match current_block st with
    | None =>
        {| blocks := blocks st; current_block := Some true;
           current_lines := current_lines st;
           block_start := Some line_num; st_has_feedback := false;
           st_has_response := false; st_has_resolved := false;
           st_metadata := no_metadata |}
    | Some _ => st
    end in
  (* current_lines.append(line.rstrip()) *)
  let lines1 := current_lines st1 ++ [rstrip line] in
  (* if FEEDBACK and not has_feedback / elif RESPONSE / elif RESOLVED *)
  if comment_type_eqb t FEEDBACK && negb (st_has_feedback st1) then
    {| blocks := blocks st1; current_block := current_block st1;
       current_lines := lines1; block_start := block_start st1;
       st_has_feedback := true; st_has_response := st_has_response st1;
       st_has_resolved := st_has_resolved st1;
       st_metadata := parse_metadata line |}
  else if comment_type_eqb t RESPONSE then
    {| blocks := blocks st1; current_block := current_block st1;
       current_lines := lines1; block_start := block_start st1;
       st_has_feedback := st_has_feedback st1; st_has_response := true;
       st_has_resolved := st_has_resolved st1;
       st_metadata := st_metadata st1 |}
  else if comment_type_eqb t RESOLVED then
    {| blocks := blocks st1; current_block := current_block st1;
       current_lines := lines1; block_start := block_start st1;
       st_has_feedback := st_has_feedback st1;
       st_has_response := st_has_response st1; st_has_resolved := true;
       st_metadata := st_metadata st1 |}
  else
    {| blocks := blocks st1; current_block := current_block st1;
       current_lines := lines1; block_start := block_start st1;
       st_has_feedback := st_has_feedback st1;
       st_has_response := st_has_response st1;
       st_has_resolved := st_has_resolved st1;
       st_metadata := st_metadata st1 |}.

(** The [else:] branch of the loop body: a line without tag ends the
    block, if one is open. *)
Definition on_untagged (fp : str) (st : scan_state) : scan_state :=
  match current_lines st, block_start st with
  | _ :: _, Some start =>
      {| blocks := blocks st ++ [make_block fp start st];
         current_block := None; current_lines := [];
         block_start := None; st_has_feedback := st_has_feedback st;
         st_has_response := st_has_response st;
         st_has_resolved := st_has_resolved st;
         st_metadata := st_metadata st |}
  | _, _ => st
  end.

Definition step (fp : str) (line_num : Z) (line : str) (st : scan_state)
  : scan_state :=
  match is_feedback_line line with
  | Some t => on_tagged t line_num line st
  | None => on_untagged fp st
  end.

(** [for line_num, line in enumerate(lines, start=...)] *)
Fixpoint scan (fp : str) (line_num : Z) (lines : list str) (st : scan_state)
  : scan_state :=
  match lines with
  | [] => st
  | line :: rest => scan fp (line_num + 1) rest (step fp line_num line st)
  end.

(** The code after the loop: a block still open at the end of the file. *)
Definition at_end_of_file (fp : str) (st : scan_state) : list FeedbackBlock :=
  match current_lines st, block_start st with
  | _ :: _, Some start => blocks st ++ [make_block fp start st]
  | _, _ => blocks st
  end.

(** [parse_file] once the file has been read: [lines] is what
    [f.readlines()] returned. *)
Definition parse_lines (fp : str) (lines : list str) : list FeedbackBlock :=
  at_end_of_file fp (scan fp 1 lines initial_state).

(** [FeedbackParser.parse_file]: [except (IOError, UnicodeDecodeError):
    return blocks], with [blocks] still empty. *)
Definition parse_file (fs : filesystem) (fp : str) : list FeedbackBlock :=
  match fs fp with
  | ReadLines lines => parse_lines fp lines
  | RaiseIOError | RaiseUnicodeDecodeError => []
  end.

(** [FeedbackParser.parse_repository]: [self.feedback_blocks] after the
    call, for the list [files] that [find_files_with_feedback] returned. *)
Fixpoint extend_all (fs : filesystem) (files : list str)
  (feedback_blocks : list FeedbackBlock) : list FeedbackBlock :=
  match files with
  | [] => feedback_blocks
  | fp :: rest => extend_all fs rest (feedback_blocks ++ parse_file fs fp)
  end.

Definition parse_repository (fs : filesystem) (files : list str)
  : list FeedbackBlock :=
  extend_all fs files [].

(** *** Runs of tagged lines

    The loop is described by what it does with each maximal run of
    consecutive tagged lines. *)

Definition tagged (line : str) : Prop := is_feedback_line line <> None.
Definition untagged (line : str) : Prop := is_feedback_line line = None.

(** The line carries the tag [t]: [is_feedback_line] returns it. *)
Definition carries (t : comment_type) (line : str) : Prop :=
  is_feedback_line line = Some t.

Definition carriesb (t : comment_type) (line : str) : bool :=
  match is_feedback_line line with
  | Some t' => comment_type_eqb t' t
  | None => false
  end.

(** Nothing tagged stands right before [pre]'s end, nor right at [post]'s
    start. *)
Definition boundary_before (pre : list str) : Prop :=
  forall p l, pre = p ++ [l] -> untagged l.

Definition boundary_after (post : list str) : Prop :=
  forall l q, post = l :: q -> untagged l.

(** [run] is a maximal run of tagged lines between [pre] and [post]. *)
Definition maximal_run (pre run post : list str) : Prop :=
  run <> [] /\ Forall tagged run /\ boundary_before pre /\ boundary_after post.

Definition run_metadata (run : list str) : metadata :=
  match find (carriesb FEEDBACK) run with
  | Some l => parse_metadata l
  | None => no_metadata
  end.

Definition run_status (run : list str) : status_t :=
  if existsb (carriesb RESOLVED) run then resolved
  else if existsb (carriesb RESPONSE) run then responded
  else open.

Definition block_of_run (fp : str) (start : Z) (run : list str) : FeedbackBlock :=
  {| file_path := fp;
     line_start := start;
     line_end := start + Z.of_nat (length run) - 1;
     feedback_lines := List.map rstrip run;
     severity := md_severity (run_metadata run);
     reviewer := md_reviewer (run_metadata run);
     date := md_date (run_metadata run);
     status := run_status run;
     has_response := existsb (carriesb RESPONSE) run;
     has_resolved := existsb (carriesb RESOLVED) run |}.

Definition close_run (fp : str) (n : Z) (cur : list str) : list FeedbackBlock :=
  match cur with
  | [] => []
  | _ :: _ => [block_of_run fp (n - Z.of_nat (length cur)) cur]
  end.

(** The blocks still to come when line [n] is the head of [lines] and [cur]
    is the run read so far. *)
Fixpoint blocks_from (fp : str) (n : Z) (cur lines : list str)
  : list FeedbackBlock :=
  match lines with
  | [] => close_run fp n cur
  | l :: rest =>
      match is_feedback_line l with
      | Some _ => blocks_from fp (n + 1) (cur ++ [l]) rest
      | None => close_run fp n cur ++ blocks_from fp (n + 1) [] rest
      end
  end.

(** The loop state when [cur] is the run read so far and [n] the number of
    the next line. *)
Definition represents (st : scan_state) (n : Z) (cur : list str) : Prop :=
  match cur with
  | [] => current_block st = None /\ current_lines st = [] /\ block_start st = None
  | _ :: _ =>
      current_block st = Some true /\
      current_lines st = List.map rstrip cur /\
      block_start st = Some (n - Z.of_nat (length cur)) /\
      st_has_feedback st = existsb (carriesb FEEDBACK) cur /\
      st_has_response st = existsb (carriesb RESPONSE) cur /\
      st_has_resolved st = existsb (carriesb RESOLVED) cur /\
      st_metadata st = run_metadata cur
  end.

(** Where the blocks of [blocks_from] lie. *)
Definition well_placed (lo : Z) (b : FeedbackBlock) : Prop :=
  lo <= line_start b /\
  line_end b = line_start b + Z.of_nat (length (feedback_lines b)) - 1 /\
  line_start b <= line_end b.

(** [a] lies wholly before [b]. *)
Definition precedes (a b : FeedbackBlock) : Prop :=
  line_start a < line_start b /\ line_end a < line_start b.

(** Four digits, a hyphen, two digits, a hyphen, two digits. *)
Definition date_shape (d : str) : Prop :=
  exists y1 y2 y3 y4 m1 m2 d1 d2,
    d = [y1; y2; y3; y4; 45%N; m1; m2; 45%N; d1; d2] /\
    is_digit y1 = true /\ is_digit y2 = true /\ is_digit y3 = true /\
    is_digit y4 = true /\ is_digit m1 = true /\ is_digit m2 = true /\
    is_digit d1 = true /\ is_digit d2 = true.

End CharacterTables.

(** *** Sample files *)

(** The example line of the specification. *)
Definition example_line : str :=
  u "# FEEDBACK [CRITICAL] (@alice, 2025-11-23): fix".

(** Labels in the wrong case, and a label without brackets. *)
Definition lowercase_line : str :=
  u "# FEEDBACK [critical] [Major] [nit] CRITICAL: x".

Definition sample_path : str := u "src/app.py".

(** A block whose RESOLVED line comes first and whose FEEDBACK line comes
    second, between two lines of code. *)
Definition sample_lines : list str :=
  [ u "x = 1" ++ [10%N];
    u "# RESOLVED (@bob, 2025-11-25): done" ++ [10%N];
    u "# FEEDBACK [MINOR] (@alice, 2025-11-23): rename" ++ [10%N];
    u "# RESPONSE (@bob, 2025-11-24): ok" ++ [10%N];
    u "y = 2" ++ [10%N] ].

(** A block that a RESPONSE line opens; the FEEDBACK line comes second. *)
Definition orphan_first_line : str :=
  u "# RESPONSE (@bob, 2025-11-24): ok" ++ [10%N].

Definition orphan_lines : list str :=
  [ orphan_first_line;
    u "# FEEDBACK [MAJOR] (@alice, 2025-11-23): rename" ++ [10%N] ].

(** The block that the example line gives. *)
Definition example_block (fp : str) : FeedbackBlock :=
  {| file_path := fp; line_start := 1; line_end := 1;
     feedback_lines := [example_line];
     severity := Some (u "CRITICAL");
     reviewer := Some (u "alice");
     date := Some (u "2025-11-23");
     status := open; has_response := false; has_resolved := false |}.

Definition sample_block : FeedbackBlock :=
  {| file_path := sample_path; line_start := 2; line_end := 4;
     feedback_lines :=
       [ u "# RESOLVED (@bob, 2025-11-25): done";
         u "# FEEDBACK [MINOR] (@alice, 2025-11-23): rename";
         u "# RESPONSE (@bob, 2025-11-24): ok" ];
     severity := Some (u "MINOR");
     reviewer := Some (u "alice");
     date := Some (u "2025-11-23");
     status := resolved; has_response := true; has_resolved := true |}.

Definition orphan_block : FeedbackBlock :=
  {| file_path := sample_path; line_start := 1; line_end := 2;
     feedback_lines :=
       [ u "# RESPONSE (@bob, 2025-11-24): ok";
         u "# FEEDBACK [MAJOR] (@alice, 2025-11-23): rename" ];
     severity := Some (u "MAJOR");
     reviewer := Some (u "alice");
     date := Some (u "2025-11-23");
     status := responded; has_response := true; has_resolved := false |}.

(** A tree with one readable file and one that is not text. *)
Definition sample_fs : filesystem := fun p =>
  if str_eqb p sample_path then ReadLines sample_lines
  else if str_eqb p (u "logo.png") then RaiseUnicodeDecodeError
  else RaiseIOError.

(** *** The files that are scanned *)

Definition DEFAULT_IGNORE_PATHS : list str :=
  [u "commands/"; u "examples/"; u ".claude/commands/"; u "docs/examples/"].

(** [FeedbackParser.should_ignore_file] *)
Definition should_ignore_file (ignore_paths : list str) (file_path : str)
  : bool :=
  existsb (fun ignore_path => startswith ignore_path file_path) ignore_paths.

(** [FeedbackParser.find_files_with_feedback]: [git_grep] is the return code
    and the standard output of [git grep -l FEEDBACK]. *)
Definition find_files_with_feedback (ignore_paths : list str)
  (git_grep : Z * str) : list str :=
  let (returncode, stdout) := git_grep in
  if (returncode =? 0) then
    let all_files :=
      List.map strip
        (List.filter (fun line => negb (is_empty (strip line)))
           (split 10%N (strip stdout))) in
    List.filter (fun f => negb (should_ignore_file ignore_paths f)) all_files
  else [].

(** *** Summaries and filters *)

(** [FeedbackBlock.content] *)
Definition content (b : FeedbackBlock) : str := join [10%N] (feedback_lines b).

(** The string that stands for a status. *)
Definition status_name (s : status_t) : str :=
  match s with
  | open => u "open"
  | responded => u "responded"
  | resolved => u "resolved"
  end.

(** [d[key] += 1] on a [defaultdict(int)]. *)
Definition increment (key : str) (d : gmap str nat) : gmap str nat :=
  <[key := S (default 0%nat (d !! key))]> d.

(** The dictionary that [get_summary] returns. *)
Record summary : Type := {
  total : nat;
  by_status : gmap str nat;
  by_severity : gmap str nat;
  by_file : gmap str nat;
  by_reviewer : gmap str nat
}.

(** [if block.severity:], [if block.reviewer:]: the value when it is
    neither [None] nor empty. *)
Definition truthy (o : option str) : option str :=
  match o with
  | Some (c :: s) => Some (c :: s)
  | Some [] | None => None
  end.

(** One turn of the loop of [get_summary]. *)
Definition count_block (s : summary) (block : FeedbackBlock) : summary :=
  {| total := total s;
     by_status := increment (status_name (status block)) (by_status s);
     by_severity :=
       match truthy (severity block) with
       | Some sev => increment sev (by_severity s)
       | None => by_severity s
       end;
     by_file := increment (file_path block) (by_file s);
     by_reviewer :=
       match truthy (reviewer block) with
       | Some r => increment r (by_reviewer s)
       | None => by_reviewer s
       end |}.

(** [FeedbackParser.get_summary] *)
Definition get_summary (feedback_blocks : list FeedbackBlock) : summary :=
  fold_left count_block feedback_blocks
    {| total := length feedback_blocks; by_status := ∅; by_severity := ∅;
       by_file := ∅; by_reviewer := ∅ |}.

(** The sum of the values of a dictionary of counts. *)
Definition sum_counts (d : gmap str nat) : nat :=
  map_fold (fun (_ : str) (n acc : nat) => (n + acc)%nat) 0%nat d.

(** [str.upper] *)
Class Casing : Type := { upper : str -> str }.

(** [a == b] for an optional string and a string. *)
Definition is_str (o : option str) (s : str) : bool :=
  match o with
  | Some x => str_eqb x s
  | None => false
  end.

Section Filters.

Context {casing : Casing}.

(** [FeedbackParser.filter_blocks]: a criterion that is [None] or empty
    does not filter. *)
Definition filter_blocks (feedback_blocks : list FeedbackBlock)
  (status_ severity_ file_path_ reviewer_ : option str) : list FeedbackBlock :=
  let filtered := feedback_blocks in
  let filtered :=
    match truthy status_ with
    | Some s =>
        List.filter (fun b => str_eqb (status_name (status b)) s) filtered
    | None => filtered
    end in
  let filtered :=
    match truthy severity_ with
    | Some s => List.filter (fun b => is_str (severity b) (upper s)) filtered
    | None => filtered
    end in
  let filtered :=
    match truthy file_path_ with
    | Some s => List.filter (fun b => contains s (file_path b)) filtered
    | None => filtered
    end in
  let filtered :=
    match truthy reviewer_ with
    | Some s => List.filter (fun b => is_str (reviewer b) s) filtered
    | None => filtered
    end in
  filtered.

End Filters.

Section Scan.

Context {tables : Tables}.

(** [parse_repository] with the files that [find_files_with_feedback]
    gives, as the method runs it. *)
Definition scan_repository (ignore_paths : list str) (git_grep : Z * str)
  (fs : filesystem) : list FeedbackBlock :=
  parse_repository fs (find_files_with_feedback ignore_paths git_grep).

End Scan.

(** The lines of a file as [readlines] returns them: a newline can only be
    the last character of a line. *)
Definition readlines_shape (line : str) : Prop :=
  mem_char 10%N (removelast line) = false.

(** The counts that one key gives over the blocks, as [get_summary] builds
    each of its four dictionaries. *)
Definition tally (key : FeedbackBlock -> option str)
  (feedback_blocks : list FeedbackBlock) (d : gmap str nat) : gmap str nat :=
  fold_left (fun d block =>
               match key block with
               | Some k => increment k d
               | None => d
               end) feedback_blocks d.

(** Whether [if value:] holds for an optional string. *)
Definition is_truthy (o : option str) : bool :=
  match truthy o with
  | Some _ => true
  | None => false
  end.

(** How many blocks have the key [k]. *)
Definition occurrences (key : FeedbackBlock -> option str) (k : str)
  (feedback_blocks : list FeedbackBlock) : nat :=
  length (List.filter (fun b => is_str (key b) k) feedback_blocks).

(** The tagged lines of a file. *)
Definition taggedb (line : str) : bool :=
  match is_feedback_line line with
  | Some _ => true
  | None => false
  end.

End FeedbackParser.

(** ** ingest-repo.py: [SecurityFilter] *)

Module SecurityFilter.
Import PyStr.

(** Exceptions that leave the functions below. *)
Inductive exn : Type := ValueError.

Inductive result (A : Type) : Type :=
  | Ok (a : A)
  | Raise (e : exn).
Arguments Ok {A} a.
Arguments Raise {A} e.

(** The configuration dictionary of one filter category; [None] is a key
    that is absent. *)
Record filter_config : Type := {
  enabled : option bool;
  patterns : option (list str);
  max_file_size_mb : option Q;
  check_symlinks : option bool
}.

(** [{}] *)
Definition no_config : filter_config :=
  {| enabled := None; patterns := None; max_file_size_mb := None;
     check_symlinks := None |}.

(** [d.get(key, default)] once the key has been looked up. *)
Definition get_or {A : Type} (o : option A) (default : A) : A :=
  match o with
  | Some a => a
  | None => default
  end.

(** [self.global_filters] in the order of [.items()], and [self.allowlist]. *)
Record filter : Type := {
  global_filters : list (str * filter_config);
  allowlist : list str
}.

Fixpoint lookup_category (key : str) (d : list (str * filter_config))
  : option filter_config :=
  match d with
  | [] => None
  | (k, c) :: d' => if str_eqb k key then Some c else lookup_category key d'
  end.

(** A [Path], as its parts. *)
Definition path : Type := list str.

(** [file_path.relative_to(repo_root)]: [None] stands for [ValueError]. *)
Fixpoint relative_to (file_path repo_root : path) : option path :=
  match repo_root, file_path with
  | [], _ => Some file_path
  | r :: root', f :: file' =>
      if str_eqb r f then relative_to file' root' else None
  | _ :: _, [] => None
  end.

(** [str(path)] for a relative path. *)
Definition path_str (p : path) : str :=
  match p with
  | [] => u "."
  | _ => join (u "/") p
  end.

(** What the operating system answers about a path: [os.path.islink],
    [os.readlink] ([None]: it raised) and [stat().st_size] ([None]: [stat]
    raised). *)
Record os_view : Type := {
  islink : path -> bool;
  readlink : path -> option str;
  st_size : path -> option N
}.

(** [os.path.isabs] *)
Definition isabs (target : str) : bool := startswith (u "/") target.

(** The rule on symbolic links, enabled and checking unless the
    configuration says otherwise. *)
Definition symlinks_checked (self : filter) : bool :=
  let symlink_config :=
    get_or (lookup_category (u "symlinks") (global_filters self)) no_config in
  get_or (enabled symlink_config) true
  && get_or (check_symlinks symlink_config) true.

(** The link text makes the rule fire: [os.readlink] raised, or the text
    is absolute, or [..] occurs in it. *)
Definition link_text_blocked (os : os_view) (file_path : path) : bool :=
  match readlink os file_path with
  | Some target => isabs target || contains (u "..") target
  | None => true
  end.

(** The first [if] of [should_include_file]: [true] when it returns
    [False]. *)
Definition symlink_rule (os : os_view) (self : filter) (file_path : path) : bool :=
  if islink os file_path then
    if symlinks_checked self then link_text_blocked os file_path else false
  else false.

(** [size_mb > max_size_mb] with [size_mb = st_size / (1024 * 1024)]. The
    quotient is taken in the rationals; Python's float quotient by a power
    of two is exact for sizes below 2^53 bytes. *)
Definition size_exceeds (size : N) (max_size_mb : Q) : bool :=
  negb (Qle_bool (inject_Z (Z.of_N size) / inject_Z 1048576) max_size_mb).

(** The rule on large files: [true] when it returns [False]. *)
Definition large_binary_rule (os : os_view) (self : filter) (file_path : path)
  : bool :=
  let large_binary_config :=
    get_or (lookup_category (u "large_binaries") (global_filters self))
      no_config in
  if get_or (enabled large_binary_config) true then
    let max_size_mb := get_or (max_file_size_mb large_binary_config) 1%Q in
    match st_size os file_path with
    | Some size => size_exceeds size max_size_mb
    | None => false
    end
  else false.

(** The link text followed from the directory of the link, one path part
    at a time, as long as no part on the way is itself a link: the parts
    of the place reached, innermost first, or [None] when the walk leaves
    the tree. *)
Fixpoint walk (dir_rev : list str) (steps : list str) : option (list str) :=
  match steps with
  | [] => Some dir_rev
  | s :: steps' =>
      if str_eqb s (u "..") then
        match dir_rev with
        | [] => None
        | _ :: up => walk up steps'
        end
      else if str_eqb s (u ".") || str_eqb s [] then walk dir_rev steps'
      else walk (s :: dir_rev) steps'
  end.

(** The specification's "target resolves inside the source root", for a
    relative link text: where the link at [link] (relative to the root)
    leads. *)
Definition spec_target_inside_root (link : path) (target : str) : option path :=
  if isabs target then None
  else option_map (@rev str) (walk (rev (removelast link)) (split 47%N target)).

(** A matcher for patterns made of literal characters, [?] and [*]; on
    these [fnmatch.fnmatch] does the same ([*] also matches [/]). *)
Fixpoint glob (pattern : str) : str -> bool :=
  match pattern with
  | [] => fun name => match name with [] => true | _ :: _ => false end
  | p :: ps =>
      if (p =? 42)%N then
        fix star (name : str) : bool :=
          glob ps name ||
          match name with
          | [] => false
          | _ :: name' => star name'
          end
      else fun name =>
        match name with
        | [] => false
        | c :: name' => ((p =? 63)%N || (p =? c)%N) && glob ps name'
        end
  end.

(** [fnmatch.fnmatch(name, pattern)] *)
Class Fnmatch : Type := { fnmatch : str -> str -> bool }.

Section Fnmatch.

Context {matcher : Fnmatch}.

(** [_matches_allowlist] *)
Definition _matches_allowlist (self : filter) (p : str) : bool :=
  existsb (fun pattern => fnmatch p pattern) (allowlist self).

(** [_matches_pattern] *)
Definition _matches_pattern (p pattern : str) : bool :=
  if fnmatch p pattern then true else false.

(** One turn of [for category, config in self.global_filters.items()]:
    [true] when it returns [False]. *)
Definition category_rule (relative_str : str) (entry : str * filter_config)
  : bool :=
  let (category, config) := entry in
  if str_eqb category (u "symlinks") || str_eqb category (u "large_binaries")
  then false
  else if negb (get_or (enabled config) true) then false
  else existsb (_matches_pattern relative_str) (get_or (patterns config) []).

(** [SecurityFilter.should_include_file] *)
Definition should_include_file (os : os_view) (self : filter)
  (file_path repo_root : path) : result bool :=
  if symlink_rule os self file_path then Ok false
  else
    match relative_to file_path repo_root with
    | None => Raise ValueError
    | Some relative_path =>
        let relative_str := path_str relative_path in
        if _matches_allowlist self relative_str then Ok true
        else if large_binary_rule os self file_path then Ok false
        else if existsb (category_rule relative_str) (global_filters self)
        then Ok false
        else Ok true
    end.

End Fnmatch.

Definition wildcard_fnmatch : Fnmatch :=
  {| fnmatch := fun name pattern => glob pattern name |}.

(** *** Sample trees *)

Definition repo_root : path := [u "cache"; u "3f2a"].

Definition docs_link : path := repo_root ++ [u "docs"; u "link.md"].
Definition passwd_link : path := repo_root ++ [u "notes.md"].
Definition big_doc : path := repo_root ++ [u "vendor"; u "manual.md"].

Definition path_eqb (a b : path) : bool :=
  (length a =? length b)%nat && forallb (fun ab => str_eqb (fst ab) (snd ab)) (combine a b).

(** [docs/link.md -> ../README.md], [notes.md -> /etc/passwd], and a
    manual of 5 MiB under [vendor/]. *)
Definition sample_os : os_view :=
  {| islink := fun p => path_eqb p docs_link || path_eqb p passwd_link;
     readlink := fun p =>
       if path_eqb p docs_link then Some (u "../README.md")
       else if path_eqb p passwd_link then Some (u "/etc/passwd")
       else None;
     st_size := fun p =>
       if path_eqb p big_doc then Some 5242880%N else Some 120%N |}.

(** No category configured, nothing on the allowlist. *)
Definition bare_filter : filter := {| global_filters := []; allowlist := [] |}.

(** Markdown files are allowlisted; [vendor/] is denied and the size
    ceiling is 1 MB. *)
Definition docs_filter : filter :=
  {| global_filters :=
       [ (u "large_binaries",
          {| enabled := Some true; patterns := None;
             max_file_size_mb := Some 1%Q; check_symlinks := None |});
         (u "vendored",
          {| enabled := Some true; patterns := Some [u "vendor/*"];
             max_file_size_mb := None; check_symlinks := None |}) ];
     allowlist := [u "*.md"] |}.

(** The place that [spec_target_inside_root] reaches is reached without
    passing through a symbolic link: no path from the root down to it is
    one. *)
Definition meets_no_link (os : os_view) (root target : path) : bool :=
  forallb (fun n => negb (islink os (root ++ firstn n target)))
    (seq 1 (length target)).

(** [x -> y], [y -> /etc/passwd] and [z -> README.md], where [README.md]
    is a plain file. *)
Definition chain_os : os_view :=
  {| islink := fun p =>
       path_eqb p (repo_root ++ [u "x"]) || path_eqb p (repo_root ++ [u "y"])
       || path_eqb p (repo_root ++ [u "z"]);
     readlink := fun p =>
       if path_eqb p (repo_root ++ [u "x"]) then Some (u "y")
       else if path_eqb p (repo_root ++ [u "y"]) then Some (u "/etc/passwd")
       else if path_eqb p (repo_root ++ [u "z"]) then Some (u "README.md")
       else None;
     st_size := fun _ => Some 120%N |}.

(** The tree in which no path is a symbolic link. *)
Definition without_links (os : os_view) : os_view :=
  {| islink := fun _ => false; readlink := readlink os; st_size := st_size os |}.

(** *** Local overrides *)

(** [config.update(override)]: the keys that [override] has replace those
    of [config]. *)
Definition update (config override : filter_config) : filter_config :=
  {| enabled := match enabled override with
                | Some b => Some b
                | None => enabled config
                end;
     patterns := match patterns override with
                 | Some ps => Some ps
                 | None => patterns config
                 end;
     max_file_size_mb := match max_file_size_mb override with
                         | Some q => Some q
                         | None => max_file_size_mb config
                         end;
     check_symlinks := match check_symlinks override with
                       | Some b => Some b
                       | None => check_symlinks config
                       end |}.

(** [if filter_name in d: d[filter_name].update(filter_config)] *)
Fixpoint update_category (filter_name : str) (override : filter_config)
  (d : list (str * filter_config)) : list (str * filter_config) :=
  match d with
  | [] => []
  | (k, c) :: d' =>
      if str_eqb k filter_name then (k, update c override) :: d'
      else (k, c) :: update_category filter_name override d'
  end.

(** One value of ["repository_overrides"], with its ["filters"] in the
    order of [.items()]. *)
Record repository_override : Type := {
  filters : option (list (str * filter_config))
}.

(** The local configuration file. *)
Record local_config : Type := {
  repository_overrides : option (list (str * repository_override))
}.

(** [SecurityFilter._merge_overrides] *)
Definition _merge_overrides (self : filter) (local : local_config) : filter :=
  let repo_overrides := get_or (repository_overrides local) [] in
  {| global_filters :=
       fold_left
         (fun d (item : str * repository_override) =>
            let (repo_name, overrides) := item in
            fold_left
              (fun d (item : str * filter_config) =>
                 let (filter_name, filter_config) := item in
                 update_category filter_name filter_config d)
              (get_or (filters overrides) []) d)
         repo_overrides (global_filters self);
     allowlist := allowlist self |}.

(** The overrides written for the category [name], of every repository, in
    the order of the file. *)
Definition overrides_of (name : str) (local : local_config) : list filter_config :=
  List.map snd
    (List.filter (fun item : str * filter_config => str_eqb (fst item) name)
       (flat_map (fun item : str * repository_override =>
                    get_or (filters (snd item)) [])
          (get_or (repository_overrides local) []))).

(** *** Copying a tree *)

(** What [copy_filtered_files] does to the world. *)
Inductive action : Type :=
  | Mkdir (p : path)
  | Copy2 (source dest : path)
  | Print (line : str).

Record stats : Type := { included : nat; filtered : nat }.

(** The pairs that [shutil.copy2] was called on. *)
Definition copies (actions : list action) : list (path * path) :=
  flat_map (fun a => match a with
                     | Copy2 s d => [(s, d)]
                     | Mkdir _ | Print _ => []
                     end) actions.

(** The lines printed. *)
Definition printed (actions : list action) : list str :=
  flat_map (fun a => match a with
                     | Print l => [l]
                     | Mkdir _ | Copy2 _ _ => []
                     end) actions.

Section Copy.

Context {matcher : Fnmatch}.

(** The loop of [copy_filtered_files] over the paths that
    [source_dir.rglob('*')] yields; [mkdir] and [copy2] are taken to
    succeed. An exception of [should_include_file] or [relative_to] ends the
    loop with what was done so far. *)
Fixpoint copy_loop (os : os_view) (is_file : path -> bool) (self : filter)
  (source_dir dest_dir : path) (verbose : bool) (files : list path)
  (stats_ : stats) (done : list action) : result stats * list action :=
  match files with
  | [] => (Ok stats_, done)
  | file_path :: files' =>
      if is_file file_path then
        match should_include_file os self file_path source_dir with
        | Raise e => (Raise e, done)
        | Ok true =>
            match relative_to file_path source_dir with
            | None => (Raise ValueError, done)
            | Some rel_path =>
                let dest_file := dest_dir ++ rel_path in
                copy_loop os is_file self source_dir dest_dir verbose files'
                  {| included := S (included stats_);
                     filtered := filtered stats_ |}
                  (done ++ [Mkdir (removelast dest_file);
                            Copy2 file_path dest_file])
            end
        | Ok false =>
            if verbose then
              match relative_to file_path source_dir with
              | None => (Raise ValueError, done)
              | Some rel_path =>
                  copy_loop os is_file self source_dir dest_dir verbose files'
                    {| included := included stats_;
                       filtered := S (filtered stats_) |}
                    (done ++ [Print (u "  Filtered: " ++ path_str rel_path)])
              end
            else
              copy_loop os is_file self source_dir dest_dir verbose files'
                {| included := included stats_;
                   filtered := S (filtered stats_) |}
                done
        end
      else
        copy_loop os is_file self source_dir dest_dir verbose files' stats_ done
  end.

(** [SecurityFilter.copy_filtered_files], on the paths [files] that
    [rglob] yields. *)
Definition copy_filtered_files (os : os_view) (is_file : path -> bool)
  (self : filter) (source_dir dest_dir : path) (verbose : bool)
  (files : list path) : result stats * list action :=
  copy_loop os is_file self source_dir dest_dir verbose files
    {| included := 0; filtered := 0 |} [].

(** [should_include_file] returned [True]. *)
Definition is_included (os : os_view) (self : filter)
  (file_path repo_root : path) : bool :=
  match should_include_file os self file_path repo_root with
  | Ok true => true
  | Ok false | Raise _ => false
  end.

End Copy.

(** [docs_filter] with its categories in the other order. *)
Definition docs_filter_reordered : filter :=
  {| global_filters := rev (global_filters docs_filter);
     allowlist := allowlist docs_filter |}.

End SecurityFilter.

(** ** ingest-repo.py: [RepoIngestion], and remove-ingested-repo.py *)

Module RepoIngestion.
Import PyStr.

(** The exceptions that [main] tells apart; [OtherError] is any other
    [Exception]. *)
Inductive exn : Type := ValueError | CalledProcessError | OtherError.

Inductive result (A : Type) : Type :=
  | Ok (a : A)
  | Raise (e : exn).
Arguments Ok {A} a.
Arguments Raise {A} e.

(** The characters that [re.sub(r'[^a-zA-Z0-9_-]', '-', ...)] keeps. *)
Definition allowed_char (c : char) : bool :=
  is_ascii_lower c || is_ascii_upper c || is_ascii_digit c
  || (c =? 95)%N || (c =? 45)%N.

(** [re.sub(r'[^a-zA-Z0-9_-]', '-', raw_name)] *)
Definition sanitize (raw_name : str) : str :=
  List.map (fun c => if allowed_char c then c else 45%N) raw_name.

(** [RepoIngestion._extract_and_sanitize_repo_name] *)
Definition _extract_and_sanitize_repo_name (url : str) : result str :=
  if contains (u "..") url then Raise ValueError
  else
    let parts := split 47%N (rstrip_chars (u ".git") (rstrip_chars (u "/") url)) in
    let raw_name := List.last parts [] in
    if str_eqb raw_name [] || str_eqb raw_name (u ".") || str_eqb raw_name (u "..")
    then Raise ValueError
    else
      let sanitized := sanitize raw_name in
      if startswith (u ".") sanitized || contains (u "/") sanitized
         || contains [92%N] sanitized || str_eqb sanitized []
      then Raise ValueError
      else Ok sanitized.

(** One value of the manifest's ["repositories"] object. *)
Record entry : Type := {
  url : str;
  version : str;
  commit_sha : str;
  commit_date : str;
  ingested_at : str
}.

(** How a step that reads, writes or prints fails: [json.JSONDecodeError],
    [UnicodeDecodeError] and [UnicodeEncodeError] are [ValueError]s, which
    [main] tells apart from the other exceptions ([OSError] and the
    like). *)
Inductive failure : Type :=
  | DecodeError
  | OtherFailure.

(** The exception of a failure. *)
Definition raised (f : failure) : exn :=
  match f with
  | DecodeError => ValueError
  | OtherFailure => OtherError
  end.

(** [manifest.json]: absent; such that [json.load] raises a decode error
    (the file is not JSON, or not text); such that [open] raises an
    [OSError]; a JSON object without ["repositories"]; or a JSON object with
    its ["repositories"] object. *)
Inductive manifest_file : Type :=
  | NoManifest
  | Undecodable
  | Unreadable
  | NoRepositories
  | Manifest (repositories : gmap str entry).

Record commit_info : Type := { ci_commit_sha : str; ci_commit_date : str }.

(** The fields of a [RepoIngestion] that the manifest depends on. *)
Record ingestion : Type := {
  repo_url : str;
  repo_version : str;
  repo_name : str
}.

(** What lies outside the program during one run: how [__init__] fails
    once the name is extracted, if it does (the hash of a URL that cannot be
    encoded, a filter configuration that is not JSON: decode errors; one
    that cannot be opened: another failure); what the steps of [ingest]
    before [_update_manifest] give (clone or fetch, checkout, [git log],
    copy, CONTEXT.md); the clock; and how the steps after
    [_update_manifest] fail, if they do ([_update_gitignore], where a
    [.gitignore] that is not text is a decode error, and the closing
    prints). *)
Record run_env : Type := {
  init_failure : option failure;
  steps_before_manifest : result commit_info;
  current_timestamp : str;
  closing_failure : option failure
}.

(** [RepoIngestion._update_manifest]: [json.load] raises on a manifest
    that cannot be decoded, [open] on one that cannot be read, and
    [manifest['repositories']] raises [KeyError] on one without the key;
    the write is taken to succeed. *)
Definition _update_manifest (self : ingestion) (ci : commit_info) (now : str)
  (mf : manifest_file) : result manifest_file :=
  let e := {| url := repo_url self; version := repo_version self;
              commit_sha := ci_commit_sha ci;
              commit_date := ci_commit_date ci;
              ingested_at := now |} in
  match mf with
  | NoManifest => Ok (Manifest (<[repo_name self := e]> ∅))
  | Manifest repositories => Ok (Manifest (<[repo_name self := e]> repositories))
  | Undecodable => Raise (raised DecodeError)
  | Unreadable => Raise (raised OtherFailure)
  | NoRepositories => Raise OtherError
  end.

(** [RepoIngestion.ingest]: the manifest file afterwards and how the call
    ended. *)
Definition ingest (self : ingestion) (env : run_env) (mf : manifest_file)
  : manifest_file * result unit :=
  match steps_before_manifest env with
  | Raise e => (mf, Raise e)
  | Ok ci =>
      match _update_manifest self ci (current_timestamp env) mf with
      | Raise e => (mf, Raise e)
      | Ok mf' =>
          (mf', match closing_failure env with
                | None => Ok tt
                | Some f => Raise (raised f)
                end)
      end
  end.

(** The exit code of [main] for an exception. *)
Definition exit_code (e : exn) : Z :=
  match e with
  | CalledProcessError => 1
  | ValueError => 2
  | OtherError => 3
  end.

(** [urlparse(url).scheme]; [None] when [urlparse] raises. *)
Class Urlparse : Type := { urlparse_scheme : str -> option str }.

Section Urlparse.

Context {parser : Urlparse}.

(** [RepoIngestion._validate_url]: every exception inside the [try],
    its own [ValueError] too, leaves as a [ValueError]. *)
Definition _validate_url (url : str) : result str :=
  match urlparse_scheme url with
  | None => Raise ValueError
  | Some scheme =>
      if negb (str_eqb scheme [])
         && negb (existsb (str_eqb scheme)
                    [u "http"; u "https"; u "git"; u "ssh"])
      then Raise ValueError
      else Ok url
  end.

(** [RepoIngestion.__init__] *)
Definition init (url version : str) (env : run_env) : result ingestion :=
  match _validate_url url with
  | Raise e => Raise e
  | Ok validated =>
      match _extract_and_sanitize_repo_name url with
      | Raise e => Raise e
      | Ok name =>
          match init_failure env with
          | None => Ok {| repo_url := validated; repo_version := version;
                          repo_name := name |}
          | Some f => Raise (raised f)
          end
      end
  end.

(** [main], from [# Run ingestion] on: the exit code and the manifest file
    afterwards. *)
Definition main (url version : str) (env : run_env) (mf : manifest_file)
  : Z * manifest_file :=
  match init url version env with
  | Raise e => (exit_code e, mf)
  | Ok ingestion =>
      match ingest ingestion env mf with
      | (mf', Ok _) => (0, mf')
      | (mf', Raise e) => (exit_code e, mf')
      end
  end.

(** [main] of remove-ingested-repo.py; an exception that nothing catches
    ends the interpreter with code 1, and a manifest without
    ["repositories"] is read as one with none ([data.get]). *)
Definition remove_main (repo : str) (mf : manifest_file) : Z * manifest_file :=
  match mf with
  | NoManifest => (0, mf)
  | Undecodable | Unreadable => (1, mf)
  | NoRepositories => (0, mf)
  | Manifest repositories =>
      match repositories !! repo with
      | Some _ => (0, Manifest (delete repo repositories))
      | None => (0, mf)
      end
  end.

(** The operations that write the manifest. *)
Inductive operation : Type :=
  | Ingest (url version : str) (env : run_env)
  | Remove (repo : str).

Definition run_operation (mf : manifest_file) (op : operation) : manifest_file :=
  match op with
  | Ingest url version env => snd (main url version env mf)
  | Remove repo => snd (remove_main repo mf)
  end.

Definition run_operations (ops : list operation) (mf : manifest_file)
  : manifest_file :=
  fold_left run_operation ops mf.

End Urlparse.

(** A name made of ASCII letters, digits, hyphens and underscores only. *)
Definition sanitized_name (name : str) : Prop :=
  name <> [] /\ Forall (fun c => allowed_char c = true) name.

(** Every key of the manifest is such a name. *)
Definition keys_sanitized (mf : manifest_file) : Prop :=
  match mf with
  | Manifest repositories =>
      map_Forall (fun name (_ : entry) => sanitized_name name) repositories
  | NoManifest | Undecodable | Unreadable | NoRepositories => True
  end.

(** A stand-in for [urlparse]: the text before the first [://], if any. *)
Fixpoint scheme_of (url : str) : str :=
  match url with
  | [] => []
  | c :: rest =>
      if startswith (u "://") url then []
      else if contains (u "://") rest then c :: scheme_of rest
      else []
  end.

Definition simple_urlparse : Urlparse :=
  {| urlparse_scheme := fun url => Some (scheme_of url) |}.

Definition sample_env : run_env :=
  {| init_failure := None;
     steps_before_manifest :=
       Ok {| ci_commit_sha := u "0a1b2c3d4e5f"; ci_commit_date := u "2025-11-23 10:00:00 +0000" |};
     current_timestamp := u "2025-11-24T08:00:00Z";
     closing_failure := None |}.

(** The ["repositories"] object of the manifest; nothing when there is no
    manifest. *)
Definition repositories_of (mf : manifest_file) : gmap str entry :=
  match mf with
  | Manifest repositories => repositories
  | NoManifest | Undecodable | Unreadable | NoRepositories => ∅
  end.

(** [main] of get-repo-url.py: the exit code and the line printed on
    standard output, if any; an exception that nothing catches ends the
    interpreter with code 1, and a manifest without ["repositories"] is
    read as one with none. *)
Definition get_repo_url_main (repo : str) (mf : manifest_file)
  : Z * option str :=
  match mf with
  | NoManifest => (1, None)
  | Undecodable | Unreadable => (1, None)
  | NoRepositories => (1, None)
  | Manifest repos =>
      match repos !! repo with
      | Some info => (0, Some (url info))
      | None => (1, None)
      end
  end.

(** *** The scripts and the context directory *)

(** A directory, as the parts of its path. *)
Definition path : Type := list str.






Section Scripts.

Context {parser : Urlparse}.


End Scripts.


Definition sample_url : str := u "https://example.org/org/repo".


(** *** [.gitignore] *)

(** The lines that iterating over a text file gives, each with its line
    end, which universal newlines turn into [\n] whether it was [\n], [\r]
    or [\r\n]; [after_cr] says that the character before was a [\r]. *)
Fixpoint lines_after (after_cr : bool) (text : str) : list str :=
  match text with
  | [] => []
  | c :: rest =>
      if (c =? 10)%N then
        if after_cr then lines_after false rest
        else [10%N] :: lines_after false rest
      else if (c =? 13)%N then [10%N] :: lines_after true rest
      else
        match lines_after false rest with
        | [] => [[c]]
        | l :: ls => (c :: l) :: ls
        end
  end.

Definition context_entry : str := u ".claude/context/".
Definition manifest_exception : str := u "!.claude/context/manifest.json".

(** [existing_lines] of [_update_gitignore]; [None] is a file that does
    not exist. *)
Definition existing_lines (gitignore : option str) : list str :=
  match gitignore with
  | Some text => List.map rstrip (lines_after false text)
  | None => []
  end.

(** [RepoIngestion._update_gitignore]: the file afterwards and the lines
    printed; reading and writing are taken to succeed. *)
Definition _update_gitignore (gitignore : option str)
  : option str * list str :=
  let has_context := existsb (str_eqb context_entry) (existing_lines gitignore) in
  let has_exception :=
    existsb (str_eqb manifest_exception) (existing_lines gitignore) in
  if negb has_context || negb has_exception then
    (Some
       (match gitignore with Some text => text | None => [] end
        ++ (if negb has_context
            then ([10%N] ++ u "# Exclude ingested third-party repositories"
                  ++ [10%N]) ++ (context_entry ++ [10%N])
            else [])
        ++ (if negb has_exception then manifest_exception ++ [10%N] else [])),
     [u "  Updated .gitignore to exclude .claude/context/"])
  else (gitignore, []).

End RepoIngestion.

(** ** planworktree.py *)

Module PlanWorktree.
Import PyStr.

(** [class Stage(TypedDict)]; [depends_on] is read with
    [stage.get('depends_on', [])], so it may be absent. *)
Record Stage : Type := {
  id : str;
  name : str;
  branch : str;
  worktree_path : str;
  status : str;
  depends_on : option (list str)
}.

(** [class PlanMetadata(TypedDict)] *)
Record PlanMetadata : Type := {
  plan_id : str;
  created : str;
  author : str;
  plan_status : str;
  stages : list Stage
}.

(** [get_stage_by_id] *)
Definition get_stage_by_id (metadata : PlanMetadata) (stage_id : str)
  : option Stage :=
  find (fun stage => str_eqb (id stage) stage_id) (stages metadata).

(** [class Colors] *)
Definition RED : str := 27%N :: u "[0;31m".
Definition GREEN : str := 27%N :: u "[0;32m".
Definition YELLOW : str := 27%N :: u "[1;33m".
Definition CYAN : str := 27%N :: u "[0;36m".
Definition BOLD : str := 27%N :: u "[1m".
Definition NC : str := 27%N :: u "[0m".

(** U+2713 *)
Definition CHECK_MARK : char := 10003%N.

(** A [Path], as its parts; [[]] is the directory the parts start from. *)
Definition path : Type := list str.

(** [path.parent] *)
Definition parent (p : path) : path := removelast p.

(** What a path names. *)
Inductive node : Type := Dir | File.

(** The file system: what each path names, if anything. *)
Record world : Type := { nodes : path -> option node }.

Definition path_eqb (a b : path) : bool :=
  (length a =? length b)%nat
  && forallb (fun ab => str_eqb (fst ab) (snd ab)) (combine a b).

Definition set_node (w : world) (p : path) (n : option node) : world :=
  {| nodes := fun q => if path_eqb q p then n else nodes w q |}.

(** What the process does to the outside, in order. *)
Inductive event : Type :=
  | Stdout (text : str)
  | Stderr (text : str)
  | Mkdir (p : path)
  | Subprocess (args : list str)
  | SymlinkTo (link target : path).

(** [OSError] is the only exception that leaves [create_worktree]. *)
Inductive exn : Type := OSError.

Inductive result (A : Type) : Type :=
  | Ok (a : A)
  | Raise (e : exn).
Arguments Ok {A} a.
Arguments Raise {A} e.

(** A computation reads and changes the world and logs its events. *)
Definition M (A : Type) : Type := world -> result A * world * list event.

Definition ret {A : Type} (a : A) : M A := fun w => (Ok a, w, []).

Definition bind {A B : Type} (c : M A) (k : A -> M B) : M B := fun w =>
  match c w with
  | (Ok a, w1, ev1) =>
      match k a w1 with
      | (r, w2, ev2) => (r, w2, ev1 ++ ev2)
      end
  | (Raise e, w1, ev1) => (Raise e, w1, ev1)
  end.

Notation "x <- c ;; k" := (bind c (fun x => k))
  (at level 100, c at next level, right associativity).
Notation "c ;; k" := (bind c (fun _ => k))
  (at level 100, right associativity).

Definition emit (e : event) : M unit := fun w => (Ok tt, w, [e]).

(** [print(msg)]: the text and the newline that [print] adds. *)
Definition print (msg : str) : M unit := emit (Stdout (msg ++ [10%N])).

Definition print_error (msg : str) : M unit :=
  emit (Stderr (RED ++ msg ++ NC ++ [10%N])).

Definition print_success (msg : str) : M unit := print (GREEN ++ msg ++ NC).

Definition print_warning (msg : str) : M unit := print (YELLOW ++ msg ++ NC).

(** The directories that [mkdir(parents=True, exist_ok=True)] goes through,
    outermost first: one that exists is kept, one that is missing is made,
    and a file in the way raises. *)
Fixpoint mkdir_walk (done todo : path) (w : world) : result unit * world :=
  match todo with
  | [] => (Ok tt, w)
  | part :: todo' =>
      let p := done ++ [part] in
      match nodes w p with
      | Some Dir => mkdir_walk p todo' w
      | Some File => (Raise OSError, w)
      | None => mkdir_walk p todo' (set_node w p (Some Dir))
      end
  end.

(** [p.mkdir(parents=True, exist_ok=True)] *)
Definition mkdir (p : path) : M unit := fun w =>
  let (r, w') := mkdir_walk [] p w in (r, w', [Mkdir p]).

(** Whether a path names something; the directory the parts start from
    always exists. *)
Definition exists_in (w : world) (p : path) : bool :=
  match p with
  | [] => true
  | _ :: _ => match nodes w p with Some _ => true | None => false end
  end.

(** [p.exists()] *)
Definition path_exists (p : path) : M bool := fun w => (Ok (exists_in w p), w, []).

(** In a file system, what lies under a path lies in a directory. *)
Definition well_formed (w : world) : Prop :=
  forall p part, p <> [] -> nodes w (p ++ [part]) <> None -> nodes w p = Some Dir.

(** [link.symlink_to(target)]: [FileExistsError] when the link's path is
    taken; afterwards the link names what the target names. *)
Definition symlink_to (link target : path) : M unit := fun w =>
  match nodes w link with
  | Some _ => (Raise OSError, w, [SymlinkTo link target])
  | None => (Ok tt, set_node w link (nodes w target), [SymlinkTo link target])
  end.

(** What the program takes from its libraries and from [git]:
    [Path(text).expanduser()], [str(path)], [plan_file.resolve()], the
    [git] program (return code, standard error and the world afterwards),
    and [str(e)] for the [CalledProcessError] of a command and its return
    code. *)
Class Environment : Type := {
  expanduser : str -> path;
  path_text : path -> str;
  resolve : world -> path -> path;
  git : list str -> world -> Z * str * world;
  called_process_error_text : list str -> Z -> str
}.

Section Environment.

Context {env : Environment}.

(** [subprocess.run(args, ...)] *)
Definition subprocess_run (args : list str) : M (Z * str) := fun w =>
  let '(code, err, w') := git args w in (Ok (code, err), w', [Subprocess args]).

(** The names of the dependencies that [get_stage_by_id] finds. *)
Fixpoint dep_names (metadata : PlanMetadata) (dependencies : list str)
  : list str :=
  match dependencies with
  | [] => []
  | dep :: rest =>
      match get_stage_by_id metadata dep with
      | Some dep_stage => name dep_stage :: dep_names metadata rest
      | None => dep_names metadata rest
      end
  end.

(** [create_worktree] *)
Definition create_worktree (plan_file : path) (stage : Stage)
  (metadata : PlanMetadata) : M bool :=
  let stage_id := id stage in
  let stage_name := name stage in
  let branch := branch stage in
  let worktree_path := expanduser (worktree_path stage) in
  let dependencies :=
    match depends_on stage with Some d => d | None => [] end in
  print ([10%N] ++ BOLD ++ u "=== Creating Worktree ===" ++ NC) ;;
  print (CYAN ++ u "Stage:" ++ NC ++ u " " ++ stage_name) ;;
  print (CYAN ++ u "Stage ID:" ++ NC ++ u " " ++ stage_id) ;;
  print (CYAN ++ u "Branch:" ++ NC ++ u " " ++ branch) ;;
  print (CYAN ++ u "Path:" ++ NC ++ u " " ++ path_text worktree_path) ;;
  match dependencies with
  | [] => ret tt
  | _ :: _ =>
      print_warning (u "Dependencies: "
                     ++ join (u ", ") (dep_names metadata dependencies)) ;;
      print_warning (u "Ensure dependent stages are completed before merging")
  end ;;
  print [] ;;
  (* Create parent directory *)
  mkdir (parent worktree_path) ;;
  (* Check if worktree already exists *)
  present <- path_exists worktree_path ;;
  if present then
    print_warning (u "Worktree already exists at "
                   ++ path_text worktree_path ++ [10%N]) ;;
    ret true
  else
    (* Check if branch exists *)
    shown <- subprocess_run
               [u "git"; u "show-ref"; u "--verify"; u "refs/heads/" ++ branch] ;;
    let branch_exists := (fst shown =? 0) in
    let add_args :=
      if branch_exists
      then [u "git"; u "worktree"; u "add"; path_text worktree_path; branch]
      else [u "git"; u "worktree"; u "add"; u "-b"; branch;
            path_text worktree_path] in
    (if branch_exists then
       print_warning (u "Branch '" ++ branch
                      ++ u "' exists, using existing branch")
     else
       print_success (u "Creating new branch '" ++ branch ++ u "'")) ;;
    added <- subprocess_run add_args ;;
    if (fst added =? 0) then
      (* Create symlink to plan *)
      let plan_link_dir := worktree_path ++ [u ".claude"; u "plans"] in
      mkdir plan_link_dir ;;
      let plan_link := plan_link_dir ++ [u "CURRENT_STAGE.md"] in
      plan_realpath <- (fun w => (Ok (resolve w plan_file), w, [])) ;;
      symlink_to plan_link plan_realpath ;;
      print_success (CHECK_MARK :: u " Worktree created") ;;
      print_success (CHECK_MARK :: u " Plan symlinked to "
                     ++ path_text plan_link ++ [10%N]) ;;
      ret true
    else
      (* except subprocess.CalledProcessError as e *)
      print_error (u "Error creating worktree: "
                   ++ called_process_error_text add_args (fst added)) ;;
      match snd added with
      | [] => ret tt
      | _ :: _ => print_error (snd added)
      end ;;
      ret false.

End Environment.

(** *** Setting up every stage *)

Definition BLUE : str := 27%N :: u "[0;34m".

Definition print_info (msg : str) : M unit := print (BLUE ++ msg ++ NC).

(** The commands run, the links made and the text written to standard
    error, among the events. *)
Definition subprocesses (events : list event) : list (list str) :=
  flat_map (fun e => match e with Subprocess args => [args] | _ => [] end)
    events.

Definition symlinks (events : list event) : list (path * path) :=
  flat_map (fun e => match e with SymlinkTo l t => [(l, t)] | _ => [] end)
    events.

Definition stderr (events : list event) : list str :=
  flat_map (fun e => match e with Stderr text => [text] | _ => [] end) events.

Section SetupAll.

Context {env : Environment}.

(** The loop of [setup_all] over the stages. *)
Fixpoint setup_all_loop (plan_file : path) (metadata : PlanMetadata)
  (todo : list Stage) (failures : list str) : M (list str) :=
  match todo with
  | [] => ret failures
  | stage :: rest =>
      created <- create_worktree plan_file stage metadata ;;
      setup_all_loop plan_file metadata rest
        (if created then failures else failures ++ [id stage])
  end.

(** [setup_all], from the metadata that [parse_plan_metadata] gives
    ([None]: the plan has none): the exit code, 0 when the function
    returns. *)
Definition setup_all (plan_file : path) (metadata : option PlanMetadata)
  : M Z :=
  match metadata with
  | None => print_error (u "No metadata found in plan file") ;; ret 1
  | Some metadata =>
      print_info (BOLD ++ u "Setting up worktrees for all stages..." ++ NC
                  ++ [10%N]) ;;
      failures <- setup_all_loop plan_file metadata (stages metadata) [] ;;
      match failures with
      | _ :: _ =>
          print_error (u "Failed to create worktrees for: "
                       ++ join (u ", ") failures) ;;
          ret 1
      | [] =>
          print_success (BOLD ++ u "All worktrees created successfully!" ++ NC
                         ++ [10%N]) ;;
          ret 0
      end
  end.

End SetupAll.

(** *** Tables *)

(** [s.ljust(width)] *)
Definition ljust (width : nat) (s : str) : str :=
  s ++ repeat 32%N (width - length s).

(** [col_widths[i] = max(col_widths[i], len(str(cell)))]; [None] is
    [IndexError]. *)
Definition widen (col_widths : list nat) (i : nat) (cell : str)
  : option (list nat) :=
  match col_widths !! i with
  | Some w => Some (<[i := Nat.max w (length cell)]> col_widths)
  | None => None
  end.

(** [for i, cell in enumerate(row)], from the index [i] on. *)
Fixpoint widen_row (col_widths : list nat) (i : nat) (row : list str)
  : option (list nat) :=
  match row with
  | [] => Some col_widths
  | cell :: row' =>
      match widen col_widths i cell with
      | Some col_widths' => widen_row col_widths' (S i) row'
      | None => None
      end
  end.

(** [for row in rows] *)
Fixpoint widen_rows (col_widths : list nat) (rows : list (list str))
  : option (list nat) :=
  match rows with
  | [] => Some col_widths
  | row :: rows' =>
      match widen_row col_widths 0 row with
      | Some col_widths' => widen_rows col_widths' rows'
      | None => None
      end
  end.

(** [cell.ljust(col_widths[i]) for i, cell in enumerate(cells)], from the
    index [i] on; on the widths that [widen_rows] gives no index is out of
    range, and an index that were is padded to no width here. *)
Fixpoint padded (col_widths : list nat) (i : nat) (cells : list str)
  : list str :=
  match cells with
  | [] => []
  | cell :: cells' =>
      ljust (default 0%nat (col_widths !! i)) cell
      :: padded col_widths (S i) cells'
  end.

(** The line that [print_sep] prints. *)
Definition sep_line (col_widths : list nat) : str :=
  u "+" ++ join (u "+") (List.map (fun w => repeat 45%N (w + 2)) col_widths)
  ++ u "+".

(** A line of cells. *)
Definition cells_line (col_widths : list nat) (cells : list str) : str :=
  u "| " ++ join (u " | ") (padded col_widths 0 cells) ++ u " |".

(** [print_table]: the lines printed, in order; [None] is the
    [IndexError] of a row with more cells than there are headers, raised
    before anything is printed. *)
Definition print_table (headers : list str) (rows : list (list str))
  : option (list str) :=
  match widen_rows (List.map (@length char) headers) rows with
  | None => None
  | Some col_widths =>
      Some ([sep_line col_widths; cells_line col_widths headers;
             sep_line col_widths]
            ++ List.map (cells_line col_widths) rows
            ++ [sep_line col_widths])
  end.

(** *** Sample plan *)

Definition sample_stage : Stage :=
  {| id := u "stage-1"; name := u "Parser"; branch := u "feature/parser";
     worktree_path := u "../wt/parser"; status := u "in-progress";
     depends_on := Some [u "stage-0"] |}.

Definition sample_metadata : PlanMetadata :=
  {| plan_id := u "plan-7"; created := u "2025-11-23"; author := u "alice";
     plan_status := u "active";
     stages :=
       [ {| id := u "stage-0"; name := u "Lexer"; branch := u "feature/lexer";
            worktree_path := u "../wt/lexer"; status := u "done";
            depends_on := None |};
         sample_stage ] |}.

(** Paths are split at [/]; the worktree of the sample stage is there. *)
Definition sample_expanduser (text : str) : path := split 47%N text.

Definition sample_world : world :=
  {| nodes := fun p =>
       if path_eqb p [u ".."] || path_eqb p [u ".."; u "wt"]
          || path_eqb p [u ".."; u "wt"; u "parser"]
       then Some Dir else None |}.

(** Paths are written with [/]; [git] fails and touches nothing. *)
Definition sample_environment : Environment :=
  {| expanduser := sample_expanduser;
     path_text := join (u "/");
     resolve := fun _ p => p;
     git := fun _ w => (128, u "fatal", w);
     called_process_error_text :=
       fun _ _ => u "Command returned non-zero exit status 128." |}.

(** A plan whose only stage is [sample_stage]. *)
Definition single_stage_metadata : PlanMetadata :=
  {| plan_id := u "plan-8"; created := u "2025-11-23"; author := u "alice";
     plan_status := u "active"; stages := [sample_stage] |}.


End PlanWorktree.

(** * Part II: properties *)

(** ** Python strings *)

Module PyStrFacts.
Import PyStr.

Lemma char_eqb_eq a b : char_eqb a b = true <-> a = b.
Proof. apply N.eqb_eq. Qed.

Lemma startswith_spec p s :
  startswith p s = true <-> exists t, s = p ++ t.
Proof.
  revert s; induction p as [|x p IH]; intros s; simpl.
  - split; [intros _; now exists s | reflexivity].
  - destruct s as [|y s]; simpl.
    + split; [discriminate | intros [t Ht]; discriminate].
    + rewrite andb_true_iff, char_eqb_eq, IH. split.
      * intros [-> [t ->]]. now exists t.
      * intros [t Ht]. injection Ht as -> ->. split; [reflexivity | now exists t].
Qed.

Lemma contains_spec p s :
  contains p s = true <-> exists a b, s = a ++ p ++ b.
Proof.
  induction s as [|c s IH].
  - simpl. rewrite orb_false_r, startswith_spec. split.
    + intros [t Ht]. exists [], t. exact Ht.
    + intros [a [b Hab]]. destruct a; [now exists b | discriminate].
  - simpl. rewrite orb_true_iff, startswith_spec, IH. split.
    + intros [[t Ht] | [a [b Hab]]].
      * exists [], t. exact Ht.
      * exists (c :: a), b. simpl. now rewrite Hab.
    + intros [a [b Hab]]. destruct a as [|x a].
      * left. now exists b.
      * right. injection Hab as -> ->. now exists a, b.
Qed.

Lemma contains_substring p s : contains p s = true <-> substring p s.
Proof. apply contains_spec. Qed.

Lemma str_eqb_eq a b : str_eqb a b = true <-> a = b.
Proof.
  revert b; induction a as [|x a IH]; intros [|y b]; simpl;
    try (split; [discriminate | intros [=]]); [tauto|].
  rewrite andb_true_iff, char_eqb_eq, IH. split; [intros [-> ->] | intros [= -> ->]]; auto.
Qed.

Lemma take_drop_while p s : take_while p s ++ drop_while p s = s.
Proof.
  induction s as [|c s IH]; simpl; [reflexivity|].
  destruct (p c); simpl; [now rewrite IH | reflexivity].
Qed.

Lemma take_while_Forall p s : Forall (fun c => p c = true) (take_while p s).
Proof.
  induction s as [|c s IH]; simpl; [constructor|].
  destruct (p c) eqn:E; constructor; assumption.
Qed.

Lemma drop_while_head p s c r : drop_while p s = c :: r -> p c = false.
Proof.
  induction s as [|x s IH]; simpl; [discriminate|].
  destruct (p x) eqn:E; [exact IH | intros [= -> _]; exact E].
Qed.

(** *** Stripping and splitting *)

Lemma rstrip_by_tail p s :
  exists ws, s = rstrip_by p s ++ ws /\ Forall (fun c => p c = true) ws.
Proof.
  induction s as [|c s (ws & E & Hws)]; simpl.
  - exists []. split; [reflexivity | constructor].
  - destruct (rstrip_by p s) as [|x r] eqn:Er.
    + destruct (p c) eqn:Ec.
      * exists (c :: s). split; [reflexivity|]. simpl in E. subst ws.
        constructor; assumption.
      * exists s. split; [reflexivity|]. simpl in E. now subst ws.
    + exists ws. split; [|exact Hws]. simpl. f_equal. exact E.
Qed.

Lemma rstrip_by_last p s r c : rstrip_by p s = r ++ [c] -> p c = false.
Proof.
  revert r. induction s as [|x s IH]; intros r; simpl.
  - now destruct r.
  - destruct (rstrip_by p s) as [|y t] eqn:Et.
    + destruct (p x) eqn:Ex; [now destruct r|].
      destruct r as [|? r]; [intros [= <-]; exact Ex|].
      intros [= _ H]. now destruct r.
    + destruct r as [|z r]; [discriminate|].
      intros [= _ H]. now apply (IH r).
Qed.

Lemma rstrip_by_fixed p s :
  (forall r c, s = r ++ [c] -> p c = false) -> rstrip_by p s = s.
Proof.
  induction s as [|x s IH]; intros H; simpl; [reflexivity|].
  destruct s as [|y s].
  - simpl. now rewrite (H [] x eq_refl).
  - rewrite IH.
    + reflexivity.
    + intros r c E. apply (H (x :: r) c). simpl. now rewrite E.
Qed.

Lemma rstrip_by_idempotent p s : rstrip_by p (rstrip_by p s) = rstrip_by p s.
Proof. apply rstrip_by_fixed. intros r c. apply rstrip_by_last. Qed.

Lemma rstrip_by_head p c s : p c = false -> exists r, rstrip_by p (c :: s) = c :: r.
Proof.
  intros Hc. simpl. rewrite Hc. destruct (rstrip_by p s); eauto.
Qed.

Lemma drop_while_fixed p s :
  (forall c r, s = c :: r -> p c = false) -> drop_while p s = s.
Proof.
  destruct s as [|c s]; intros H; simpl; [reflexivity|].
  now rewrite (H c s eq_refl).
Qed.

Lemma strip_idempotent s : strip (strip s) = strip s.
Proof.
  unfold strip, lstrip, rstrip.
  rewrite (drop_while_fixed isspace (rstrip_by isspace (drop_while isspace s))).
  - apply rstrip_by_idempotent.
  - intros c r E. destruct (drop_while isspace s) as [|x t] eqn:Ed;
      [discriminate E|].
    pose proof (drop_while_head _ _ _ _ Ed) as Hx.
    destruct (rstrip_by_head isspace x t Hx) as [r' Er].
    pose proof (eq_trans (eq_sym E) Er) as H. injection H as -> _. exact Hx.
Qed.

Lemma mem_char_In c s : mem_char c s = true <-> In c s.
Proof.
  unfold mem_char. rewrite existsb_exists. split.
  - intros (x & Hx & E). apply char_eqb_eq in E. now subst.
  - intros H. exists c. split; [exact H | now apply char_eqb_eq].
Qed.

Lemma split_without_separator sep s :
  mem_char sep s = false -> split sep s = [s].
Proof.
  induction s as [|c s IH]; simpl; [reflexivity|].
  unfold mem_char in *. simpl. rewrite orb_false_iff. intros [Hc Hs].
  assert (E : char_eqb c sep = false).
  { destruct (char_eqb c sep) eqn:E; [|reflexivity].
    apply char_eqb_eq in E. subst. unfold char_eqb in Hc.
    now rewrite N.eqb_refl in Hc. }
  rewrite E, (IH Hs). reflexivity.
Qed.

Lemma split_app_separator sep a b :
  mem_char sep a = false -> split sep (a ++ sep :: b) = a :: split sep b.
Proof.
  induction a as [|c a IH]; simpl.
  - intros _. unfold char_eqb. now rewrite N.eqb_refl.
  - unfold mem_char in *. simpl. rewrite orb_false_iff. intros [Hc Ha].
    assert (E : char_eqb c sep = false).
    { destruct (char_eqb c sep) eqn:E; [|reflexivity].
      apply char_eqb_eq in E. subst. unfold char_eqb in Hc.
      now rewrite N.eqb_refl in Hc. }
    rewrite E, (IH Ha). reflexivity.
Qed.

(** [sep.join(parts).split(sep)] gives the parts back when none of them
    holds the separator and there is at least one. *)
Lemma split_join sep parts :
  parts <> [] ->
  Forall (fun part => mem_char sep part = false) parts ->
  split sep (join [sep] parts) = parts.
Proof.
  induction parts as [|a parts IH]; intros Hne Hall; [congruence|].
  inversion Hall as [|? ? Ha Hparts]; subst.
  destruct parts as [|b parts].
  - simpl. now apply split_without_separator.
  - change (join [sep] (a :: b :: parts)) with (a ++ sep :: join [sep] (b :: parts)).
    rewrite (split_app_separator sep a _ Ha), IH; auto; discriminate.
Qed.

Lemma str_eqb_neq a b : a <> b -> str_eqb a b = false.
Proof.
  intros H. destruct (str_eqb a b) eqn:E; [|reflexivity].
  now apply str_eqb_eq in E.
Qed.

Lemma split_nonempty sep s : split sep s <> [].
Proof.
  destruct s as [|c s]; simpl; [discriminate|].
  destruct (char_eqb c sep); [discriminate|].
  destruct (split sep s); discriminate.
Qed.

(** Every part of a split occurs in the string, the first one at its
    start. *)
Lemma split_parts sep s :
  (exists b, s = hd [] (split sep s) ++ b) /\
  forall part, In part (split sep s) -> substring part s.
Proof.
  induction s as [|c s [(b & Hb) IH]]; simpl.
  - split; [now exists []|]. intros part [<- | []]. now exists [], [].
  - destruct (char_eqb c sep).
    + split; [now exists (c :: s)|]. intros part [<- | Hin].
      * now exists [], (c :: s).
      * destruct (IH part Hin) as (a & b' & ->). now exists (c :: a), b'.
    + destruct (split sep s) as [|w ws] eqn:Es;
        [now apply split_nonempty in Es|].
      simpl in Hb. split; [exists b; simpl; now f_equal|].
      intros part [<- | Hin].
      * exists [], b. simpl. now f_equal.
      * destruct (IH part (or_intror Hin)) as (a & b' & ->).
        now exists (c :: a), b'.
Qed.

(** The last part of a split is the end of the string. *)
Lemma split_last_suffix sep s :
  exists pre, s = pre ++ List.last (split sep s) [] /\
              (tl (split sep s) = [] -> pre = []).
Proof.
  induction s as [|c s (pre & E & Hpre)]; simpl.
  - exists []. split; reflexivity.
  - destruct (char_eqb c sep).
    + exists (c :: pre). split.
      * simpl. destruct (split sep s) eqn:Es;
          [now apply split_nonempty in Es | now f_equal].
      * intros H. now apply split_nonempty in H.
    + destruct (split sep s) as [|w ws] eqn:Es;
        [now apply split_nonempty in Es|].
      destruct ws as [|w' ws].
      * exists []. simpl in *. rewrite (Hpre eq_refl) in E. simpl in E.
        split; [now f_equal | reflexivity].
      * exists (c :: pre). simpl in *. split; [now f_equal | discriminate].
Qed.

End PyStrFacts.

(** ** The feedback scanner *)

Module FeedbackParserProofs.
Import PyStr PyStrFacts FeedbackParser.

Section CharacterTables.

Context {tables : Tables}.

(** *** The loop and the runs *)

Lemma carriesb_true t line : carriesb t line = true <-> carries t line.
Proof.
  unfold carriesb, carries. destruct (is_feedback_line line) as [t'|].
  - destruct t', t; simpl; split; intros H; try discriminate; try reflexivity;
      inversion H.
  - split; discriminate.
Qed.

Lemma find_snoc {A} (f : A -> bool) (l : list A) (x : A) :
  find f (l ++ [x]) =
  match find f l with Some y => Some y | None => if f x then Some x else None end.
Proof.
  induction l as [|a l IH]; simpl; [reflexivity|].
  destruct (f a); [reflexivity | exact IH].
Qed.

Lemma find_none_existsb {A} (f : A -> bool) (l : list A) :
  existsb f l = match find f l with Some _ => true | None => false end.
Proof.
  induction l as [|a l IH]; simpl; [reflexivity|].
  destruct (f a); [reflexivity | exact IH].
Qed.

Lemma exists_last_or_nil {A} (l : list A) :
  l = [] \/ exists p x, l = p ++ [x].
Proof.
  destruct l as [|a l]; [now left | right].
  destruct (@exists_last A (a :: l)) as (p & x & E); [discriminate|].
  now exists p, x.
Qed.

Lemma existsb_snoc {A} (f : A -> bool) (l : list A) (x : A) :
  existsb f (l ++ [x]) = existsb f l || f x.
Proof. rewrite existsb_app. simpl. now rewrite orb_false_r. Qed.

Lemma run_metadata_snoc cur l :
  run_metadata (cur ++ [l]) =
  if existsb (carriesb FEEDBACK) cur then run_metadata cur
  else if carriesb FEEDBACK l then parse_metadata l else no_metadata.
Proof.
  unfold run_metadata. rewrite find_snoc, find_none_existsb.
  destruct (find (carriesb FEEDBACK) cur); [reflexivity|].
  destruct (carriesb FEEDBACK l); reflexivity.
Qed.

Lemma represents_tagged fp st n cur l t :
  is_feedback_line l = Some t ->
  represents st n cur ->
  represents (step fp n l st) (n + 1) (cur ++ [l]) /\
  blocks (step fp n l st) = blocks st.
Proof.
  intros Ht Hrep. unfold step. rewrite Ht.
  assert (Hc : forall t', carriesb t' l = comment_type_eqb t t')
    by (intros t'; unfold carriesb; now rewrite Ht).
  destruct cur as [|c cur].
  - destruct Hrep as (Hb & Hl & Hs). unfold on_tagged. rewrite Hb, Hl. simpl.
    unfold run_metadata. simpl. rewrite !Hc.
    destruct t; simpl; repeat split; try reflexivity; f_equal; lia.
  - destruct Hrep as (Hb & Hl & Hs & Hf & Hr & Hv & Hm).
    unfold on_tagged. rewrite Hb.
    assert (Hlen : length ((c :: cur) ++ [l]) = S (length (c :: cur)))
      by (rewrite length_app; simpl; lia).
    assert (Hstart : Some (n - Z.of_nat (length (c :: cur))) =
                     Some (n + 1 - Z.of_nat (length ((c :: cur) ++ [l]))))
      by (rewrite Hlen; f_equal; lia).
    change ((c :: cur) ++ [l]) with (c :: (cur ++ [l])) at 1.
    cbv beta iota delta [represents].
    change (c :: (cur ++ [l])) with ((c :: cur) ++ [l]).
    assert (Hno : st_has_feedback st = false -> st_metadata st = no_metadata).
    { intros E. rewrite Hm. unfold run_metadata.
      rewrite Hf, find_none_existsb in E.
      now destruct (find (carriesb FEEDBACK) (c :: cur)). }
    rewrite !existsb_snoc, run_metadata_snoc, map_app, !Hc, <- Hf, <- Hr, <- Hv, <- Hm.
    destruct t, (st_has_feedback st) eqn:E; simpl;
      rewrite ?orb_true_r, ?orb_false_r, ?Hl, ?Hs;
      repeat split; try reflexivity; try exact Hstart; try exact Hb;
      now apply Hno.
Qed.

Lemma represents_untagged fp st n cur l :
  is_feedback_line l = None ->
  represents st n cur ->
  represents (step fp n l st) (n + 1) [] /\
  blocks (step fp n l st) = blocks st ++ close_run fp n cur.
Proof.
  intros Hu Hrep. unfold step. rewrite Hu. unfold on_untagged.
  destruct cur as [|c cur].
  - destruct Hrep as (Hb & Hl & Hs). rewrite Hl. simpl.
    rewrite app_nil_r. repeat split; assumption.
  - destruct Hrep as (Hb & Hl & Hs & Hf & Hr & Hv & Hm).
    rewrite Hl, Hs. simpl. repeat split.
    unfold make_block, block_of_run, determine_status, run_status.
    rewrite Hl, Hr, Hv, Hm. simpl. now rewrite length_map.
Qed.

Lemma represents_end fp st n cur :
  represents st n cur ->
  at_end_of_file fp st = blocks st ++ close_run fp n cur.
Proof.
  intros Hrep. unfold at_end_of_file. destruct cur as [|c cur].
  - destruct Hrep as (Hb & Hl & Hs). rewrite Hl. simpl. now rewrite app_nil_r.
  - destruct Hrep as (Hb & Hl & Hs & Hf & Hr & Hv & Hm).
    rewrite Hl, Hs. simpl.
    unfold make_block, block_of_run, determine_status, run_status.
    rewrite Hl, Hr, Hv, Hm. simpl. now rewrite length_map.
Qed.

(** The loop and the code after it compute [blocks_from]. *)
Lemma scan_blocks_from fp lines : forall n cur st,
  represents st n cur ->
  at_end_of_file fp (scan fp n lines st) = blocks st ++ blocks_from fp n cur lines.
Proof.
  induction lines as [|l rest IH]; intros n cur st Hrep; simpl.
  - now apply represents_end.
  - destruct (is_feedback_line l) as [t|] eqn:Ht.
    + destruct (represents_tagged fp st n cur l t Ht Hrep) as [Hrep' Hbl].
      rewrite (IH _ _ _ Hrep'). now rewrite Hbl.
    + destruct (represents_untagged fp st n cur l Ht Hrep) as [Hrep' Hbl].
      rewrite (IH _ _ _ Hrep'). rewrite Hbl. now rewrite <- app_assoc.
Qed.

Lemma parse_lines_blocks_from fp lines :
  parse_lines fp lines = blocks_from fp 1 [] lines.
Proof.
  unfold parse_lines.
  rewrite (scan_blocks_from fp lines 1 [] initial_state); [reflexivity|].
  simpl. repeat split.
Qed.

Lemma blocks_from_run fp run : forall n cur post,
  Forall tagged run ->
  blocks_from fp n cur (run ++ post) =
  blocks_from fp (n + Z.of_nat (length run)) (cur ++ run) post.
Proof.
  induction run as [|l run IH]; intros n cur post Hall; simpl.
  - rewrite app_nil_r. f_equal. lia.
  - inversion Hall as [|? ? Hl Hrun]; subst.
    destruct (is_feedback_line l) eqn:E; [|now elim Hl].
    rewrite (IH _ _ _ Hrun), <- app_assoc. simpl. f_equal. lia.
Qed.

Lemma blocks_from_split fp l rest xs : forall n cur,
  untagged l ->
  blocks_from fp n cur (xs ++ l :: rest) =
  blocks_from fp n cur (xs ++ [l]) ++
  blocks_from fp (n + Z.of_nat (length xs) + 1) [] rest.
Proof.
  induction xs as [|x xs IH]; intros n cur Hl; simpl.
  - unfold untagged in Hl. rewrite Hl. simpl.
    rewrite app_nil_r. do 2 f_equal. lia.
  - destruct (is_feedback_line x).
    + rewrite (IH _ _ Hl). do 2 f_equal. lia.
    + rewrite (IH _ _ Hl), <- app_assoc. do 3 f_equal. lia.
Qed.

Lemma blocks_from_boundary fp n cur post :
  boundary_after post ->
  blocks_from fp n cur post = close_run fp n cur ++ blocks_from fp n [] post.
Proof.
  intros Hb. destruct post as [|l q]; simpl.
  - now rewrite app_nil_r.
  - rewrite (Hb l q eq_refl). reflexivity.
Qed.

Lemma close_run_nonempty fp n run :
  run <> [] -> close_run fp n run = [block_of_run fp (n - Z.of_nat (length run)) run].
Proof. destruct run; [congruence | reflexivity]. Qed.

(** The file around a maximal run: the blocks before it, its own block,
    the blocks after it. *)
Lemma parse_lines_around_run fp pre run post :
  maximal_run pre run post ->
  parse_lines fp (pre ++ run ++ post) =
  parse_lines fp pre
  ++ [block_of_run fp (Z.of_nat (length pre) + 1) run]
  ++ blocks_from fp (Z.of_nat (length pre) + Z.of_nat (length run) + 1) [] post.
Proof.
  intros (Hne & Hall & Hpre & Hpost). rewrite !parse_lines_blocks_from.
  assert (Hrun : forall n,
    blocks_from fp n [] (run ++ post) =
    [block_of_run fp n run] ++ blocks_from fp (n + Z.of_nat (length run)) [] post).
  { intros n. rewrite (blocks_from_run fp run n [] post Hall). simpl.
    rewrite (blocks_from_boundary _ _ _ _ Hpost), (close_run_nonempty _ _ _ Hne).
    now rewrite Z.add_simpl_r. }
  destruct (exists_last_or_nil pre) as [-> | (p & l & ->)].
  - simpl. rewrite Hrun. cbn [app].
    f_equal; f_equal; lia.
  - rewrite <- app_assoc. simpl.
    rewrite (blocks_from_split fp l (run ++ post) p 1 [] (Hpre p l eq_refl)).
    rewrite Hrun, length_app. cbn [app length].
    do 2 f_equal; f_equal; lia.
Qed.

Lemma boundary_before_snoc xs l : untagged l -> boundary_before (xs ++ [l]).
Proof.
  intros Hl p x E. apply app_inj_tail in E as [_ <-]. exact Hl.
Qed.

Lemma boundary_before_nil : boundary_before [].
Proof. intros p l E. now destruct p. Qed.

Lemma boundary_after_nil : boundary_after [].
Proof. intros l q E. discriminate. Qed.

Lemma boundary_after_cons l q : untagged l -> boundary_after (l :: q).
Proof. intros Hl x y [= <- _]. exact Hl. Qed.

(** Every block that is emitted is the block of a maximal run. *)
Lemma blocks_from_sound fp b lines : forall pre cur n,
  n = Z.of_nat (length pre) + Z.of_nat (length cur) + 1 ->
  Forall tagged cur ->
  boundary_before pre ->
  In b (blocks_from fp n cur lines) ->
  exists pre' run post',
    pre ++ cur ++ lines = pre' ++ run ++ post' /\
    maximal_run pre' run post' /\
    b = block_of_run fp (Z.of_nat (length pre') + 1) run.
Proof.
  assert (Hclose : forall pre cur n post,
    n = Z.of_nat (length pre) + Z.of_nat (length cur) + 1 ->
    Forall tagged cur -> boundary_before pre -> boundary_after post ->
    In b (close_run fp n cur) ->
    exists pre' run post',
      pre ++ cur ++ post = pre' ++ run ++ post' /\
      maximal_run pre' run post' /\
      b = block_of_run fp (Z.of_nat (length pre') + 1) run).
  { intros pre cur n post Hn Hcur Hpre Hpost Hin.
    destruct cur as [|c cur]; [contradiction|].
    destruct Hin as [<- | []]. exists pre, (c :: cur), post.
    split; [reflexivity|]. split; [repeat split; auto; discriminate|].
    f_equal. lia. }
  induction lines as [|l rest IH]; intros pre cur n Hn Hcur Hpre Hin; simpl in Hin.
  - eapply Hclose; eauto using boundary_after_nil.
  - destruct (is_feedback_line l) as [t|] eqn:Ht.
    + destruct (IH pre (cur ++ [l]) (n + 1)) as (pre' & run & post' & E & Hmax & Hb); auto.
      * rewrite length_app. simpl. lia.
      * apply Forall_app. split; [exact Hcur|]. constructor; [|constructor].
        unfold tagged. rewrite Ht. discriminate.
      * exists pre', run, post'. rewrite <- E, <- app_assoc. auto.
    + apply in_app_or in Hin as [Hin | Hin].
      * eapply Hclose; eauto using boundary_after_cons.
      * destruct (IH (pre ++ cur ++ [l]) [] (n + 1)) as (pre' & run & post' & E & Hmax & Hb); auto.
        -- rewrite !length_app. simpl. lia.
        -- rewrite app_assoc. now apply boundary_before_snoc.
        -- exists pre', run, post'. rewrite <- E, <- !app_assoc. auto.
Qed.

Lemma parse_lines_sound fp lines b :
  In b (parse_lines fp lines) ->
  exists pre run post,
    lines = pre ++ run ++ post /\
    maximal_run pre run post /\
    b = block_of_run fp (Z.of_nat (length pre) + 1) run.
Proof.
  rewrite parse_lines_blocks_from. intros Hin.
  apply (blocks_from_sound fp b lines [] [] 1) in Hin;
    auto using boundary_before_nil.
Qed.

Lemma parse_lines_complete fp pre run post :
  maximal_run pre run post ->
  In (block_of_run fp (Z.of_nat (length pre) + 1) run)
     (parse_lines fp (pre ++ run ++ post)).
Proof.
  intros Hmax. rewrite (parse_lines_around_run fp pre run post Hmax).
  apply in_or_app. right. now left.
Qed.

Lemma blocks_from_placed fp lines : forall n cur,
  Forall (well_placed (n - Z.of_nat (length cur))) (blocks_from fp n cur lines) /\
  Forall (fun b => line_end b < n + Z.of_nat (length lines))
         (blocks_from fp n cur lines) /\
  StronglySorted precedes (blocks_from fp n cur lines).
Proof.
  assert (Hclose : forall n cur,
    Forall (well_placed (n - Z.of_nat (length cur))) (close_run fp n cur) /\
    Forall (fun b => line_end b < n) (close_run fp n cur)).
  { intros n [|c cur]; simpl; [split; constructor|].
    split; (constructor; [|constructor]); unfold well_placed; simpl;
      rewrite ?length_map; simpl; lia. }
  induction lines as [|l rest IH]; intros n cur; simpl.
  - destruct (Hclose n cur) as [H1 H2]. repeat split; auto.
    + eapply List.Forall_impl; [|exact H2]. simpl. intros; lia.
    + destruct cur; simpl; repeat constructor.
  - destruct (is_feedback_line l).
    + destruct (IH (n + 1) (cur ++ [l])) as (H1 & H2 & H3).
      rewrite length_app in H1. simpl in H1. repeat split; auto.
      * eapply List.Forall_impl; [|exact H1]. unfold well_placed. intros; lia.
      * eapply List.Forall_impl; [|exact H2]. simpl. intros; lia.
    + destruct (IH (n + 1) []) as (H1 & H2 & H3).
      destruct (Hclose n cur) as [C1 C2]. simpl in H1.
      repeat split.
      * apply Forall_app. split; [exact C1|].
        eapply List.Forall_impl; [|exact H1]. unfold well_placed. intros; lia.
      * apply Forall_app. split.
        -- eapply List.Forall_impl; [|exact C2]. simpl. intros; lia.
        -- eapply List.Forall_impl; [|exact H2]. simpl. intros; lia.
      * destruct cur as [|c cur]; simpl; [exact H3|].
        constructor; [exact H3|].
        eapply List.Forall_impl; [|exact H1]. unfold well_placed, precedes. simpl.
        rewrite ?length_map. simpl. intros; lia.
Qed.

Lemma parse_lines_placed fp lines :
  Forall (well_placed 1) (parse_lines fp lines) /\
  StronglySorted precedes (parse_lines fp lines).
Proof.
  rewrite parse_lines_blocks_from.
  destruct (blocks_from_placed fp lines 1 []) as (H1 & _ & H3).
  split; [|exact H3].
  eapply List.Forall_impl; [|exact H1]. unfold well_placed. simpl. intros; lia.
Qed.

Lemma StronglySorted_nth_error {A} (R : A -> A -> Prop) (l : list A) :
  StronglySorted R l ->
  forall i j a b, (i < j)%nat ->
    nth_error l i = Some a -> nth_error l j = Some b -> R a b.
Proof.
  induction 1 as [|x l Hs IH Hall]; intros i j a b Hij Ha Hb.
  - destruct i; discriminate.
  - destruct j as [|j]; [lia|]. simpl in Hb. destruct i as [|i]; simpl in Ha.
    + injection Ha as <-. apply nth_error_In in Hb.
      rewrite List.Forall_forall in Hall. now apply Hall.
    + apply (IH i j); auto. lia.
Qed.

Lemma existsb_Exists {A} (f : A -> bool) (P : A -> Prop) (l : list A) :
  (forall x, f x = true <-> P x) ->
  existsb f l = true <-> Exists P l.
Proof.
  intros H. rewrite existsb_exists, List.Exists_exists.
  split; intros (x & Hin & Hx); exists x; split; auto; now apply H.
Qed.

Lemma existsb_Permutation {A} (f : A -> bool) (l l' : list A) :
  Permutation l l' -> existsb f l = existsb f l'.
Proof.
  induction 1; simpl; try congruence.
  now destruct (f x), (f y).
Qed.

Lemma run_status_resolved run :
  Exists (carries RESOLVED) run -> run_status run = resolved.
Proof.
  intros H. apply (existsb_Exists (carriesb RESOLVED)) in H;
    [|intros; apply carriesb_true].
  unfold run_status. now rewrite H.
Qed.

Lemma run_status_responded run :
  ~ Exists (carries RESOLVED) run -> Exists (carries RESPONSE) run ->
  run_status run = responded.
Proof.
  intros Hn H. unfold run_status.
  destruct (existsb (carriesb RESOLVED) run) eqn:E.
  - elim Hn. apply (existsb_Exists (carriesb RESOLVED)); auto.
    intros; apply carriesb_true.
  - apply (existsb_Exists (carriesb RESPONSE)) in H;
      [|intros; apply carriesb_true]. now rewrite H.
Qed.

Lemma run_status_open run :
  ~ Exists (carries RESOLVED) run -> ~ Exists (carries RESPONSE) run ->
  run_status run = open.
Proof.
  intros Hn Hm. unfold run_status.
  destruct (existsb (carriesb RESOLVED) run) eqn:E.
  - elim Hn. apply (existsb_Exists (carriesb RESOLVED)); auto.
    intros; apply carriesb_true.
  - destruct (existsb (carriesb RESPONSE) run) eqn:E'; [|reflexivity].
    elim Hm. apply (existsb_Exists (carriesb RESPONSE)); auto.
    intros; apply carriesb_true.
Qed.

Lemma run_status_Permutation run run' :
  Permutation run run' -> run_status run' = run_status run.
Proof.
  intros H. unfold run_status.
  now rewrite !(existsb_Permutation _ _ _ H).
Qed.

Lemma maximal_run_Permutation pre run run' post :
  Permutation run run' -> maximal_run pre run post -> maximal_run pre run' post.
Proof.
  intros H (Hne & Hall & Hpre & Hpost). repeat split; auto.
  - intros ->. apply Permutation_sym, Permutation_nil in H. contradiction.
  - eapply Permutation_Forall; eauto.
Qed.

(** ** Claims about the scanner *)

(** C1. Every emitted block is the block of a maximal run of tagged lines of
    the file; its status is [resolved] if a line of the run carries the
    RESOLVED tag, else [responded] if one carries the RESPONSE tag, else
    [open]; and the file with the lines of that run in any other order has a
    block at the same place with the same status. *)
Theorem status_from_tag_presence fp lines b :
  In b (parse_lines fp lines) ->
  exists pre run post,
    lines = pre ++ run ++ post /\
    maximal_run pre run post /\
    line_start b = Z.of_nat (length pre) + 1 /\
    line_end b = Z.of_nat (length pre) + Z.of_nat (length run) /\
    (Exists (carries RESOLVED) run -> status b = resolved) /\
    (~ Exists (carries RESOLVED) run -> Exists (carries RESPONSE) run ->
     status b = responded) /\
    (~ Exists (carries RESOLVED) run -> ~ Exists (carries RESPONSE) run ->
     status b = open) /\
    (forall run', Permutation run run' ->
       exists b', In b' (parse_lines fp (pre ++ run' ++ post)) /\
         line_start b' = line_start b /\ line_end b' = line_end b /\
         status b' = status b).
Proof.
  intros Hin. destruct (parse_lines_sound fp lines b Hin) as (pre & run & post & E & Hmax & ->).
  exists pre, run, post. simpl.
  split; [exact E|]. split; [exact Hmax|].
  split; [reflexivity|]. split; [lia|].
  split; [apply run_status_resolved|].
  split; [apply run_status_responded|].
  split; [apply run_status_open|].
  intros run' Hperm.
  exists (block_of_run fp (Z.of_nat (length pre) + 1) run'). split.
  - apply parse_lines_complete. eapply maximal_run_Permutation; eauto.
  - simpl. rewrite <- (Permutation_length Hperm).
    repeat split. now apply run_status_Permutation.
Qed.

(** C3. The blocks of a file are exactly the maximal runs of tagged lines:
    a block's [line_start] and [line_end] are the 1-based numbers of the
    first and of the last line of its run and its [feedback_lines] are the
    lines of the run, stripped on the right; every maximal run has its
    block; and a run that ends with the file is the last block, ending at
    the last line. *)
Theorem line_numbers_of_runs fp lines :
  (forall b, In b (parse_lines fp lines) ->
     exists pre run post,
       lines = pre ++ run ++ post /\
       maximal_run pre run post /\
       line_start b = Z.of_nat (length pre) + 1 /\
       line_end b = Z.of_nat (length pre) + Z.of_nat (length run) /\
       feedback_lines b = List.map rstrip run) /\
  (forall pre run post,
     lines = pre ++ run ++ post -> maximal_run pre run post ->
     exists b, In b (parse_lines fp lines) /\
       line_start b = Z.of_nat (length pre) + 1 /\
       line_end b = Z.of_nat (length pre) + Z.of_nat (length run) /\
       feedback_lines b = List.map rstrip run) /\
  (forall pre run,
     lines = pre ++ run -> maximal_run pre run [] ->
     exists bs b, parse_lines fp lines = bs ++ [b] /\
       line_start b = Z.of_nat (length pre) + 1 /\
       line_end b = Z.of_nat (length lines)).
Proof.
  split; [|split].
  - intros b Hin.
    destruct (parse_lines_sound fp lines b Hin) as (pre & run & post & E & Hmax & ->).
    exists pre, run, post. simpl. repeat split; auto; try apply Hmax. lia.
  - intros pre run post -> Hmax.
    exists (block_of_run fp (Z.of_nat (length pre) + 1) run). split.
    + now apply parse_lines_complete.
    + simpl. repeat split. lia.
  - intros pre run -> Hmax.
    exists (parse_lines fp pre), (block_of_run fp (Z.of_nat (length pre) + 1) run).
    pose proof (parse_lines_around_run fp pre run [] Hmax) as H.
    rewrite app_nil_r in H. rewrite H. simpl.
    repeat split. rewrite length_app. lia.
Qed.

(** C10. In the list that [parse_file] returns, every block has
    [line_end = line_start + len(feedback_lines) - 1] and [line_start >= 1],
    and a block that comes earlier in the list lies wholly before a later
    one: its [line_start] is smaller and its [line_end] is below the later
    block's [line_start], so no two ranges overlap. *)
Theorem blocks_ordered_and_disjoint fp lines :
  Forall (fun b =>
            line_end b = line_start b + Z.of_nat (length (feedback_lines b)) - 1 /\
            1 <= line_start b)
         (parse_lines fp lines) /\
  StronglySorted precedes (parse_lines fp lines) /\
  (forall i j a b, (i < j)%nat ->
     nth_error (parse_lines fp lines) i = Some a ->
     nth_error (parse_lines fp lines) j = Some b ->
     line_start a < line_start b /\
     line_start a <= line_end a /\ line_end a < line_start b /\
     line_start b <= line_end b).
Proof.
  destruct (parse_lines_placed fp lines) as [Hp Hs].
  split; [|split; [exact Hs|]].
  - eapply List.Forall_impl; [|exact Hp]. unfold well_placed. intros; lia.
  - intros i j a b Hij Ha Hb.
    destruct (StronglySorted_nth_error _ _ Hs i j a b Hij Ha Hb) as [H1 H2].
    rewrite List.Forall_forall in Hp.
    destruct (Hp a (nth_error_In _ _ Ha)) as (_ & _ & Ha').
    destruct (Hp b (nth_error_In _ _ Hb)) as (_ & _ & Hb').
    lia.
Qed.

Lemma find_first {A} (f : A -> bool) (before after : list A) (x : A) :
  (forall y, In y before -> f y = false) -> f x = true ->
  find f (before ++ x :: after) = Some x.
Proof.
  induction before as [|y before IH]; intros Hb Hx; simpl.
  - now rewrite Hx.
  - rewrite (Hb y (or_introl eq_refl)). apply IH; auto.
    intros z Hz. apply Hb. now right.
Qed.

Lemma find_absent {A} (f : A -> bool) (l : list A) :
  (forall y, In y l -> f y = false) -> find f l = None.
Proof.
  induction l as [|y l IH]; intros H; simpl; [reflexivity|].
  rewrite (H y (or_introl eq_refl)). apply IH. intros z Hz. apply H. now right.
Qed.

Lemma not_carries_false t line : ~ carries t line -> carriesb t line = false.
Proof.
  intros H. destruct (carriesb t line) eqn:E; [|reflexivity].
  elim H. now apply carriesb_true.
Qed.

(** C5, as the code has it. The severity, reviewer and date of a block are
    those that [parse_metadata] extracts from the first line of the block's
    run that carries the FEEDBACK tag, whatever the lines after it say; a
    block with no FEEDBACK line has none of the three. *)
Theorem metadata_from_first_feedback_line fp lines b :
  In b (parse_lines fp lines) ->
  exists pre run post,
    lines = pre ++ run ++ post /\
    maximal_run pre run post /\
    line_start b = Z.of_nat (length pre) + 1 /\
    line_end b = Z.of_nat (length pre) + Z.of_nat (length run) /\
    (forall before l after,
       run = before ++ l :: after ->
       carries FEEDBACK l ->
       (forall x, In x before -> ~ carries FEEDBACK x) ->
       severity b = md_severity (parse_metadata l) /\
       reviewer b = md_reviewer (parse_metadata l) /\
       date b = md_date (parse_metadata l)) /\
    ((forall x, In x run -> ~ carries FEEDBACK x) ->
     severity b = None /\ reviewer b = None /\ date b = None).
Proof.
  intros Hin.
  destruct (parse_lines_sound fp lines b Hin) as (pre & run & post & E & Hmax & ->).
  exists pre, run, post. simpl.
  split; [exact E|]. split; [exact Hmax|]. split; [reflexivity|]. split; [lia|].
  split.
  - intros before l after -> Hl Hbefore. unfold run_metadata.
    rewrite find_first; auto.
    + intros y Hy. apply not_carries_false. now apply Hbefore.
    + now apply carriesb_true.
  - intros Hnone. unfold run_metadata. rewrite find_absent; auto.
    intros y Hy. apply not_carries_false. now apply Hnone.
Qed.

(** *** [parse_metadata] *)

Lemma find_severity_some sevs line s :
  find_severity sevs line = Some s ->
  In s sevs /\ substring (u "[" ++ s ++ u "]") line.
Proof.
  induction sevs as [|x sevs IH]; cbn [find_severity In]; [discriminate|].
  destruct (contains (u "[" ++ x ++ u "]") line) eqn:E.
  - intros [= <-]. split; [now left|]. now apply contains_spec.
  - intros H. destruct (IH H). split; [now right | assumption].
Qed.

Lemma find_severity_none sevs line :
  find_severity sevs line = None ->
  forall s, In s sevs -> ~ substring (u "[" ++ s ++ u "]") line.
Proof.
  induction sevs as [|x sevs IH]; cbn [find_severity In]; [intros _ s []|].
  destruct (contains (u "[" ++ x ++ u "]") line) eqn:E; [discriminate|].
  intros H s [<- | Hs]; [|now apply IH].
  intros Hsub. apply contains_spec in Hsub. congruence.
Qed.

Lemma take_while_nil_head p c r : take_while p (c :: r) = [] -> p c = false.
Proof. simpl. destruct (p c); [discriminate | reflexivity]. Qed.

Lemma search_reviewer_some line : forall h,
  search_reviewer line = Some h ->
  h <> [] /\ Forall (fun c => is_handle_char c = true) h /\
  exists a b,
    line = a ++ 64%N :: h ++ b /\
    (forall c b', b = c :: b' -> is_handle_char c = false) /\
    (forall a1 c r, line = a1 ++ 64%N :: c :: r ->
       (length a1 < length a)%nat -> is_handle_char c = false).
Proof.
  induction line as [|c rest IH]; intros h; simpl; [discriminate|].
  destruct (c =? 64)%N eqn:Ec.
  - apply N.eqb_eq in Ec. subst c.
    destruct (take_while is_handle_char rest) as [|x h0] eqn:Et.
    + intros H. destruct (IH h H) as (Hne & Hall & a & b & E & Hb & Hleft).
      split; [exact Hne|]. split; [exact Hall|].
      exists (64%N :: a), b. split; [simpl; now rewrite E|]. split; [exact Hb|].
      intros a1 c r E1 Hlen. destruct a1 as [|x a1]; simpl in E1.
      * injection E1 as E1. rewrite E1 in Et. now apply take_while_nil_head in Et.
      * injection E1 as _ E1. apply (Hleft a1 c r E1). simpl in Hlen. lia.
    + intros [= <-]. split; [discriminate|].
      split; [rewrite <- Et; apply take_while_Forall|].
      exists [], (drop_while is_handle_char rest).
      split; [now rewrite <- Et, take_drop_while|].
      split; [intros c b' Hd; now apply drop_while_head in Hd|].
      intros a1 c r _ Hlen. simpl in Hlen. lia.
  - intros H. destruct (IH h H) as (Hne & Hall & a & b & E & Hb & Hleft).
    split; [exact Hne|]. split; [exact Hall|].
    exists (c :: a), b. split; [simpl; now rewrite E|]. split; [exact Hb|].
    intros a1 c' r E1 Hlen. destruct a1 as [|x a1]; simpl in E1.
    + injection E1 as E1 _. rewrite E1, N.eqb_refl in Ec. discriminate.
    + injection E1 as _ E1. apply (Hleft a1 c' r E1). simpl in Hlen. lia.
Qed.

Lemma search_reviewer_none line :
  search_reviewer line = None ->
  forall a c r, line = a ++ 64%N :: c :: r -> is_handle_char c = false.
Proof.
  induction line as [|x rest IH]; simpl; intros H a c r E.
  - now destruct a.
  - destruct a as [|y a]; simpl in E.
    + injection E as -> ->. simpl in H.
      destruct (is_handle_char c); [discriminate | reflexivity].
    + injection E as _ E. apply (IH) with (a := a) (r := r); auto.
      destruct (x =? 64)%N; [|exact H].
      destruct (take_while is_handle_char rest); [exact H | discriminate].
Qed.

Lemma match_date_some s d :
  match_date s = Some d <-> date_shape d /\ exists r, s = d ++ r.
Proof.
  unfold match_date, date_shape. split.
  - do 10 (destruct s as [|? s]; [discriminate|]).
    destruct (_ && _) eqn:E; [|discriminate]. intros [= <-].
    repeat (apply andb_true_iff in E as [E ?]).
    repeat match goal with H : (_ =? _)%N = true |- _ => apply N.eqb_eq in H; subst end.
    split; [|now exists s].
    do 8 eexists. repeat split; eauto.
  - intros [(y1 & y2 & y3 & y4 & m1 & m2 & d1 & d2 & -> & H) [r ->]].
    simpl. destruct H as (-> & -> & -> & -> & -> & -> & -> & ->). reflexivity.
Qed.

Lemma search_date_some line : forall d,
  search_date line = Some d ->
  date_shape d /\
  exists a b, line = a ++ d ++ b /\
    (forall a1 d' r, line = a1 ++ d' ++ r -> date_shape d' ->
       (length a <= length a1)%nat).
Proof.
  induction line as [|c rest IH]; intros d.
  - simpl. discriminate.
  - cbn [search_date]. destruct (match_date (c :: rest)) as [d0|] eqn:E.
    + intros [= <-]. apply match_date_some in E as [Hs [r Hr]].
      split; [exact Hs|]. exists [], r. split; [exact Hr|]. intros; simpl; lia.
    + intros H. destruct (IH d H) as (Hs & a & b & Eq & Hleft).
      split; [exact Hs|]. exists (c :: a), b. split; [simpl; now rewrite Eq|].
      intros a1 d' r E1 Hd'. destruct a1 as [|x a1]; simpl in E1.
      * assert (match_date (c :: rest) = Some d')
          by (apply match_date_some; split; [exact Hd' | now exists r]).
        congruence.
      * injection E1 as _ E1. simpl. apply le_n_S. now apply (Hleft a1 d' r).
Qed.

Lemma search_date_none line :
  search_date line = None ->
  forall d, date_shape d -> ~ substring d line.
Proof.
  induction line as [|c rest IH]; intros H d Hd (a & b & E).
  - destruct Hd as (? & ? & ? & ? & ? & ? & ? & ? & -> & _).
    destruct a; discriminate.
  - cbn [search_date] in H.
    destruct (match_date (c :: rest)) as [d0|] eqn:Em; [discriminate|].
    destruct a as [|x a]; simpl in E.
    + assert (match_date (c :: rest) = Some d)
        by (apply match_date_some; split; [exact Hd | now exists b]).
      congruence.
    + injection E as _ E. apply (IH H d Hd). now exists a, b.
Qed.

(** C4. What [parse_metadata] extracts from a line, and the example of the
    specification.
    - The severity is one of CRITICAL, MAJOR, MINOR and NIT and stands in
      the line between square brackets; there is none exactly when no such
      bracketed label occurs; labels in another case are not recognised.
    - The reviewer is a non-empty run of word characters and hyphens that
      follows an [@] in the line and cannot be extended, taken at the first
      [@] that has such a run; there is none when no [@] is followed by such
      a character.
    - The date is the leftmost substring of the line made of four digits, a
      hyphen, two digits, a hyphen and two digits; there is none when the
      line has no such substring.
    - The line [# FEEDBACK [CRITICAL] (@alice, 2025-11-23): fix], alone in a
      file (with or without its newline), gives one block with these three
      values and status [open]. *)
Theorem metadata_extraction (line fp : str) :
  (forall s, md_severity (parse_metadata line) = Some s ->
     In s [u "CRITICAL"; u "MAJOR"; u "MINOR"; u "NIT"] /\
     substring (u "[" ++ s ++ u "]") line) /\
  (md_severity (parse_metadata line) = None ->
     forall s, In s [u "CRITICAL"; u "MAJOR"; u "MINOR"; u "NIT"] ->
       ~ substring (u "[" ++ s ++ u "]") line) /\
  md_severity (parse_metadata lowercase_line) = None /\
  (forall h, md_reviewer (parse_metadata line) = Some h ->
     h <> [] /\ Forall (fun c => is_handle_char c = true) h /\
     exists a b,
       line = a ++ 64%N :: h ++ b /\
       (forall c b', b = c :: b' -> is_handle_char c = false) /\
       (forall a1 c r, line = a1 ++ 64%N :: c :: r ->
          (length a1 < length a)%nat -> is_handle_char c = false)) /\
  (md_reviewer (parse_metadata line) = None ->
     forall a c r, line = a ++ 64%N :: c :: r -> is_handle_char c = false) /\
  (forall d, md_date (parse_metadata line) = Some d ->
     date_shape d /\
     exists a b, line = a ++ d ++ b /\
       (forall a1 d' r, line = a1 ++ d' ++ r -> date_shape d' ->
          (length a <= length a1)%nat)) /\
  (md_date (parse_metadata line) = None ->
     forall d, date_shape d -> ~ substring d line) /\
  parse_lines fp [example_line] = [example_block fp] /\
  parse_lines fp [example_line ++ [10%N]] = [example_block fp].
Proof.
  unfold parse_metadata. cbn [md_severity md_reviewer md_date].
  split; [intros s; apply find_severity_some|].
  split; [apply find_severity_none|].
  split; [reflexivity|].
  split; [apply search_reviewer_some|].
  split; [apply search_reviewer_none|].
  split; [apply search_date_some|].
  split; [apply search_date_none|].
  split; reflexivity.
Qed.

Lemma extend_all_flat_map fs files : forall acc,
  extend_all fs files acc = acc ++ flat_map (parse_file fs) files.
Proof.
  induction files as [|fp files IH]; intros acc; simpl.
  - now rewrite app_nil_r.
  - now rewrite IH, <- app_assoc.
Qed.

Lemma parse_repository_app fs xs ys :
  parse_repository fs (xs ++ ys) = parse_repository fs xs ++ parse_repository fs ys.
Proof.
  unfold parse_repository. rewrite !extend_all_flat_map. simpl.
  apply flat_map_app.
Qed.

(** C7. A file that cannot be opened or decoded gives no block, and the
    repository scan goes on: the blocks of a scan are those of the files
    listed before it followed by those of the files listed after it, the same
    as if the file had not been listed. *)
Theorem unreadable_file_is_skipped (fs : filesystem) (fp : str) :
  fs fp = RaiseIOError \/ fs fp = RaiseUnicodeDecodeError ->
  parse_file fs fp = [] /\
  forall before after,
    parse_repository fs (before ++ fp :: after) =
    parse_repository fs before ++ parse_repository fs after /\
    parse_repository fs (before ++ fp :: after) =
    parse_repository fs (before ++ after).
Proof.
  intros H.
  assert (E : parse_file fs fp = [])
    by (unfold parse_file; destruct H as [-> | ->]; reflexivity).
  split; [exact E|]. intros before after.
  assert (E1 : parse_repository fs (fp :: after) = parse_repository fs after).
  { unfold parse_repository. rewrite !extend_all_flat_map. simpl. now rewrite E. }
  rewrite (parse_repository_app fs before (fp :: after)), E1.
  split; [reflexivity|]. now rewrite parse_repository_app.
Qed.

End CharacterTables.


(** *** The cases of tests/unit/test_feedback_parser.py *)

Example test_is_feedback_line_python_style :
  is_feedback_line (u "# FEEDBACK: test") = Some FEEDBACK /\
  is_feedback_line (u "# RESPONSE: test") = Some RESPONSE /\
  is_feedback_line (u "# RESOLVED: test") = Some RESOLVED /\
  is_feedback_line (u "# Regular comment") = None.
Proof. repeat split; reflexivity. Qed.

Example test_is_feedback_line_javascript_style :
  is_feedback_line (u "// FEEDBACK: test") = Some FEEDBACK /\
  is_feedback_line (u "// RESPONSE: test") = Some RESPONSE /\
  is_feedback_line (u "// RESOLVED: test") = Some RESOLVED /\
  is_feedback_line (u "// Regular comment") = None.
Proof. repeat split; reflexivity. Qed.

Example test_is_feedback_line_html_style :
  is_feedback_line (u "<!-- FEEDBACK: test -->") = Some FEEDBACK /\
  is_feedback_line (u "<!-- RESPONSE: test -->") = Some RESPONSE /\
  is_feedback_line (u "<!-- RESOLVED: test -->") = Some RESOLVED /\
  is_feedback_line (u "<!-- RESOLVED: not closed") = None.
Proof. repeat split; reflexivity. Qed.

Example test_parse_file_multiple_blocks :
  let blocks :=
    parse_lines (tables := ascii_tables) (u "test.py")
      [ u "# FEEDBACK [CRITICAL]: First issue" ++ [10%N];
        [10%N];
        u "def function1():" ++ [10%N];
        u "    pass" ++ [10%N];
        [10%N];
        u "# FEEDBACK [MINOR]: Second issue" ++ [10%N];
        [10%N];
        u "def function2():" ++ [10%N];
        u "    pass" ++ [10%N] ] in
  List.map line_start blocks = [1; 6] /\
  List.map severity blocks = [Some (u "CRITICAL"); Some (u "MINOR")].
Proof. split; reflexivity. Qed.

Example test_parse_file_feedback_at_eof :
  let blocks :=
    parse_lines (tables := ascii_tables) (u "test.py")
      [ u "def function():" ++ [10%N];
        u "    pass" ++ [10%N];
        [10%N];
        u "# FEEDBACK: Issue at end of file" ++ [10%N] ] in
  List.map line_start blocks = [4] /\ List.map line_end blocks = [4].
Proof. split; reflexivity. Qed.

Example test_parse_file_with_resolved :
  let blocks :=
    parse_lines (tables := ascii_tables) (u "test.py")
      [ u "# FEEDBACK (@alice, 2025-11-23): Issue here" ++ [10%N];
        u "# RESPONSE (@bob, 2025-11-24): Fixed it" ++ [10%N];
        u "# RESOLVED (@bob, 2025-11-24): Done" ++ [10%N];
        [10%N];
        u "code here" ++ [10%N] ] in
  List.map status blocks = [resolved] /\
  List.map has_response blocks = [true] /\
  List.map has_resolved blocks = [true] /\
  List.map reviewer blocks = [Some (u "alice")].
Proof. repeat split; reflexivity. Qed.

Example test_indented_feedback :
  List.map line_start
    (parse_lines (tables := ascii_tables) (u "test.py")
       [ u "def outer():" ++ [10%N];
         u "    def inner():" ++ [10%N];
         u "        # FEEDBACK: Nested too deep" ++ [10%N];
         u "        pass" ++ [10%N] ]) = [3].
Proof. reflexivity. Qed.

Example test_parse_file_nonexistent :
  parse_file (tables := ascii_tables) sample_fs (u "nonexistent.py") = [].
Proof. reflexivity. Qed.

(** *** The claims on sample files *)

Lemma status_from_tag_presence_witness :
  In sample_block (parse_lines (tables := ascii_tables) sample_path sample_lines) /\
  exists pre run post,
    sample_lines = pre ++ run ++ post /\
    maximal_run pre run post /\
    line_start sample_block = Z.of_nat (length pre) + 1 /\
    line_end sample_block = Z.of_nat (length pre) + Z.of_nat (length run) /\
    (Exists (carries RESOLVED) run -> status sample_block = resolved) /\
    (~ Exists (carries RESOLVED) run -> Exists (carries RESPONSE) run ->
     status sample_block = responded) /\
    (~ Exists (carries RESOLVED) run -> ~ Exists (carries RESPONSE) run ->
     status sample_block = open) /\
    (forall run', Permutation run run' ->
       exists b', In b' (parse_lines (tables := ascii_tables) sample_path
                           (pre ++ run' ++ post)) /\
         line_start b' = line_start sample_block /\
         line_end b' = line_end sample_block /\
         status b' = status sample_block).
Proof.
  assert (H : In sample_block
                (parse_lines (tables := ascii_tables) sample_path sample_lines))
    by (vm_compute; left; reflexivity).
  split; [exact H|].
  exact (status_from_tag_presence (tables := ascii_tables) sample_path
           sample_lines sample_block H).
Defined.

Lemma metadata_from_first_feedback_line_witness :
  In sample_block (parse_lines (tables := ascii_tables) sample_path sample_lines) /\
  exists pre run post,
    sample_lines = pre ++ run ++ post /\
    maximal_run pre run post /\
    line_start sample_block = Z.of_nat (length pre) + 1 /\
    line_end sample_block = Z.of_nat (length pre) + Z.of_nat (length run) /\
    (forall before l after,
       run = before ++ l :: after ->
       carries FEEDBACK l ->
       (forall x, In x before -> ~ carries FEEDBACK x) ->
       severity sample_block = md_severity (parse_metadata (tables := ascii_tables) l) /\
       reviewer sample_block = md_reviewer (parse_metadata (tables := ascii_tables) l) /\
       date sample_block = md_date (parse_metadata (tables := ascii_tables) l)) /\
    ((forall x, In x run -> ~ carries FEEDBACK x) ->
     severity sample_block = None /\ reviewer sample_block = None /\
     date sample_block = None).
Proof.
  assert (H : In sample_block
                (parse_lines (tables := ascii_tables) sample_path sample_lines))
    by (vm_compute; left; reflexivity).
  split; [exact H|].
  exact (metadata_from_first_feedback_line (tables := ascii_tables) sample_path
           sample_lines sample_block H).
Defined.

(** C5, as the claim has it, fails: the block below is opened by a RESPONSE
    line that names [@bob] and 2025-11-24, and its reviewer, date and
    severity are those of its second line. *)
Lemma metadata_not_from_opening_line :
  parse_lines (tables := ascii_tables) sample_path orphan_lines = [orphan_block] /\
  line_start orphan_block = 1 /\
  nth_error orphan_lines 0 = Some orphan_first_line /\
  parse_metadata (tables := ascii_tables) orphan_first_line =
    {| md_severity := None;
       md_reviewer := Some (u "bob");
       md_date := Some (u "2025-11-24") |} /\
  severity orphan_block = Some (u "MAJOR") /\
  reviewer orphan_block = Some (u "alice") /\
  date orphan_block = Some (u "2025-11-23").
Proof. repeat split; vm_compute; reflexivity. Qed.

Lemma unreadable_file_is_skipped_witness :
  (sample_fs (u "logo.png") = RaiseIOError \/
   sample_fs (u "logo.png") = RaiseUnicodeDecodeError) /\
  parse_file (tables := ascii_tables) sample_fs (u "logo.png") = [] /\
  forall before after,
    parse_repository (tables := ascii_tables) sample_fs
      (before ++ u "logo.png" :: after) =
    parse_repository (tables := ascii_tables) sample_fs before ++
    parse_repository (tables := ascii_tables) sample_fs after /\
    parse_repository (tables := ascii_tables) sample_fs
      (before ++ u "logo.png" :: after) =
    parse_repository (tables := ascii_tables) sample_fs (before ++ after).
Proof.
  assert (H : sample_fs (u "logo.png") = RaiseIOError \/
              sample_fs (u "logo.png") = RaiseUnicodeDecodeError)
    by (right; reflexivity).
  split; [exact H|].
  exact (unreadable_file_is_skipped (tables := ascii_tables) sample_fs
           (u "logo.png") H).
Defined.

(** *** More on the scanner *)

Section Scanner.

Context {tables : Tables}.

Lemma taggedb_true l : taggedb l = true <-> tagged l.
Proof.
  unfold taggedb, tagged. destruct (is_feedback_line l); split; intros H;
    try discriminate; try reflexivity; congruence.
Qed.

Lemma taggedb_false l : taggedb l = false <-> untagged l.
Proof.
  unfold taggedb, untagged. destruct (is_feedback_line l); split; intros H;
    try discriminate; reflexivity.
Qed.

Lemma close_run_lines fp n cur :
  concat (List.map feedback_lines (close_run fp n cur)) = List.map rstrip cur.
Proof.
  destruct cur as [|c cur]; [reflexivity|].
  unfold close_run. cbn [List.map concat feedback_lines block_of_run].
  now rewrite app_nil_r.
Qed.

Lemma blocks_from_lines fp lines : forall n cur,
  concat (List.map feedback_lines (blocks_from fp n cur lines)) =
  List.map rstrip (cur ++ List.filter taggedb lines).
Proof.
  induction lines as [|l rest IH]; intros n cur; cbn [blocks_from List.filter].
  - now rewrite close_run_lines, app_nil_r.
  - unfold taggedb at 1. destruct (is_feedback_line l).
    + rewrite IH, <- app_assoc. reflexivity.
    + rewrite List.map_app, concat_app, close_run_lines, IH. cbn [app].
      now rewrite (List.map_app rstrip cur).
Qed.

Lemma blocks_from_nil fp lines : forall n cur,
  blocks_from fp n cur lines = [] <-> cur = [] /\ Forall untagged lines.
Proof.
  induction lines as [|l rest IH]; intros n cur; cbn [blocks_from].
  - destruct cur; simpl; split; try tauto; try discriminate.
    + intros _. split; [reflexivity | constructor].
    + intros [H _]. discriminate.
  - destruct (is_feedback_line l) as [t|] eqn:E.
    + rewrite IH. split.
      * intros [H _]. now destruct cur.
      * intros [_ H]. inversion H as [|? ? Hl]; subst.
        unfold untagged in Hl. congruence.
    + split.
      * intros H. apply app_eq_nil in H as [Hc Hr].
        apply IH in Hr as [_ Hr]. split.
        -- now destruct cur.
        -- constructor; assumption.
      * intros [-> H]. inversion H; subst. simpl. apply IH. now split.
Qed.

(** X1. The lines kept in the blocks of a file, taken block after block,
    are the tagged lines of the file in their order, each stripped on the
    right: no tagged line is lost or kept twice and no other line is kept.
    The result is empty exactly when the file has no tagged line. *)
Theorem blocks_hold_the_tagged_lines (fp : str) (lines : list str) :
  concat (List.map feedback_lines (parse_lines fp lines)) =
  List.map rstrip (List.filter taggedb lines) /\
  (parse_lines fp lines = [] <-> Forall untagged lines).
Proof.
  rewrite parse_lines_blocks_from. split.
  - apply (blocks_from_lines fp lines 1 []).
  - rewrite blocks_from_nil. tauto.
Qed.

Lemma rstrip_by_nonempty p s c :
  In c s -> p c = false -> rstrip_by p s <> [].
Proof.
  intros Hin Hc E. destruct (rstrip_by_tail p s) as (ws & Es & Hws).
  rewrite E in Es. simpl in Es. subst ws.
  rewrite List.Forall_forall in Hws. rewrite (Hws c Hin) in Hc. discriminate.
Qed.

Lemma drop_while_In p s c r : drop_while p s = c :: r -> In c s.
Proof.
  induction s as [|x s IH]; simpl; [discriminate|].
  destruct (p x); [intros H; right; now apply IH | intros [= -> _]; now left].
Qed.

Lemma pattern_search_nonblank p line t :
  opener p <> [] -> pattern_search p line = Some t ->
  exists c, In c line /\ isspace c = false.
Proof.
  intros Hop. unfold pattern_search.
  destruct (drop_while isspace line) as [|c r] eqn:Ed.
  - destruct (opener p); [congruence | discriminate].
  - intros _. exists c. split.
    + eapply drop_while_In; eauto.
    + eapply drop_while_head; eauto.
Qed.

Lemma tagged_nonblank line :
  tagged line -> exists c, In c line /\ isspace c = false.
Proof.
  unfold tagged, is_feedback_line, PATTERNS. cbn [first_match].
  repeat match goal with
         | |- context [pattern_search ?p line] =>
             let E := fresh "E" in
             destruct (pattern_search p line) eqn:E;
             [intros _; eapply pattern_search_nonblank; [|exact E]; discriminate|]
         end.
  congruence.
Qed.

Lemma rstrip_tagged line : tagged line -> rstrip line <> [].
Proof.
  intros H. destruct (tagged_nonblank line H) as (c & Hin & Hc).
  now apply (rstrip_by_nonempty isspace line c).
Qed.

Lemma run_metadata_severity run s :
  md_severity (run_metadata run) = Some s -> In s SEVERITIES.
Proof.
  unfold run_metadata. destruct (find (carriesb FEEDBACK) run).
  - unfold parse_metadata. cbn [md_severity]. intros H.
    now apply find_severity_some in H.
  - discriminate.
Qed.

(** X2. What every block of a parsed file satisfies: it names the file it
    was read from; its status agrees with its two flags ([resolved] exactly
    with [has_resolved], [responded] exactly with [has_response] and not
    [has_resolved], [open] exactly with neither); it has at least one line;
    its lines are not empty and have no white space at their end; and its
    severity, when it has one, is one of [SEVERITIES]. *)
Theorem block_invariants (fp : str) (lines : list str) :
  Forall (fun b =>
            file_path b = fp /\
            (status b = resolved <-> has_resolved b = true) /\
            (status b = responded <->
             has_resolved b = false /\ has_response b = true) /\
            (status b = open <->
             has_resolved b = false /\ has_response b = false) /\
            feedback_lines b <> [] /\
            Forall (fun l => l <> [] /\ rstrip l = l) (feedback_lines b) /\
            (forall s, severity b = Some s -> In s SEVERITIES))
         (parse_lines fp lines).
Proof.
  apply List.Forall_forall. intros b Hin.
  destruct (parse_lines_sound fp lines b Hin)
    as (pre & run & post & E & (Hne & Hall & _) & ->).
  cbn [file_path status has_resolved has_response feedback_lines severity
       block_of_run].
  split; [reflexivity|]. unfold run_status.
  destruct (existsb (carriesb RESOLVED) run), (existsb (carriesb RESPONSE) run);
    (split; [split; [reflexivity || discriminate | try reflexivity; try discriminate; intros [? ?]; try discriminate; reflexivity]|]);
    (split; [split; [try discriminate; try (intros _; split; reflexivity) | intros [? ?]; try discriminate; reflexivity]|]);
    (split; [split; [try discriminate; try (intros _; split; reflexivity) | intros [? ?]; try discriminate; reflexivity]|]);
    (split; [destruct run; [congruence | discriminate]|]);
    (split; [|apply run_metadata_severity]);
    apply List.Forall_forall; intros l Hl; apply in_map_iff in Hl as (raw & <- & Hraw);
    rewrite List.Forall_forall in Hall;
    (split; [apply rstrip_tagged; now apply Hall | apply rstrip_by_idempotent]).
Qed.

Lemma parse_lines_file_path fp lines b :
  In b (parse_lines fp lines) -> file_path b = fp.
Proof.
  intros Hin.
  destruct (parse_lines_sound fp lines b Hin) as (? & ? & ? & _ & _ & ->).
  reflexivity.
Qed.

Lemma parse_repository_flat_map fs files :
  parse_repository fs files = flat_map (parse_file fs) files.
Proof. unfold parse_repository. now rewrite extend_all_flat_map. Qed.

Lemma parse_file_In fs fp b :
  In b (parse_file fs fp) ->
  file_path b = fp /\
  exists lines, fs fp = ReadLines lines /\ In b (parse_lines fp lines).
Proof.
  unfold parse_file. destruct (fs fp) as [lines| |]; try contradiction.
  intros H. split; [now apply parse_lines_file_path in H | eauto].
Qed.

(** X3. The blocks of a repository scan are those of the listed files, file
    after file in the order of the list; each block names a listed file that
    could be read, and is a block of that file. *)
Theorem repository_blocks_come_from_files (fs : filesystem) (files : list str) :
  parse_repository fs files = flat_map (parse_file fs) files /\
  Forall (fun b =>
            In (file_path b) files /\
            exists lines,
              fs (file_path b) = ReadLines lines /\
              In b (parse_lines (file_path b) lines))
         (parse_repository fs files).
Proof.
  split; [apply parse_repository_flat_map|].
  rewrite parse_repository_flat_map. apply List.Forall_forall. intros b Hb.
  apply in_flat_map in Hb as (fp & Hfp & Hb).
  apply parse_file_In in Hb as [<- Hlines]. split; assumption.
Qed.

Lemma find_files_spec ignore_paths git_grep f :
  In f (find_files_with_feedback ignore_paths git_grep) ->
  f <> [] /\ strip f = f /\ should_ignore_file ignore_paths f = false.
Proof.
  unfold find_files_with_feedback. destruct git_grep as [rc out].
  destruct (rc =? 0); [|contradiction].
  intros H. apply filter_In in H as [H Hig].
  apply in_map_iff in H as (line & <- & H). apply filter_In in H as [_ Hne].
  split; [|split].
  - destruct (strip line); [discriminate | discriminate].
  - apply strip_idempotent.
  - now destruct (should_ignore_file ignore_paths (strip line)).
Qed.

Lemma should_ignore_file_false ignore_paths f :
  should_ignore_file ignore_paths f = false ->
  forall ip, In ip ignore_paths -> startswith ip f = false.
Proof.
  unfold should_ignore_file. intros H ip Hip.
  destruct (startswith ip f) eqn:E; [|reflexivity].
  assert (existsb (fun ignore_path => startswith ignore_path f) ignore_paths = true)
    by (apply existsb_exists; eauto).
  congruence.
Qed.

(** X4. Which files are scanned. A return code of [git grep] other than 0
    gives no file and no block. Every name that
    [find_files_with_feedback] returns is not empty, has no white space
    around it and starts with none of the ignore paths; hence no block of a
    scan comes from a file under an ignore path. An empty ignore path
    ignores every file. *)
Theorem ignored_paths_are_never_scanned (ignore_paths : list str)
  (git_grep : Z * str) (fs : filesystem) :
  (fst git_grep <> 0 ->
   find_files_with_feedback ignore_paths git_grep = [] /\
   scan_repository ignore_paths git_grep fs = []) /\
  Forall (fun f =>
            f <> [] /\ strip f = f /\
            forall ip, In ip ignore_paths -> startswith ip f = false)
         (find_files_with_feedback ignore_paths git_grep) /\
  Forall (fun b =>
            forall ip rest, In ip ignore_paths -> file_path b <> ip ++ rest)
         (scan_repository ignore_paths git_grep fs) /\
  (In [] ignore_paths -> scan_repository ignore_paths git_grep fs = []).
Proof.
  split; [|split; [|split]].
  - intros Hrc. unfold scan_repository, find_files_with_feedback.
    destruct git_grep as [rc out]. simpl in Hrc.
    destruct (rc =? 0) eqn:E; [apply Z.eqb_eq in E; contradiction|].
    split; reflexivity.
  - apply List.Forall_forall. intros f Hf.
    apply find_files_spec in Hf as (Hne & Hs & Hig).
    split; [exact Hne|]. split; [exact Hs|].
    now apply should_ignore_file_false.
  - apply List.Forall_forall. intros b Hb ip rest Hip E.
    unfold scan_repository in Hb. rewrite parse_repository_flat_map in Hb.
    apply in_flat_map in Hb as (fp & Hfp & Hb).
    apply parse_file_In in Hb as [Hpath _].
    apply find_files_spec in Hfp as (_ & _ & Hig).
    pose proof (should_ignore_file_false _ _ Hig ip Hip) as Hsw.
    assert (startswith ip fp = true)
      by (apply startswith_spec; exists rest; congruence).
    congruence.
  - intros Hin. unfold scan_repository.
    destruct (find_files_with_feedback ignore_paths git_grep) as [|f fs'] eqn:E;
      [reflexivity|].
    assert (Hf : In f (find_files_with_feedback ignore_paths git_grep))
      by (rewrite E; now left).
    apply find_files_spec in Hf as (_ & _ & Hig).
    pose proof (should_ignore_file_false _ _ Hig [] Hin) as Hsw.
    discriminate Hsw.
Qed.

End Scanner.

(** *** The text of a block *)

Section Content.

Context {tables : Tables}.

Lemma rstrip_no_newline l :
  readlines_shape l -> mem_char 10%N (rstrip l) = false.
Proof.
  unfold readlines_shape. intros Hshape.
  destruct (mem_char 10%N (rstrip l)) eqn:E; [|reflexivity].
  apply mem_char_In in E.
  destruct (exists_last_or_nil (rstrip l)) as [Hnil | (r & c & Hr)].
  - rewrite Hnil in E. contradiction.
  - rewrite Hr in E. pose proof (rstrip_by_last isspace l r c Hr) as Hc.
    apply in_app_or in E as [E | [E | []]]; [|subst c; discriminate Hc].
    destruct (rstrip_by_tail isspace l) as (ws & El & _).
    fold (rstrip l) in El. rewrite Hr, <- app_assoc in El.
    assert (Hin : In 10%N (removelast l)).
    { rewrite El, removelast_app by discriminate. apply in_or_app. now left. }
    apply mem_char_In in Hin. congruence.
Qed.

(** X5. [content] joins the lines of a block with newlines, and splitting
    it at the newlines gives the lines back, for every block of a file whose
    lines are as [readlines] returns them (a newline only at the end of a
    line). *)
Theorem content_splits_into_the_lines (fp : str) (lines : list str) :
  Forall readlines_shape lines ->
  Forall (fun b => split 10%N (content b) = feedback_lines b)
         (parse_lines fp lines).
Proof.
  intros Hshape. apply List.Forall_forall. intros b Hin.
  destruct (parse_lines_sound fp lines b Hin)
    as (pre & run & post & E & (Hne & _) & ->).
  unfold content. cbn [feedback_lines block_of_run].
  apply split_join.
  - destruct run; [congruence | discriminate].
  - apply List.Forall_forall. intros l Hl.
    apply in_map_iff in Hl as (raw & <- & Hraw).
    apply rstrip_no_newline. rewrite List.Forall_forall in Hshape.
    apply Hshape. rewrite E. apply in_or_app. right. apply in_or_app. now left.
Qed.

End Content.

Lemma content_splits_into_the_lines_witness :
  Forall readlines_shape sample_lines /\
  Forall (fun b => split 10%N (content b) = feedback_lines b)
         (parse_lines (tables := ascii_tables) sample_path sample_lines).
Proof.
  assert (H : Forall readlines_shape sample_lines)
    by (repeat constructor).
  split; [exact H|].
  exact (content_splits_into_the_lines (tables := ascii_tables) sample_path
           sample_lines H).
Defined.

(** *** Summaries and filters *)

Lemma increment_lookup (k k' : str) (d : gmap str nat) :
  increment k d !! k' =
  if decide (k = k') then Some (S (default 0%nat (d !! k))) else d !! k'.
Proof. unfold increment. apply lookup_insert. Qed.

Lemma sum_counts_insert (k : str) (n : nat) (d : gmap str nat) :
  d !! k = None -> sum_counts (<[k := n]> d) = (n + sum_counts d)%nat.
Proof.
  intros H. unfold sum_counts. apply map_fold_insert_L; [|exact H].
  intros. lia.
Qed.

Lemma sum_counts_increment (k : str) (d : gmap str nat) :
  sum_counts (increment k d) = S (sum_counts d).
Proof.
  unfold increment. destruct (d !! k) as [v|] eqn:E; simpl.
  - rewrite <- (insert_delete_eq d k (S v)).
    rewrite sum_counts_insert by apply lookup_delete_eq.
    rewrite <- (insert_delete_id d k v E) at 2.
    rewrite sum_counts_insert by apply lookup_delete_eq. lia.
  - now rewrite sum_counts_insert.
Qed.

Lemma tally_sum key blocks : forall d,
  sum_counts (tally key blocks d) =
  (length (List.filter (fun b => match key b with Some _ => true | None => false end)
             blocks) + sum_counts d)%nat.
Proof.
  unfold tally. induction blocks as [|b blocks IH]; intros d; simpl;
    [reflexivity|].
  rewrite IH. destruct (key b); simpl; [rewrite sum_counts_increment|]; lia.
Qed.

Lemma tally_lookup key blocks k : forall d,
  default 0%nat (tally key blocks d !! k) =
  (occurrences key k blocks + default 0%nat (d !! k))%nat.
Proof.
  unfold tally, occurrences.
  induction blocks as [|b blocks IH]; intros d; simpl; [reflexivity|].
  rewrite IH. destruct (key b) as [k'|]; simpl; [|reflexivity].
  rewrite increment_lookup. destruct (decide (k' = k)) as [->|Hne].
  - assert (E : str_eqb k k = true) by now apply str_eqb_eq.
    rewrite E. simpl. lia.
  - destruct (str_eqb k' k) eqn:E; [apply str_eqb_eq in E; contradiction|].
    reflexivity.
Qed.

Lemma tally_positive key blocks : forall d,
  (forall k n, d !! k = Some n -> (0 < n)%nat) ->
  forall k n, tally key blocks d !! k = Some n -> (0 < n)%nat.
Proof.
  unfold tally. induction blocks as [|b blocks IH]; intros d Hd; simpl;
    [exact Hd|].
  apply IH. destruct (key b) as [k'|]; [|exact Hd].
  intros k n. rewrite increment_lookup.
  destruct (decide (k' = k)); [intros [= <-]; lia | apply Hd].
Qed.

Lemma fold_count_block blocks : forall s,
  fold_left count_block blocks s =
  {| total := total s;
     by_status :=
       tally (fun b => Some (status_name (status b))) blocks (by_status s);
     by_severity := tally (fun b => truthy (severity b)) blocks (by_severity s);
     by_file := tally (fun b => Some (file_path b)) blocks (by_file s);
     by_reviewer := tally (fun b => truthy (reviewer b)) blocks (by_reviewer s) |}.
Proof.
  induction blocks as [|b blocks IH]; intros s; simpl.
  - now destruct s.
  - rewrite IH. unfold tally. simpl.
    destruct (truthy (severity b)), (truthy (reviewer b)); reflexivity.
Qed.

Lemma filter_length_le {A} (f : A -> bool) (l : list A) :
  (length (List.filter f l) <= length l)%nat.
Proof.
  induction l as [|x l IH]; simpl; [lia|]. destruct (f x); simpl; lia.
Qed.

Lemma filter_length_mono {A} (f g : A -> bool) (l : list A) :
  (forall x, f x = true -> g x = true) ->
  (length (List.filter f l) <= length (List.filter g l))%nat.
Proof.
  intros H. induction l as [|x l IH]; simpl; [lia|].
  destruct (f x) eqn:E.
  - rewrite (H x E). simpl. lia.
  - destruct (g x); simpl; lia.
Qed.

Lemma filter_all {A} (f : A -> bool) (l : list A) :
  (forall x, f x = true) -> List.filter f l = l.
Proof.
  intros H. induction l as [|x l IH]; simpl; [reflexivity|].
  now rewrite H, IH.
Qed.

(** X6. What [get_summary] counts. [total] is the number of blocks; the
    counts by status add up to it and so do the counts by file; the counts
    by severity and by reviewer add up to the number of blocks that have a
    non-empty severity, or reviewer; and no dictionary holds a count of
    zero. *)
Theorem summary_totals (feedback_blocks : list FeedbackBlock) :
  total (get_summary feedback_blocks) = length feedback_blocks /\
  sum_counts (by_status (get_summary feedback_blocks)) = length feedback_blocks /\
  sum_counts (by_file (get_summary feedback_blocks)) = length feedback_blocks /\
  sum_counts (by_severity (get_summary feedback_blocks)) =
    length (List.filter (fun b => is_truthy (severity b)) feedback_blocks) /\
  sum_counts (by_reviewer (get_summary feedback_blocks)) =
    length (List.filter (fun b => is_truthy (reviewer b)) feedback_blocks) /\
  (forall d,
     In d [by_status (get_summary feedback_blocks);
           by_severity (get_summary feedback_blocks);
           by_file (get_summary feedback_blocks);
           by_reviewer (get_summary feedback_blocks)] ->
     forall k n, d !! k = Some n -> (0 < n)%nat).
Proof.
  unfold get_summary. rewrite fold_count_block. cbn [total by_status by_severity by_file by_reviewer].
  rewrite !tally_sum.
  assert (E0 : sum_counts ∅ = 0%nat) by reflexivity. rewrite E0.
  split; [reflexivity|].
  split; [rewrite filter_all by reflexivity; lia|].
  split; [rewrite filter_all by reflexivity; lia|].
  split; [unfold is_truthy; lia|].
  split; [unfold is_truthy; lia|].
  intros d Hd k n. 
  assert (Hempty : forall (k : str) (n : nat), (∅ : gmap str nat) !! k = Some n -> (0 < n)%nat)
    by (intros ? ?; rewrite lookup_empty; discriminate).
  destruct Hd as [<- | [<- | [<- | [<- | []]]]]; now apply tally_positive.
Qed.

Section FilterProperties.

Context {casing : Casing}.

Lemma is_str_truthy o s : s <> [] -> is_str (truthy o) s = is_str o s.
Proof.
  intros Hs. destruct o as [[|c x]|]; simpl; try reflexivity.
  destruct s; [congruence | reflexivity].
Qed.

Lemma contains_self p : contains p p = true.
Proof.
  apply contains_spec. exists [], []. now rewrite app_nil_r.
Qed.

(** X7. The summary agrees with the filters: for a non-empty status, or
    reviewer, the number of blocks that [filter_blocks] returns is the count
    that [get_summary] has for it (0 when it has none); for a non-empty
    severity it is the count for the severity in upper case; the count of a
    file is at most the number of blocks that the filter by file path
    returns, since that filter matches substrings. A criterion that is
    [None] or empty does not filter. *)
Theorem summary_agrees_with_filters (feedback_blocks : list FeedbackBlock) :
  (forall s, s <> [] ->
     length (filter_blocks feedback_blocks (Some s) None None None) =
     default 0%nat (by_status (get_summary feedback_blocks) !! s)) /\
  (forall s, s <> [] -> upper s <> [] ->
     length (filter_blocks feedback_blocks None (Some s) None None) =
     default 0%nat (by_severity (get_summary feedback_blocks) !! upper s)) /\
  (forall s, s <> [] ->
     length (filter_blocks feedback_blocks None None None (Some s)) =
     default 0%nat (by_reviewer (get_summary feedback_blocks) !! s)) /\
  (forall s, s <> [] ->
     (default 0%nat (by_file (get_summary feedback_blocks) !! s) <=
      length (filter_blocks feedback_blocks None None (Some s) None))%nat) /\
  filter_blocks feedback_blocks None None None None = feedback_blocks /\
  filter_blocks feedback_blocks (Some []) (Some []) (Some []) (Some [])
  = feedback_blocks.
Proof.
  unfold get_summary. rewrite fold_count_block.
  cbn [total by_status by_severity by_file by_reviewer].
  split; [|split; [|split; [|split; [|split; reflexivity]]]].
  - intros [|c s] Hs; [congruence|]. rewrite tally_lookup, lookup_empty.
    unfold filter_blocks, occurrences. simpl. lia.
  - intros [|c s] Hs Hu; [congruence|]. rewrite tally_lookup, lookup_empty.
    unfold filter_blocks, occurrences. cbn [truthy default].
    rewrite Nat.add_0_r. f_equal. apply filter_ext. intros b.
    now rewrite is_str_truthy.
  - intros [|c s] Hs; [congruence|]. rewrite tally_lookup, lookup_empty.
    unfold filter_blocks, occurrences. cbn [truthy default].
    rewrite Nat.add_0_r. f_equal. apply filter_ext. intros b.
    now rewrite is_str_truthy.
  - intros [|c s] Hs; [congruence|]. rewrite tally_lookup, lookup_empty.
    unfold filter_blocks, occurrences. cbn [truthy default].
    rewrite Nat.add_0_r. apply filter_length_mono. intros b. simpl.
    intros E. apply str_eqb_eq in E. rewrite E. apply contains_self.
Qed.

End FilterProperties.

(** *** The summary of a repository *)

Section RepositorySummary.

Context {tables : Tables}.

Lemma occurrences_app key k (a b : list FeedbackBlock) :
  occurrences key k (a ++ b)
  = (occurrences key k a + occurrences key k b)%nat.
Proof. unfold occurrences. now rewrite List.filter_app, length_app. Qed.

Lemma occurrences_of_file (fs : filesystem) (file f : str) :
  occurrences (fun b => Some (file_path b)) f (parse_file fs file)
  = if str_eqb file f then length (parse_file fs file) else 0%nat.
Proof.
  unfold occurrences, is_str.
  assert (H : forall b, In b (parse_file fs file) -> file_path b = file)
    by (intros b Hb; now apply parse_file_In in Hb).
  induction (parse_file fs file) as [|b bs IH]; simpl.
  - now destruct (str_eqb file f).
  - rewrite (H b) by now left.
    assert (IH' := IH (fun b' Hb' => H b' (or_intror Hb'))).
    destruct (str_eqb file f); simpl; now rewrite IH'.
Qed.

Lemma occurrences_elsewhere (fs : filesystem) (files : list str) (f : str) :
  ~ In f files ->
  occurrences (fun b => Some (file_path b)) f (flat_map (parse_file fs) files)
  = 0%nat.
Proof.
  induction files as [|file files IH]; intros Hnot; [reflexivity|].
  simpl. rewrite occurrences_app, occurrences_of_file, IH.
  - rewrite str_eqb_neq; [reflexivity|]. intros ->. apply Hnot. now left.
  - intros Hin. apply Hnot. now right.
Qed.

(** X20. The summary of a repository counts the blocks of each file. For
    files listed once each, the count that [get_summary] has under a file
    is the number of blocks that [parse_file] finds in it, the total is the
    sum of these numbers, and a file that was not scanned has no count. *)
Theorem summary_counts_blocks_per_file (fs : filesystem) (files : list str)
  (f : str) :
  List.NoDup files -> In f files ->
  default 0%nat (by_file (get_summary (parse_repository fs files)) !! f)
  = length (parse_file fs f) /\
  total (get_summary (parse_repository fs files))
  = list_sum (List.map (fun file => length (parse_file fs file)) files) /\
  (forall other, ~ In other files ->
     by_file (get_summary (parse_repository fs files)) !! other = None).
Proof.
  intros Hnd Hin. rewrite parse_repository_flat_map.
  unfold get_summary. rewrite fold_count_block.
  cbn [total by_file]. split; [|split].
  - rewrite tally_lookup, lookup_empty. cbn [default]. rewrite Nat.add_0_r.
    induction Hnd as [|file files Hfile Hnd IH]; [contradiction|].
    simpl. rewrite occurrences_app, occurrences_of_file.
    destruct Hin as [-> | Hin].
    + rewrite (occurrences_elsewhere fs files f Hfile).
      assert (E : str_eqb f f = true) by now apply str_eqb_eq.
      rewrite E. lia.
    + rewrite (IH Hin), str_eqb_neq; [reflexivity|].
      intros ->. contradiction.
  - clear. induction files as [|file files IH]; [reflexivity|].
    simpl. now rewrite length_app, IH.
  - intros other Hnot.
    destruct (tally _ _ _ !! other) as [n|] eqn:E; [|reflexivity].
    exfalso.
    assert (Hpos : (0 < n)%nat).
    { eapply tally_positive; [|exact E].
      intros k m. rewrite lookup_empty. discriminate. }
    pose proof (tally_lookup (fun b => Some (file_path b))
                  (flat_map (parse_file fs) files) other ∅) as Hl.
    rewrite E, lookup_empty, (occurrences_elsewhere fs files other Hnot) in Hl.
    simpl in Hl. lia.
Qed.

End RepositorySummary.

Lemma summary_counts_blocks_per_file_witness :
  (List.NoDup [sample_path] /\ In sample_path [sample_path]) /\
  default 0%nat
    (by_file (get_summary
                (parse_repository (tables := ascii_tables) sample_fs
                   [sample_path])) !! sample_path)
  = length (parse_file (tables := ascii_tables) sample_fs sample_path) /\
  total (get_summary
           (parse_repository (tables := ascii_tables) sample_fs [sample_path]))
  = list_sum
      (List.map (fun file => length (parse_file (tables := ascii_tables)
                                       sample_fs file)) [sample_path]) /\
  (forall other, ~ In other [sample_path] ->
     by_file (get_summary
                (parse_repository (tables := ascii_tables) sample_fs
                   [sample_path])) !! other = None).
Proof.
  assert (Hnd : List.NoDup [sample_path])
    by (constructor; [intros [] | constructor]).
  assert (Hin : In sample_path [sample_path]) by (now left).
  split; [split; [exact Hnd | exact Hin]|].
  exact (summary_counts_blocks_per_file (tables := ascii_tables) sample_fs
           [sample_path] sample_path Hnd Hin).
Defined.

(** *** The status groups *)

Section StatusGroups.

Context {casing : Casing}.

(** X21. The three status filters partition the blocks: filtering by
    ['open'], by ['responded'] and by ['resolved'] gives three lists that
    together hold every block exactly once, their lengths add up to the
    total of the summary, and a block that a status filter returns has that
    status. *)
Theorem status_filters_partition (feedback_blocks : list FeedbackBlock) :
  Permutation
    (filter_blocks feedback_blocks (Some (u "open")) None None None
     ++ filter_blocks feedback_blocks (Some (u "responded")) None None None
     ++ filter_blocks feedback_blocks (Some (u "resolved")) None None None)
    feedback_blocks /\
  (length (filter_blocks feedback_blocks (Some (u "open")) None None None)
   + length (filter_blocks feedback_blocks (Some (u "responded")) None None None)
   + length (filter_blocks feedback_blocks (Some (u "resolved")) None None None)
   = total (get_summary feedback_blocks))%nat /\
  (forall s b,
     In b (filter_blocks feedback_blocks (Some s) None None None) ->
     s <> [] -> status_name (status b) = s).
Proof.
  assert (Hperm :
    Permutation
      (filter_blocks feedback_blocks (Some (u "open")) None None None
       ++ filter_blocks feedback_blocks (Some (u "responded")) None None None
       ++ filter_blocks feedback_blocks (Some (u "resolved")) None None None)
      feedback_blocks).
  { unfold filter_blocks. cbn [truthy u].
    change (truthy (Some (u "open"))) with (Some (u "open")).
    change (truthy (Some (u "responded"))) with (Some (u "responded")).
    change (truthy (Some (u "resolved"))) with (Some (u "resolved")).
    cbv beta iota zeta.
    induction feedback_blocks as [|b bs IH]; [constructor|].
    cbn [List.filter]. destruct (status b).
    - change (str_eqb (status_name open) (u "open")) with true.
      change (str_eqb (status_name open) (u "responded")) with false.
      change (str_eqb (status_name open) (u "resolved")) with false.
      cbn [app]. now constructor.
    - change (str_eqb (status_name responded) (u "open")) with false.
      change (str_eqb (status_name responded) (u "responded")) with true.
      change (str_eqb (status_name responded) (u "resolved")) with false.
      apply Permutation_sym, Permutation_cons_app, Permutation_sym, IH.
    - change (str_eqb (status_name resolved) (u "open")) with false.
      change (str_eqb (status_name resolved) (u "responded")) with false.
      change (str_eqb (status_name resolved) (u "resolved")) with true.
      rewrite app_assoc.
      apply Permutation_sym, Permutation_cons_app, Permutation_sym.
      rewrite <- app_assoc. exact IH. }
  split; [exact Hperm|]. split.
  - apply Permutation_length in Hperm. rewrite !length_app in Hperm.
    unfold get_summary. rewrite fold_count_block. cbn [total]. lia.
  - intros s b Hin Hs. destruct s as [|c s]; [congruence|].
    unfold filter_blocks in Hin. cbn [truthy] in Hin.
    apply filter_In in Hin as [_ Hin]. now apply str_eqb_eq in Hin.
Qed.

End StatusGroups.

End FeedbackParserProofs.

(** ** The ingestion filter *)

Module SecurityFilterProofs.
Import PyStr PyStrFacts SecurityFilter.

(** *** Precedence of the rules *)

Section Precedence.

Context {matcher : Fnmatch}.

(** C2, as the code has it. A file whose relative path matches an
    allowlist pattern is included, whatever its size and whatever deny
    patterns it matches, unless the rule on symbolic links stops it: that
    rule comes first and excludes the file, allowlisted or not. *)
Theorem allowlisted_file_is_included (os : os_view) (self : filter)
  (file_path root relative_path : path) :
  relative_to file_path root = Some relative_path ->
  _matches_allowlist self (path_str relative_path) = true ->
  (symlink_rule os self file_path = false ->
   should_include_file os self file_path root = Ok true) /\
  (symlink_rule os self file_path = true ->
   should_include_file os self file_path root = Ok false).
Proof.
  intros Hrel Hallow. unfold should_include_file.
  split; intros Hlink; rewrite Hlink.
  - now rewrite Hrel, Hallow.
  - reflexivity.
Qed.

Lemma symlink_rule_without_links os self file_path :
  symlink_rule (without_links os) self file_path = false.
Proof. reflexivity. Qed.

Lemma walk_leaves steps : forall dir_rev,
  walk dir_rev steps = None -> In (u "..") steps.
Proof.
  induction steps as [|s steps IH]; intros dir_rev; simpl; [discriminate|].
  destruct (str_eqb s (u "..")) eqn:E.
  - intros _. left. now apply str_eqb_eq in E.
  - destruct (str_eqb s (u ".") || str_eqb s []); intros H; right;
      now apply IH in H.
Qed.

Lemma leaving_text_is_blocked link target :
  spec_target_inside_root link target = None ->
  isabs target = true \/ substring (u "..") target.
Proof.
  unfold spec_target_inside_root.
  destruct (isabs target); [now left | right].
  destruct (walk _ _) as [p|] eqn:E; [discriminate|].
  apply walk_leaves in E. now apply split_parts in E.
Qed.

(** C6, as the code has it. For a symbolic link, with the [symlinks]
    category enabled and checking: the file is excluded when its link text
    cannot be read, is an absolute path or contains [..], and so whenever
    the link text, followed from the directory of the link, leads outside
    the root; a link whose text has no [..] and leads to a place inside the
    root, without passing through another link, is not stopped by the rule
    and gets the decision of the same path as a plain file. *)
Theorem symlink_rule_reads_link_text (os : os_view) (self : filter)
  (file_path root : path) :
  islink os file_path = true ->
  symlinks_checked self = true ->
  (readlink os file_path = None ->
   should_include_file os self file_path root = Ok false) /\
  (forall text,
     readlink os file_path = Some text ->
     isabs text = true \/ substring (u "..") text ->
     should_include_file os self file_path root = Ok false) /\
  (forall link text,
     relative_to file_path root = Some link ->
     readlink os file_path = Some text ->
     spec_target_inside_root link text = None ->
     should_include_file os self file_path root = Ok false) /\
  (forall link text target,
     relative_to file_path root = Some link ->
     readlink os file_path = Some text ->
     ~ substring (u "..") text ->
     spec_target_inside_root link text = Some target ->
     meets_no_link os root target = true ->
     symlink_rule os self file_path = false /\
     should_include_file os self file_path root =
     should_include_file (without_links os) self file_path root).
Proof.
  intros Hlink Hchecked.
  assert (Hrule : symlink_rule os self file_path = link_text_blocked os file_path)
    by (unfold symlink_rule; now rewrite Hlink, Hchecked).
  assert (Hblocked : forall text,
            readlink os file_path = Some text ->
            isabs text = true \/ substring (u "..") text ->
            should_include_file os self file_path root = Ok false).
  { intros text Hr Hbad. unfold should_include_file.
    rewrite Hrule. unfold link_text_blocked. rewrite Hr.
    destruct Hbad as [Habs | Hdots]; [now rewrite Habs|].
    apply contains_substring in Hdots. now rewrite Hdots, orb_true_r. }
  split; [|split; [exact Hblocked | split]].
  - intros Hr. unfold should_include_file.
    rewrite Hrule. unfold link_text_blocked. now rewrite Hr.
  - intros link text _ Hr Hout. apply (Hblocked text Hr).
    now apply (leaving_text_is_blocked link).
  - intros link text target _ Hr Hdots Hin _.
    assert (Habs : isabs text = false).
    { unfold spec_target_inside_root in Hin.
      destruct (isabs text); [discriminate Hin | reflexivity]. }
    unfold should_include_file.
    rewrite Hrule, symlink_rule_without_links.
    unfold link_text_blocked. rewrite Hr, Habs.
    destruct (contains (u "..") text) eqn:E.
    + elim Hdots. now apply contains_substring.
    + split; reflexivity.
Qed.

End Precedence.

(** The rules after the allowlist, on files that are not allowlisted. *)
Example deny_rules_examples :
  should_include_file (matcher := wildcard_fnmatch) sample_os docs_filter
    (repo_root ++ [u "vendor"; u "lib.js"]) repo_root = Ok false /\
  should_include_file (matcher := wildcard_fnmatch) sample_os docs_filter
    (repo_root ++ [u "src"; u "lib.js"]) repo_root = Ok true /\
  should_include_file (matcher := wildcard_fnmatch) sample_os bare_filter
    (repo_root ++ [u "vendor"; u "manual.md"]) repo_root = Ok false /\
  should_include_file (matcher := wildcard_fnmatch) sample_os docs_filter
    [u "elsewhere"; u "lib.js"] repo_root = Raise ValueError.
Proof. repeat split; vm_compute; reflexivity. Qed.

(** [vendor/manual.md] is allowlisted by [*.md], exceeds the size ceiling
    and matches the deny pattern [vendor/*]: it is included. *)
Lemma allowlisted_file_is_included_witness :
  (relative_to big_doc repo_root = Some [u "vendor"; u "manual.md"] /\
   _matches_allowlist (matcher := wildcard_fnmatch) docs_filter
     (path_str [u "vendor"; u "manual.md"]) = true) /\
  (symlink_rule sample_os docs_filter big_doc = false /\
   large_binary_rule sample_os docs_filter big_doc = true /\
   existsb (category_rule (matcher := wildcard_fnmatch) (u "vendor/manual.md"))
     (global_filters docs_filter) = true) /\
  (symlink_rule sample_os docs_filter big_doc = false ->
   should_include_file (matcher := wildcard_fnmatch) sample_os docs_filter
     big_doc repo_root = Ok true) /\
  (symlink_rule sample_os docs_filter big_doc = true ->
   should_include_file (matcher := wildcard_fnmatch) sample_os docs_filter
     big_doc repo_root = Ok false).
Proof.
  split; [split; vm_compute; reflexivity|].
  split; [repeat split; vm_compute; reflexivity|].
  apply (allowlisted_file_is_included (matcher := wildcard_fnmatch) sample_os
           docs_filter big_doc repo_root [u "vendor"; u "manual.md"]);
    vm_compute; reflexivity.
Defined.

(** C2, as the claim has it, fails: [notes.md] matches the allowlist
    pattern [*.md] and is excluded, because it is a symbolic link to
    [/etc/passwd] and the rule on links comes before the allowlist. *)
Lemma allowlisted_symlink_is_excluded :
  relative_to passwd_link repo_root = Some [u "notes.md"] /\
  _matches_allowlist (matcher := wildcard_fnmatch) docs_filter (path_str [u "notes.md"])
  = true /\
  should_include_file (matcher := wildcard_fnmatch) sample_os docs_filter passwd_link
    repo_root = Ok false.
Proof. repeat split; vm_compute; reflexivity. Qed.

Lemma symlink_rule_reads_link_text_witness :
  (islink chain_os (repo_root ++ [u "z"]) = true /\
   symlinks_checked bare_filter = true) /\
  (readlink chain_os (repo_root ++ [u "z"]) = None ->
   should_include_file (matcher := wildcard_fnmatch) chain_os bare_filter
     (repo_root ++ [u "z"]) repo_root = Ok false) /\
  (forall text,
     readlink chain_os (repo_root ++ [u "z"]) = Some text ->
     isabs text = true \/ substring (u "..") text ->
     should_include_file (matcher := wildcard_fnmatch) chain_os bare_filter
       (repo_root ++ [u "z"]) repo_root = Ok false) /\
  (forall link text,
     relative_to (repo_root ++ [u "z"]) repo_root = Some link ->
     readlink chain_os (repo_root ++ [u "z"]) = Some text ->
     spec_target_inside_root link text = None ->
     should_include_file (matcher := wildcard_fnmatch) chain_os bare_filter
       (repo_root ++ [u "z"]) repo_root = Ok false) /\
  (forall link text target,
     relative_to (repo_root ++ [u "z"]) repo_root = Some link ->
     readlink chain_os (repo_root ++ [u "z"]) = Some text ->
     ~ substring (u "..") text ->
     spec_target_inside_root link text = Some target ->
     meets_no_link chain_os repo_root target = true ->
     symlink_rule chain_os bare_filter (repo_root ++ [u "z"]) = false /\
     should_include_file (matcher := wildcard_fnmatch) chain_os bare_filter
       (repo_root ++ [u "z"]) repo_root =
     should_include_file (matcher := wildcard_fnmatch) (without_links chain_os)
       bare_filter (repo_root ++ [u "z"]) repo_root).
Proof.
  split; [split; vm_compute; reflexivity|].
  apply (symlink_rule_reads_link_text (matcher := wildcard_fnmatch) chain_os
           bare_filter (repo_root ++ [u "z"]) repo_root);
    vm_compute; reflexivity.
Defined.

(** The link [z -> README.md] leads to a plain file inside the root: the
    last part of C6 applies to it, and it is included. *)
Example direct_link_inside_is_included :
  relative_to (repo_root ++ [u "z"]) repo_root = Some [u "z"] /\
  readlink chain_os (repo_root ++ [u "z"]) = Some (u "README.md") /\
  contains (u "..") (u "README.md") = false /\
  spec_target_inside_root [u "z"] (u "README.md") = Some [u "README.md"] /\
  meets_no_link chain_os repo_root [u "README.md"] = true /\
  should_include_file (matcher := wildcard_fnmatch) chain_os bare_filter
    (repo_root ++ [u "z"]) repo_root = Ok true.
Proof. repeat split; vm_compute; reflexivity. Qed.

(** A link that leaves the root through another link is outside what C6
    says of the rule: the text of [x -> y] is relative and has no [..], so
    the rule lets [x] pass although [y] leads to [/etc/passwd], against the
    comment [Check if symlink points outside repository] in the source. *)
Example chained_link_passes_the_rule :
  readlink chain_os (repo_root ++ [u "x"]) = Some (u "y") /\
  readlink chain_os (repo_root ++ [u "y"]) = Some (u "/etc/passwd") /\
  spec_target_inside_root [u "x"] (u "y") = Some [u "y"] /\
  meets_no_link chain_os repo_root [u "y"] = false /\
  should_include_file (matcher := wildcard_fnmatch) chain_os bare_filter
    (repo_root ++ [u "y"]) repo_root = Ok false /\
  should_include_file (matcher := wildcard_fnmatch) chain_os bare_filter
    (repo_root ++ [u "x"]) repo_root = Ok true.
Proof. repeat split; vm_compute; reflexivity. Qed.

(** C6, as the claim has it, fails: [docs/link.md] is a symbolic link to
    [../README.md], which is the file [README.md] inside the root, and it
    is excluded by a filter that has no other rule; the same path as a
    plain file is included. *)
Lemma link_inside_root_is_excluded :
  islink sample_os docs_link = true /\
  readlink sample_os docs_link = Some (u "../README.md") /\
  relative_to docs_link repo_root = Some [u "docs"; u "link.md"] /\
  spec_target_inside_root [u "docs"; u "link.md"] (u "../README.md")
  = Some [u "README.md"] /\
  symlinks_checked bare_filter = true /\
  should_include_file (matcher := wildcard_fnmatch) sample_os bare_filter docs_link
    repo_root = Ok false /\
  should_include_file (matcher := wildcard_fnmatch) (without_links sample_os)
    bare_filter docs_link repo_root = Ok true.
Proof. repeat split; vm_compute; reflexivity. Qed.

(** *** Errors, and the order of the configuration *)

Lemma relative_to_spec (repo_root file_path rel : path) :
  relative_to file_path repo_root = Some rel <-> file_path = repo_root ++ rel.
Proof.
  revert file_path. induction repo_root as [|r root IH]; intros file_path; simpl.
  - destruct file_path; simpl; split; congruence.
  - destruct file_path as [|f file']; simpl; [split; discriminate|].
    destruct (str_eqb r f) eqn:E.
    + apply str_eqb_eq in E as ->. rewrite IH.
      split; [now intros -> | now intros [= ->]].
    + split; [discriminate|]. intros [= -> _].
      assert (str_eqb r r = true) by now apply str_eqb_eq. congruence.
Qed.

Lemma relative_to_under (repo_root rel : path) :
  relative_to (repo_root ++ rel) repo_root = Some rel.
Proof. now apply relative_to_spec. Qed.

Lemma lookup_category_In key c (d : list (str * filter_config)) :
  List.NoDup (List.map fst d) ->
  (lookup_category key d = Some c <-> In (key, c) d).
Proof.
  induction d as [|[k c'] d IH]; simpl; intros Hnd.
  - split; [discriminate | contradiction].
  - inversion Hnd as [|? ? Hk Hnd']; subst.
    destruct (str_eqb k key) eqn:E.
    + apply str_eqb_eq in E as ->. split.
      * intros [= ->]. now left.
      * intros [[= ->] | Hin]; [reflexivity|].
        exfalso. apply Hk. apply in_map_iff. now exists (key, c).
    + rewrite (IH Hnd'). split; [now right|].
      intros [[= -> _] | Hin]; [|exact Hin].
      assert (str_eqb key key = true) by now apply str_eqb_eq. congruence.
Qed.

Lemma lookup_category_Permutation key (d d' : list (str * filter_config)) :
  List.NoDup (List.map fst d) -> Permutation d d' ->
  lookup_category key d = lookup_category key d'.
Proof.
  intros Hnd Hp.
  assert (Hnd' : List.NoDup (List.map fst d'))
    by (eapply Permutation_NoDup; [apply Permutation_map, Hp | exact Hnd]).
  destruct (lookup_category key d) as [c|] eqn:E.
  - apply (lookup_category_In _ _ _ Hnd) in E. symmetry.
    apply (lookup_category_In _ _ _ Hnd'). eapply Permutation_in; eauto.
  - destruct (lookup_category key d') as [c|] eqn:E'; [|reflexivity].
    apply (lookup_category_In _ _ _ Hnd') in E'.
    apply (Permutation_in _ (Permutation_sym Hp)) in E'.
    apply (lookup_category_In _ _ _ Hnd) in E'. congruence.
Qed.

Lemma existsb_permuted {A} (f : A -> bool) (l l' : list A) :
  Permutation l l' -> existsb f l = existsb f l'.
Proof.
  induction 1 as [|x l l' _ IH|x y l|l l' l'' _ IH1 _ IH2]; simpl.
  - reflexivity.
  - now rewrite IH.
  - destruct (f x), (f y); reflexivity.
  - congruence.
Qed.

Section Configuration.

Context {matcher : Fnmatch}.

(** X8. When [should_include_file] raises. For a path under the root it
    returns a boolean; for a path that is not under the root it raises
    [ValueError], except that a symbolic link stopped by the rule on links
    is answered [False] before the relative path is computed. *)
Theorem should_include_file_raises (os : os_view) (self : filter)
  (file_path root : path) :
  (forall rel, file_path = root ++ rel ->
     exists b, should_include_file os self file_path root = Ok b) /\
  (should_include_file os self file_path root = Raise ValueError <->
   symlink_rule os self file_path = false /\
   forall rel, file_path <> root ++ rel) /\
  (symlink_rule os self file_path = true ->
   should_include_file os self file_path root = Ok false).
Proof.
  unfold should_include_file. split; [|split].
  - intros rel ->. rewrite relative_to_under.
    destruct (symlink_rule os self (root ++ rel)); [now exists false|].
    destruct (_matches_allowlist self (path_str rel)); [now exists true|].
    destruct (large_binary_rule os self (root ++ rel)); [now exists false|].
    destruct (existsb _ _); eauto.
  - destruct (symlink_rule os self file_path).
    + split; [discriminate | intros [? _]; discriminate].
    + destruct (relative_to file_path root) as [rel|] eqn:E.
      * split.
        -- destruct (_matches_allowlist _ _); [discriminate|].
           destruct (large_binary_rule _ _ _); [discriminate|].
           destruct (existsb _ _); discriminate.
        -- intros [_ H]. apply relative_to_spec in E. now apply H in E.
      * split; [|reflexivity]. intros _. split; [reflexivity|].
        intros rel Hrel. apply relative_to_spec in Hrel. congruence.
  - now intros ->.
Qed.

(** X9. The decision does not depend on the order in which the
    configuration lists its categories, nor on the order of the allowlist:
    two filters whose categories (with distinct names, as the keys of a
    dictionary are) and allowlists are permutations of each other answer the
    same for every file. *)
Theorem decision_independent_of_order (os : os_view) (self other : filter)
  (file_path root : path) :
  List.NoDup (List.map fst (global_filters self)) ->
  Permutation (global_filters self) (global_filters other) ->
  Permutation (allowlist self) (allowlist other) ->
  should_include_file os self file_path root
  = should_include_file os other file_path root.
Proof.
  intros Hnd Hg Ha.
  unfold should_include_file, symlink_rule, symlinks_checked,
    large_binary_rule, _matches_allowlist.
  rewrite !(lookup_category_Permutation _ _ _ Hnd Hg).
  destruct (relative_to file_path root) as [rel|]; [|reflexivity].
  rewrite (existsb_permuted _ _ _ Ha).
  now rewrite (existsb_permuted _ _ _ Hg).
Qed.

End Configuration.

Lemma decision_independent_of_order_witness :
  List.NoDup (List.map fst (global_filters docs_filter)) /\
  Permutation (global_filters docs_filter)
    (global_filters docs_filter_reordered) /\
  Permutation (allowlist docs_filter) (allowlist docs_filter_reordered) /\
  should_include_file (matcher := wildcard_fnmatch) sample_os docs_filter
    big_doc repo_root
  = should_include_file (matcher := wildcard_fnmatch) sample_os
      docs_filter_reordered big_doc repo_root.
Proof.
  assert (Hnd : List.NoDup (List.map fst (global_filters docs_filter))).
  { repeat constructor; simpl; intuition discriminate. }
  assert (Hg : Permutation (global_filters docs_filter)
                 (global_filters docs_filter_reordered))
    by apply Permutation_rev.
  assert (Ha : Permutation (allowlist docs_filter)
                 (allowlist docs_filter_reordered))
    by apply Permutation_refl.
  split; [exact Hnd|]. split; [exact Hg|]. split; [exact Ha|].
  exact (decision_independent_of_order (matcher := wildcard_fnmatch) sample_os
           docs_filter docs_filter_reordered big_doc repo_root Hnd Hg Ha).
Defined.

(** *** Local overrides *)

Lemma update_category_keys name o d :
  List.map fst (update_category name o d) = List.map fst d.
Proof.
  induction d as [|[k c] d IH]; simpl; [reflexivity|].
  destruct (str_eqb k name); simpl; [reflexivity | now rewrite IH].
Qed.

Lemma update_category_lookup name o key d :
  lookup_category key (update_category name o d) =
  if str_eqb name key
  then option_map (fun c => update c o) (lookup_category key d)
  else lookup_category key d.
Proof.
  induction d as [|[k c] d IH]; simpl.
  - now destruct (str_eqb name key).
  - destruct (str_eqb k name) eqn:Ek; simpl.
    + apply str_eqb_eq in Ek as ->.
      destruct (str_eqb name key); reflexivity.
    + destruct (str_eqb k key) eqn:Ekey.
      * apply str_eqb_eq in Ekey as ->.
        destruct (str_eqb name key) eqn:E; [|reflexivity].
        apply str_eqb_eq in E as ->.
        assert (str_eqb key key = true) by now apply str_eqb_eq. congruence.
      * exact IH.
Qed.

Lemma merge_filters_keys items : forall d,
  List.map fst
    (fold_left (fun d (item : str * filter_config) =>
                  let (filter_name, filter_config) := item in
                  update_category filter_name filter_config d) items d)
  = List.map fst d.
Proof.
  induction items as [|[n o] items IH]; intros d; simpl; [reflexivity|].
  now rewrite IH, update_category_keys.
Qed.

Lemma merge_filters_lookup key items : forall d,
  lookup_category key
    (fold_left (fun d (item : str * filter_config) =>
                  let (filter_name, filter_config) := item in
                  update_category filter_name filter_config d) items d)
  = option_map
      (fold_left update
         (List.map snd
            (List.filter (fun item : str * filter_config =>
                            str_eqb (fst item) key) items)))
      (lookup_category key d).
Proof.
  induction items as [|[n o] items IH]; intros d; simpl.
  - now destruct (lookup_category key d).
  - rewrite IH, update_category_lookup.
    destruct (str_eqb n key); simpl; [|reflexivity].
    now destruct (lookup_category key d).
Qed.

(** X10. What [_merge_overrides] changes. The categories keep their names
    and their order and the allowlist is untouched; the configuration of a
    category becomes the one it had, updated by every override written for
    that category, under whichever repository name, in the order of the
    file; an override for a category that the global configuration does not
    have is dropped. *)
Theorem merge_overrides_updates_known_categories (self : filter)
  (local : local_config) :
  List.map fst (global_filters (_merge_overrides self local))
  = List.map fst (global_filters self) /\
  allowlist (_merge_overrides self local) = allowlist self /\
  (forall name,
     lookup_category name (global_filters (_merge_overrides self local))
     = option_map (fold_left update (overrides_of name local))
         (lookup_category name (global_filters self))) /\
  (repository_overrides local = None -> _merge_overrides self local = self).
Proof.
  unfold _merge_overrides, overrides_of. cbn [global_filters allowlist].
  split; [|split; [reflexivity|split]].
  - generalize (get_or (repository_overrides local) []) as repos.
    intros repos. generalize (global_filters self) as d.
    induction repos as [|[rn ro] repos IH]; intros d; simpl; [reflexivity|].
    now rewrite IH, merge_filters_keys.
  - intros name.
    generalize (get_or (repository_overrides local) []) as repos.
    intros repos. generalize (global_filters self) as d.
    induction repos as [|[rn ro] repos IH]; intros d; simpl.
    + now destruct (lookup_category name d).
    + rewrite IH, merge_filters_lookup, List.filter_app, List.map_app.
      destruct (lookup_category name d); simpl; [|reflexivity].
      now rewrite fold_left_app.
  - intros E. rewrite E. simpl. now destruct self.
Qed.

(** *** Copying a tree *)

Section CopyProperties.

Context {matcher : Fnmatch}.

Lemma is_included_cases os self file_path root :
  (should_include_file os self file_path root = Ok true /\
   is_included os self file_path root = true) \/
  (should_include_file os self file_path root = Ok false /\
   is_included os self file_path root = false) \/
  (exists e, should_include_file os self file_path root = Raise e).
Proof.
  unfold is_included.
  destruct (should_include_file os self file_path root) as [[|]|e]; eauto.
Qed.

Lemma copy_loop_spec os is_file self source_dir dest_dir verbose rels :
  forall stats_ done,
  exists stats' done',
    copy_loop os is_file self source_dir dest_dir verbose
      (List.map (app source_dir) rels) stats_ done = (Ok stats', done') /\
    included stats' =
      (included stats_ +
       length (List.filter
                 (fun rel => is_file (source_dir ++ rel)
                             && is_included os self (source_dir ++ rel) source_dir)
                 rels))%nat /\
    filtered stats' =
      (filtered stats_ +
       length (List.filter
                 (fun rel => is_file (source_dir ++ rel)
                             && negb (is_included os self (source_dir ++ rel)
                                        source_dir))
                 rels))%nat /\
    copies done' =
      copies done ++
      List.map (fun rel => (source_dir ++ rel, dest_dir ++ rel))
        (List.filter
           (fun rel => is_file (source_dir ++ rel)
                       && is_included os self (source_dir ++ rel) source_dir)
           rels) /\
    printed done' =
      printed done ++
      (if verbose then
         List.map (fun rel => u "  Filtered: " ++ path_str rel)
           (List.filter
              (fun rel => is_file (source_dir ++ rel)
                          && negb (is_included os self (source_dir ++ rel)
                                     source_dir))
              rels)
       else []).
Proof.
  induction rels as [|rel rels IH]; intros stats_ done; cbn.
  - exists stats_, done. rewrite !app_nil_r.
    repeat split; try lia. now destruct verbose; rewrite ?app_nil_r.
  - destruct (is_file (source_dir ++ rel)); cbn; [|apply IH].
    destruct (is_included_cases os self (source_dir ++ rel) source_dir)
      as [[E I] | [[E I] | [e E]]].
    + rewrite E, I, relative_to_under. cbn.
      destruct (IH {| included := S (included stats_);
                      filtered := filtered stats_ |}
                  (done ++ [Mkdir (removelast (dest_dir ++ rel));
                            Copy2 (source_dir ++ rel) (dest_dir ++ rel)]))
        as (s' & d' & -> & Hi & Hf & Hc & Hp).
      exists s', d'. cbn [included filtered] in Hi, Hf.
      unfold copies, printed in *. rewrite flat_map_app in Hc, Hp.
      cbn in Hc, Hp. rewrite app_nil_r in Hp. rewrite <- app_assoc in Hc.
      repeat split; [lia | lia | exact Hc | exact Hp].
    + rewrite E, I. cbn. destruct verbose.
      * rewrite relative_to_under.
        destruct (IH {| included := included stats_;
                        filtered := S (filtered stats_) |}
                    (done ++ [Print (u "  Filtered: " ++ path_str rel)]))
          as (s' & d' & -> & Hi & Hf & Hc & Hp).
        exists s', d'. cbn [included filtered] in Hi, Hf.
        unfold copies, printed in *. rewrite flat_map_app in Hc, Hp.
        cbn in Hc, Hp. rewrite app_nil_r in Hc. rewrite <- app_assoc in Hp.
        repeat split; [lia | lia | exact Hc | exact Hp].
      * destruct (IH {| included := included stats_;
                        filtered := S (filtered stats_) |} done)
          as (s' & d' & -> & Hi & Hf & Hc & Hp).
        exists s', d'. cbn [included filtered] in Hi, Hf.
        repeat split; [lia | lia | exact Hc | exact Hp].
    + exfalso.
      destruct (should_include_file_raises os self (source_dir ++ rel) source_dir)
        as (H & _). destruct (H rel eq_refl) as (b & Hb). congruence.
Qed.

Lemma filter_partition_length {A} (f g : A -> bool) (l : list A) :
  (length (List.filter (fun x => f x && g x) l)
   + length (List.filter (fun x => f x && negb (g x)) l)
   = length (List.filter f l))%nat.
Proof.
  induction l as [|x l IH]; simpl; [reflexivity|].
  destruct (f x), (g x); simpl; lia.
Qed.

(** X11. What [copy_filtered_files] copies. On the paths that [rglob]
    yields under the source directory, [mkdir] and [copy2] succeeding, it
    does not raise; the files it
    copies are the regular files that [should_include_file] accepts, each
    one once, in the order met, to the same relative path under the
    destination; [included] is their number and [included + filtered] is the
    number of regular files; no file stopped by the rule on symbolic links
    is copied; and nothing is printed unless [verbose] is set. *)
Theorem copy_filtered_files_copies_the_included (os : os_view)
  (is_file : path -> bool) (self : filter) (source_dir dest_dir : path)
  (verbose : bool) (rels : list path) :
  let out := copy_filtered_files os is_file self source_dir dest_dir verbose
               (List.map (app source_dir) rels) in
  let kept := List.filter
                (fun rel => is_file (source_dir ++ rel)
                            && is_included os self (source_dir ++ rel) source_dir)
                rels in
  exists stats_,
    fst out = Ok stats_ /\
    included stats_ = length kept /\
    (included stats_ + filtered stats_)%nat
    = length (List.filter is_file (List.map (app source_dir) rels)) /\
    copies (snd out)
    = List.map (fun rel => (source_dir ++ rel, dest_dir ++ rel)) kept /\
    Forall (fun c => symlink_rule os self (fst c) = false) (copies (snd out)) /\
    (verbose = false -> printed (snd out) = []).
Proof.
  intros out kept. subst out. unfold copy_filtered_files.
  destruct (copy_loop_spec os is_file self source_dir dest_dir verbose rels
              {| included := 0; filtered := 0 |} [])
    as (s' & d' & -> & Hi & Hf & Hc & Hp).
  exists s'. cbn [fst snd included filtered] in *. fold kept in Hi, Hc.
  cbn [copies printed flat_map app] in Hc, Hp.
  split; [reflexivity|]. split; [exact Hi|]. split.
  - rewrite Hi, Hf. cbn [Nat.add]. unfold kept.
    rewrite (filter_partition_length
               (fun rel => is_file (source_dir ++ rel))
               (fun rel => is_included os self (source_dir ++ rel) source_dir)).
    clear. induction rels as [|rel rels IH]; simpl; [reflexivity|].
    destruct (is_file (source_dir ++ rel)); simpl; now rewrite IH.
  - split; [exact Hc|]. split.
    + rewrite Hc. apply List.Forall_forall. intros [s d] Hin.
      apply in_map_iff in Hin as (rel & [= <- <-] & Hrel).
      apply filter_In in Hrel as (_ & Hrel).
      apply andb_true_iff in Hrel as (_ & Hrel). simpl.
      unfold is_included, should_include_file in Hrel.
      destruct (symlink_rule os self (source_dir ++ rel));
        [discriminate | reflexivity].
    + intros ->. exact Hp.
Qed.

End CopyProperties.

End SecurityFilterProofs.

(** ** The manifest *)

Module RepoIngestionProofs.
Import PyStr PyStrFacts RepoIngestion.

(** *** The manifest's keys *)

Lemma sanitize_allowed raw_name :
  Forall (fun c => allowed_char c = true) (sanitize raw_name).
Proof.
  induction raw_name as [|c raw IH]; simpl; constructor; [|exact IH].
  destruct (allowed_char c) eqn:E; [exact E | reflexivity].
Qed.

Lemma extract_sanitized url name :
  _extract_and_sanitize_repo_name url = Ok name -> sanitized_name name.
Proof.
  unfold _extract_and_sanitize_repo_name.
  destruct (contains (u "..") url); [discriminate|].
  set (raw_name := List.last (split _ _) []).
  destruct (str_eqb raw_name [] || _ || _) eqn:Eraw; [discriminate|].
  destruct (startswith _ _ || _ || _ || _); [discriminate|].
  intros [= <-]. split; [|apply sanitize_allowed].
  destruct raw_name; [discriminate Eraw | discriminate].
Qed.

Lemma extract_raises_ValueError url e :
  _extract_and_sanitize_repo_name url = Raise e -> e = ValueError.
Proof.
  unfold _extract_and_sanitize_repo_name.
  repeat match goal with |- context [if ?b then _ else _] => destruct b end;
    congruence.
Qed.

Lemma sanitized_name_lacks name : forall p c,
  sanitized_name name -> In c p -> allowed_char c = false ->
  ~ substring p name.
Proof.
  intros p c [_ Hall] Hc Hbad (a & b & ->).
  rewrite List.Forall_forall in Hall.
  assert (allowed_char c = true); [|congruence].
  apply Hall. apply in_or_app. right. apply in_or_app. now left.
Qed.

Lemma sanitized_name_no_traversal name :
  sanitized_name name ->
  ~ substring (u "/") name /\ ~ substring [92%N] name /\
  ~ substring (u "..") name.
Proof.
  intros H. repeat split.
  - apply (sanitized_name_lacks name _ 47%N H); [now left | reflexivity].
  - apply (sanitized_name_lacks name _ 92%N H); [now left | reflexivity].
  - apply (sanitized_name_lacks name _ 46%N H); [now left | reflexivity].
Qed.

(** *** The shape of an extracted name *)

Lemma allowed_lacks c name :
  Forall (fun c => allowed_char c = true) name -> allowed_char c = false ->
  mem_char c name = false.
Proof.
  intros Hall Hc. destruct (mem_char c name) eqn:E; [|reflexivity].
  apply mem_char_In in E. rewrite List.Forall_forall in Hall.
  apply Hall in E. congruence.
Qed.

Lemma sanitize_fixed name :
  Forall (fun c => allowed_char c = true) name -> sanitize name = name.
Proof.
  unfold sanitize. induction 1 as [|c name Hc _ IH]; simpl; [reflexivity|].
  now rewrite Hc, IH.
Qed.

Lemma sanitize_last raw_name r c :
  raw_name = r ++ [c] ->
  sanitize raw_name = sanitize r ++ [if allowed_char c then c else 45%N].
Proof. intros ->. unfold sanitize. now rewrite List.map_app. Qed.

Lemma extract_last url name :
  _extract_and_sanitize_repo_name url = Ok name ->
  exists r c, name = r ++ [c] /\ mem_char c (u ".git") = false.
Proof.
  unfold _extract_and_sanitize_repo_name.
  destruct (contains (u "..") url); [discriminate|].
  set (stripped := rstrip_chars (u ".git") (rstrip_chars (u "/") url)).
  set (raw_name := List.last (split 47%N stripped) []).
  destruct (str_eqb raw_name [] || _ || _) eqn:Eraw; [discriminate|].
  destruct (startswith _ _ || _ || _ || _); [discriminate|].
  intros [= <-].
  assert (Hraw : raw_name <> [])
    by (intros Hnil; rewrite Hnil in Eraw; discriminate Eraw).
  destruct (exists_last Hraw) as (r & c & Hr).
  destruct (split_last_suffix 47%N stripped) as (pre & E & _).
  fold raw_name in E. rewrite Hr, app_assoc in E.
  pose proof (rstrip_by_last _ _ _ _ E) as Hc.
  exists (sanitize r), (if allowed_char c then c else 45%N).
  split; [now apply sanitize_last|].
  destruct (allowed_char c); [exact Hc | reflexivity].
Qed.

Lemma contains_lacks p c name :
  Forall (fun c => allowed_char c = true) name -> In c p ->
  allowed_char c = false -> contains p name = false.
Proof.
  intros Hall Hin Hc. destruct (contains p name) eqn:E; [|reflexivity].
  apply contains_spec in E as (a & b & ->).
  rewrite List.Forall_forall in Hall.
  assert (allowed_char c = true); [|congruence].
  apply Hall. apply in_or_app. right. apply in_or_app. now left.
Qed.

(** X12. The shape of an extracted name. [rstrip('.git')] strips a set of
    characters, not a suffix, so the name that
    [_extract_and_sanitize_repo_name] returns never ends with [g], [i],
    [t] or a dot; and such a name, given as the URL, is extracted as
    itself. *)
Theorem extracted_name_shape (url name : str) :
  _extract_and_sanitize_repo_name url = Ok name ->
  (exists r c, name = r ++ [c] /\ ~ In c (u ".git")) /\
  _extract_and_sanitize_repo_name name = Ok name.
Proof.
  intros H.
  destruct (extract_last _ _ H) as (r & c & Hname & Hc).
  destruct (extract_sanitized _ _ H) as (Hne & Hall).
  split.
  - exists r, c. split; [exact Hname|]. intros Hin.
    apply mem_char_In in Hin. congruence.
  - assert (Hslash : mem_char 47%N name = false)
      by now apply allowed_lacks.
    assert (Hlastc : allowed_char c = true).
    { rewrite List.Forall_forall in Hall. apply Hall. rewrite Hname.
      apply in_or_app. right. now left. }
    unfold _extract_and_sanitize_repo_name.
    rewrite (contains_lacks _ 46%N name Hall) by (reflexivity || now left).
    assert (E1 : rstrip_chars (u "/") name = name).
    { apply rstrip_by_fixed. intros r' c' E. rewrite Hname in E.
      apply app_inj_tail in E as [_ <-].
      destruct (mem_char c (u "/")) eqn:Em; [|reflexivity].
      apply mem_char_In in Em as [<- | []]. discriminate Hlastc. }
    assert (E2 : rstrip_chars (u ".git") name = name).
    { apply rstrip_by_fixed. intros r' c' E. rewrite Hname in E.
      apply app_inj_tail in E as [_ <-]. exact Hc. }
    rewrite E1, E2, (split_without_separator _ _ Hslash).
    cbn [List.last].
    assert (Hdot : forall t, name <> 46%N :: t).
    { intros t ->. inversion Hall as [|? ? Hd _]. discriminate Hd. }
    rewrite (str_eqb_neq name []) by exact Hne.
    rewrite (str_eqb_neq name (u ".")) by apply Hdot.
    rewrite (str_eqb_neq name (u "..")) by apply Hdot.
    cbn [orb]. rewrite (sanitize_fixed _ Hall).
    assert (Es : startswith (u ".") name = false).
    { destruct (startswith (u ".") name) eqn:E; [|reflexivity].
      apply startswith_spec in E as (t & E). now apply Hdot in E. }
    rewrite Es, (contains_lacks _ 47%N name Hall) by (reflexivity || now left).
    rewrite (contains_lacks _ 92%N name Hall) by (reflexivity || now left).
    rewrite (str_eqb_neq name []) by exact Hne. reflexivity.
Qed.

Lemma extracted_name_shape_witness :
  _extract_and_sanitize_repo_name (u "https://github.com/user/digit")
  = Ok (u "d") /\
  (exists r c, u "d" = r ++ [c] /\ ~ In c (u ".git")) /\
  _extract_and_sanitize_repo_name (u "d") = Ok (u "d").
Proof.
  split; [reflexivity|].
  exact (extracted_name_shape (u "https://github.com/user/digit") (u "d")
           eq_refl).
Defined.

Example extract_examples :
  _extract_and_sanitize_repo_name (u "https://github.com/grumps/claude-dotfiles.git")
  = Ok (u "claude-dotfiles") /\
  _extract_and_sanitize_repo_name (u "git@github.com:org/repo") = Ok (u "repo") /\
  _extract_and_sanitize_repo_name (u "https://example.org/org/my repo!/")
  = Ok (u "my-repo-") /\
  _extract_and_sanitize_repo_name (u "https://example.org/../etc")
  = Raise ValueError /\
  _extract_and_sanitize_repo_name (u "https://example.org/org/git")
  = Raise ValueError /\
  _extract_and_sanitize_repo_name [] = Raise ValueError.
Proof. repeat split; reflexivity. Qed.

Example main_examples :
  fst (main (parser := simple_urlparse) (u "https://example.org/org/repo")
         (u "main") sample_env NoManifest) = 0 /\
  main (parser := simple_urlparse) (u "ftp://example.org/org/repo")
    (u "main") sample_env NoManifest = (2, NoManifest) /\
  main (parser := simple_urlparse) (u "https://example.org/../repo")
    (u "main") sample_env Unreadable = (2, Unreadable) /\
  main (parser := simple_urlparse) (u "https://example.org/org/repo")
    (u "main") sample_env Unreadable = (3, Unreadable).
Proof. repeat split; reflexivity. Qed.

(** Decode errors are [ValueError]s: a manifest that is not JSON ends the
    ingest with 2, one without ["repositories"] with 3, and a [.gitignore]
    that is not text ends it with 2 after the manifest was written. *)
Example decode_errors_exit_with_2 :
  main (parser := simple_urlparse) sample_url (u "main") sample_env Undecodable
  = (2, Undecodable) /\
  main (parser := simple_urlparse) sample_url (u "main") sample_env
    NoRepositories = (3, NoRepositories) /\
  fst (main (parser := simple_urlparse) sample_url (u "main")
         {| init_failure := None;
            steps_before_manifest := steps_before_manifest sample_env;
            current_timestamp := current_timestamp sample_env;
            closing_failure := Some DecodeError |} NoManifest) = 2 /\
  remove_main (u "repo") NoRepositories = (0, NoRepositories) /\
  remove_main (u "repo") Undecodable = (1, Undecodable).
Proof. repeat split; reflexivity. Qed.

Section Invariant.

Context {parser : Urlparse}.

Lemma init_name url version env self :
  init url version env = Ok self ->
  _extract_and_sanitize_repo_name url = Ok (repo_name self).
Proof.
  unfold init. destruct (_validate_url _); [|discriminate].
  destruct (_extract_and_sanitize_repo_name url); [|discriminate].
  destruct (init_failure env); [discriminate|].
  now intros [= <-].
Qed.

Lemma update_manifest_keeps self ci now mf mf' :
  sanitized_name (repo_name self) -> keys_sanitized mf ->
  _update_manifest self ci now mf = Ok mf' -> keys_sanitized mf'.
Proof.
  intros Hname Hmf. destruct mf; simpl; try discriminate; intros [= <-]; simpl.
  - apply map_Forall_insert_2; [exact Hname | apply map_Forall_empty].
  - apply map_Forall_insert_2; [exact Hname | exact Hmf].
Qed.

Lemma ingest_keeps self env mf :
  sanitized_name (repo_name self) -> keys_sanitized mf ->
  keys_sanitized (fst (ingest self env mf)).
Proof.
  intros Hname Hmf. unfold ingest.
  destruct (steps_before_manifest env) as [ci|]; [|exact Hmf].
  destruct (_update_manifest self ci _ mf) as [mf'|] eqn:E; [|exact Hmf].
  simpl. eapply update_manifest_keeps; eauto.
Qed.

Lemma main_keeps url version env mf :
  keys_sanitized mf -> keys_sanitized (snd (main url version env mf)).
Proof.
  intros Hmf. unfold main.
  destruct (init url version env) as [self|] eqn:E; [|exact Hmf].
  pose proof (ingest_keeps self env mf
                (extract_sanitized _ _ (init_name _ _ _ _ E)) Hmf) as H.
  destruct (ingest self env mf) as [mf' [[]|e]]; exact H.
Qed.

Lemma remove_main_keeps repo mf :
  keys_sanitized mf -> keys_sanitized (snd (remove_main repo mf)).
Proof.
  intros Hmf. destruct mf as [| | | |r]; simpl; auto.
  destruct (r !! repo); simpl; [|exact Hmf].
  now apply map_Forall_delete.
Qed.

Lemma run_operations_keep ops : forall mf,
  keys_sanitized mf -> keys_sanitized (run_operations ops mf).
Proof.
  induction ops as [|op ops IH]; intros mf Hmf; simpl; [exact Hmf|].
  apply IH. destruct op; simpl; [now apply main_keeps | now apply remove_main_keeps].
Qed.

(** C9. The name that [_extract_and_sanitize_repo_name] returns is not
    empty, is made of ASCII letters, digits, hyphens and underscores only,
    and has no [/], no backslash and no [..] in it. An ingest keeps the
    keys of the manifest such names, and so does every sequence of ingest
    and remove operations that starts without a manifest. When no name can
    be extracted from the URL, [main] ends with code 2 and the manifest is
    as it was; when [main] ends with code 0 the manifest has an entry under
    the sanitized name. *)
Theorem manifest_keys_are_sanitized (url version : str) (env : run_env)
  (mf : manifest_file) (ops : list operation) :
  (forall name, _extract_and_sanitize_repo_name url = Ok name ->
     sanitized_name name /\
     ~ substring (u "/") name /\ ~ substring [92%N] name /\
     ~ substring (u "..") name) /\
  (keys_sanitized mf ->
   keys_sanitized (snd (main url version env mf))) /\
  (forall repositories name e,
     run_operations ops NoManifest = Manifest repositories ->
     repositories !! name = Some e ->
     sanitized_name name /\
     ~ substring (u "/") name /\ ~ substring [92%N] name /\
     ~ substring (u "..") name) /\
  (forall e, _extract_and_sanitize_repo_name url = Raise e ->
     main url version env mf = (2, mf)) /\
  (fst (main url version env mf) = 0 ->
   exists name repositories e,
     _extract_and_sanitize_repo_name url = Ok name /\
     snd (main url version env mf) = Manifest repositories /\
     repositories !! name = Some e).
Proof.
  split; [|split; [|split; [|split]]].
  - intros name H. apply extract_sanitized in H.
    split; [exact H | now apply sanitized_name_no_traversal].
  - apply main_keeps.
  - intros r name e Hrun Hlook.
    pose proof (run_operations_keep ops NoManifest I) as H.
    rewrite Hrun in H. simpl in H. specialize (H name e Hlook).
    split; [exact H | now apply sanitized_name_no_traversal].
  - intros e He. unfold main, init.
    destruct (_validate_url url) as [v|e'] eqn:Ev.
    + rewrite He. now rewrite (extract_raises_ValueError _ _ He).
    + unfold _validate_url in Ev.
      destruct (urlparse_scheme url); [|injection Ev as <-; reflexivity].
      destruct (_ && _); [injection Ev as <-; reflexivity | discriminate].
  - unfold main.
    destruct (init url version env) as [self|e] eqn:E;
      [|destruct e; discriminate].
    pose proof (init_name _ _ _ _ E) as Hname.
    unfold ingest. destruct (steps_before_manifest env) as [ci|e];
      [|destruct e; discriminate].
    destruct mf as [| | | |r]; simpl; try discriminate.
    + destruct (closing_failure env) as [[]|]; try discriminate. intros _.
      eexists _, _, _. split; [exact Hname|]. split; [reflexivity|].
      apply lookup_insert_eq.
    + destruct (closing_failure env) as [[]|]; try discriminate. intros _.
      eexists _, _, _. split; [exact Hname|]. split; [reflexivity|].
      apply lookup_insert_eq.
Qed.

End Invariant.

(** *** Ingest, look up, remove *)

Section Manifest.

Context {parser : Urlparse}.






(** X14. The exit codes of an ingest. [main] ends with 0, 1, 2 or 3, and
    with 1 the manifest is as it was. A URL whose scheme is not empty and
    not one of http, https, git and ssh, or that [urlparse] refuses, ends
    it with 2 and the manifest untouched; so does, with 2 or 3 according to
    the failure, the rest of [__init__] (a filter configuration that does
    not load). A manifest that
    cannot be decoded, cannot be read or has no ["repositories"] never
    gives 0 and is left as it is: once the steps before it have succeeded
    the code is 2 for the first and 3 for the other two. The manifest, whose
    writing is taken to succeed, has changed only when the steps up to it
    succeeded, and then the code is 0, or 2 or 3 according to how updating
    [.gitignore] or the closing prints failed. *)
Theorem ingest_exit_codes (url version : str) (env : run_env)
  (mf : manifest_file) :
  In (fst (main url version env mf)) [0; 1; 2; 3] /\
  (fst (main url version env mf) = 1 -> snd (main url version env mf) = mf) /\
  (forall scheme,
     urlparse_scheme url = Some scheme ->
     ~ In scheme [[]; u "http"; u "https"; u "git"; u "ssh"] ->
     main url version env mf = (2, mf)) /\
  (urlparse_scheme url = None -> main url version env mf = (2, mf)) /\
  (forall name f,
     _validate_url url = Ok url ->
     _extract_and_sanitize_repo_name url = Ok name ->
     init_failure env = Some f ->
     main url version env mf = (exit_code (raised f), mf)) /\
  (mf = Undecodable \/ mf = Unreadable \/ mf = NoRepositories ->
   fst (main url version env mf) <> 0 /\
   snd (main url version env mf) = mf /\
   forall self ci,
     init url version env = Ok self -> steps_before_manifest env = Ok ci ->
     fst (main url version env mf)
     = match mf with Undecodable => 2 | _ => 3 end) /\
  (snd (main url version env mf) <> mf ->
   (exists ci, steps_before_manifest env = Ok ci) /\
   fst (main url version env mf)
   = match closing_failure env with
     | None => 0
     | Some f => exit_code (raised f)
     end).
Proof.
  split; [|split; [|split; [|split; [|split; [|split]]]]].
  - unfold main. destruct (init url version env) as [self|[]]; simpl; auto.
    destruct (ingest self env mf) as [mf' [[]|[]]]; simpl; auto 6.
  - unfold main. destruct (init url version env) as [self|e]; [|reflexivity].
    unfold ingest. destruct (steps_before_manifest env) as [ci|e];
      [|reflexivity].
    destruct (_update_manifest self ci _ mf) as [mf'|e]; [|reflexivity].
    destruct (closing_failure env) as [[]|]; simpl; intros E; discriminate E.
  - intros scheme Hs Hnot. unfold main, init, _validate_url. rewrite Hs.
    assert (E1 : str_eqb scheme [] = false)
      by (apply str_eqb_neq; intros ->; apply Hnot; now left).
    assert (E2 : existsb (str_eqb scheme) [u "http"; u "https"; u "git"; u "ssh"]
                 = false).
    { destruct (existsb _ _) eqn:E; [|reflexivity].
      apply existsb_exists in E as (x & Hx & E). apply str_eqb_eq in E as ->.
      exfalso. apply Hnot. now right. }
    now rewrite E1, E2.
  - intros Hs. unfold main, init, _validate_url. now rewrite Hs.
  - intros name f Hv Hn Hf. unfold main, init. now rewrite Hv, Hn, Hf.
  - intros Hmf. unfold main.
    destruct (init url version env) as [self|e] eqn:Ei.
    + unfold ingest. destruct (steps_before_manifest env) as [ci|e] eqn:Es.
      * destruct Hmf as [-> | [-> | ->]]; simpl;
          (split; [discriminate|]); (split; [reflexivity|]);
          intros ? ? _ _; reflexivity.
      * simpl. split; [destruct e; discriminate|]. split; [reflexivity|].
        intros ? ? _ H. discriminate H.
    + simpl. split; [destruct e; discriminate|]. split; [reflexivity|].
      intros ? ? H. discriminate H.
  - unfold main. destruct (init url version env) as [self|e];
      [|intros H; now contradiction H].
    unfold ingest. destruct (steps_before_manifest env) as [ci|e];
      [|intros H; now contradiction H].
    destruct (_update_manifest self ci _ mf) as [mf'|e];
      [|intros H; now contradiction H].
    intros _. split; [now exists ci|].
    now destruct (closing_failure env) as [[]|].
Qed.

End Manifest.

(** X15. What remove-ingested-repo.py leaves. After it, get-repo-url.py
    finds nothing under the name; the entries under the other names are as
    they were; removing a name that is not in the manifest changes nothing;
    and a second removal changes nothing more. *)
Theorem remove_then_lookup (repo : str) (mf : manifest_file) :
  get_repo_url_main repo (snd (remove_main repo mf)) = (1, None) /\
  (forall other, other <> repo ->
     get_repo_url_main other (snd (remove_main repo mf))
     = get_repo_url_main other mf) /\
  (repositories_of mf !! repo = None -> snd (remove_main repo mf) = mf) /\
  snd (remove_main repo (snd (remove_main repo mf))) = snd (remove_main repo mf).
Proof.
  destruct mf as [| | | |r]; simpl; try (repeat split; reflexivity).
  destruct (r !! repo) as [e|] eqn:E; simpl.
  - rewrite lookup_delete_eq. split; [reflexivity|]. split; [|split].
    + intros other Hne. now rewrite lookup_delete_ne by congruence.
    + discriminate.
    + reflexivity.
  - rewrite E. repeat split; reflexivity.
Qed.


(** *** [.gitignore] *)

Lemma lines_after_nonempty c s : lines_after false (c :: s) <> [].
Proof.
  simpl. destruct (c =? 10)%N; [discriminate|].
  destruct (c =? 13)%N; [discriminate|].
  destruct (lines_after false s); discriminate.
Qed.

Lemma lines_after_app t b : forall after_cr,
  lines_after after_cr ((t ++ [10%N]) ++ b)
  = lines_after after_cr (t ++ [10%N]) ++ lines_after false b.
Proof.
  induction t as [|c t IH]; intros after_cr.
  - simpl. now destruct after_cr.
  - cbn [app lines_after]. destruct (c =? 10)%N.
    + destruct after_cr; now rewrite IH.
    + destruct (c =? 13)%N; [now rewrite IH|].
      rewrite IH.
      destruct (lines_after false (t ++ [10%N])) as [|l ls] eqn:E;
        [|reflexivity].
      exfalso. destruct t;
        [simpl in E; discriminate E | exact (lines_after_nonempty _ _ E)].
Qed.

Lemma existing_lines_app text added :
  text = [] \/ (exists t, text = t ++ [10%N]) ->
  existing_lines (Some (text ++ added))
  = existing_lines (Some text) ++ existing_lines (Some added).
Proof.
  unfold existing_lines. intros [-> | (t & ->)]; [reflexivity|].
  now rewrite lines_after_app, List.map_app.
Qed.

Lemma existsb_In_str (s : str) (l : list str) :
  existsb (str_eqb s) l = true <-> In s l.
Proof.
  rewrite existsb_exists. split.
  - intros (x & Hx & E). apply str_eqb_eq in E. now subst.
  - intros H. exists s. split; [exact H | now apply str_eqb_eq].
Qed.

Lemma update_gitignore_with_newline (gitignore : option str) :
  match gitignore with
  | Some text => text = [] \/ exists t, text = t ++ [10%N]
  | None => True
  end ->
  (exists added,
     fst (_update_gitignore gitignore)
     = Some (match gitignore with Some text => text | None => [] end ++ added)) /\
  In context_entry (existing_lines (fst (_update_gitignore gitignore))) /\
  In manifest_exception (existing_lines (fst (_update_gitignore gitignore))) /\
  _update_gitignore (fst (_update_gitignore gitignore))
  = (fst (_update_gitignore gitignore), []).
Proof.
  intros Hshape.
  set (text := match gitignore with Some text => text | None => [] end).
  assert (Htext : text = [] \/ exists t, text = t ++ [10%N])
    by (destruct gitignore; [exact Hshape | now left]).
  assert (Hlines : forall x, existsb (str_eqb x) (existing_lines gitignore) = true ->
                             In x (existing_lines (Some text))).
  { intros x Hx. apply existsb_In_str in Hx. now destruct gitignore. }
  assert (Hsettled : forall g,
            In context_entry (existing_lines g) ->
            In manifest_exception (existing_lines g) ->
            _update_gitignore g = (g, [])).
  { intros g H1 H2. unfold _update_gitignore.
    apply existsb_In_str in H1. apply existsb_In_str in H2.
    now rewrite H1, H2. }
  assert (Hafter :
            (exists added,
               fst (_update_gitignore gitignore) = Some (text ++ added)) /\
            In context_entry (existing_lines (fst (_update_gitignore gitignore))) /\
            In manifest_exception
              (existing_lines (fst (_update_gitignore gitignore)))).
  { unfold _update_gitignore. fold text.
    destruct (existsb (str_eqb context_entry) (existing_lines gitignore))
      eqn:E1;
      destruct (existsb (str_eqb manifest_exception) (existing_lines gitignore))
        eqn:E2; cbn [negb orb fst]; fold text.
    - split; [|split]; try (now apply existsb_In_str).
      exists []. rewrite app_nil_r. destruct gitignore; [reflexivity|].
      simpl in E1. discriminate E1.
    - split; [eexists; reflexivity|].
      rewrite (existing_lines_app text _ Htext).
      split; apply in_or_app;
        [left; now apply Hlines | right; vm_compute; now left].
    - split; [eexists; reflexivity|].
      rewrite (existing_lines_app text _ Htext).
      split; apply in_or_app;
        [right; vm_compute; tauto | left; now apply Hlines].
    - split; [eexists; reflexivity|].
      rewrite (existing_lines_app text _ Htext).
      split; apply in_or_app; right; vm_compute; tauto. }
  destruct Hafter as (Hadd & H1 & H2).
  split; [exact Hadd|]. split; [exact H1|]. split; [exact H2|].
  now apply Hsettled.
Qed.

Lemma update_gitignore_appends (gitignore : option str) :
  exists added,
    fst (_update_gitignore gitignore)
    = Some (match gitignore with Some text => text | None => [] end ++ added).
Proof.
  unfold _update_gitignore.
  destruct (existsb (str_eqb context_entry) (existing_lines gitignore)) eqn:E1;
    destruct (existsb (str_eqb manifest_exception) (existing_lines gitignore));
    cbn [negb orb fst]; try (eexists; reflexivity).
  exists []. rewrite app_nil_r. destruct gitignore; [reflexivity|].
  simpl in E1. discriminate E1.
Qed.

(** X16. [_update_gitignore] never removes text from [.gitignore]: it
    appends, whatever the file holds, and a file that is absent is created.
    When the file is absent, empty or ends with a newline, both the entry
    for the context directory and the exception for the manifest are lines
    of the file afterwards, and a second call changes nothing and prints
    nothing. *)
Theorem update_gitignore_settles (gitignore : option str) :
  (exists added,
     fst (_update_gitignore gitignore)
     = Some (match gitignore with Some text => text | None => [] end ++ added)) /\
  (match gitignore with
   | Some text => text = [] \/ exists t, text = t ++ [10%N]
   | None => True
   end ->
   In context_entry (existing_lines (fst (_update_gitignore gitignore))) /\
   In manifest_exception (existing_lines (fst (_update_gitignore gitignore))) /\
   _update_gitignore (fst (_update_gitignore gitignore))
   = (fst (_update_gitignore gitignore), [])).
Proof.
  split; [apply update_gitignore_appends|].
  intros Hshape.
  now destruct (update_gitignore_with_newline gitignore Hshape) as (_ & H).
Qed.

Lemma update_gitignore_settles_witness :
  (u "node_modules/" ++ [10%N] = []
   \/ exists t, u "node_modules/" ++ [10%N] = t ++ [10%N]) /\
  (exists added,
     fst (_update_gitignore (Some (u "node_modules/" ++ [10%N])))
     = Some ((u "node_modules/" ++ [10%N]) ++ added)) /\
  In context_entry
    (existing_lines (fst (_update_gitignore (Some (u "node_modules/" ++ [10%N]))))) /\
  In manifest_exception
    (existing_lines (fst (_update_gitignore (Some (u "node_modules/" ++ [10%N]))))) /\
  _update_gitignore (fst (_update_gitignore (Some (u "node_modules/" ++ [10%N]))))
  = (fst (_update_gitignore (Some (u "node_modules/" ++ [10%N]))), []).
Proof.
  assert (H : u "node_modules/" ++ [10%N] = []
              \/ exists t, u "node_modules/" ++ [10%N] = t ++ [10%N])
    by (right; now exists (u "node_modules/")).
  split; [exact H|].
  split; [exact (proj1 (update_gitignore_settles
                          (Some (u "node_modules/" ++ [10%N]))))|].
  exact (proj2 (update_gitignore_settles (Some (u "node_modules/" ++ [10%N])))
           H).
Defined.

(** Without the newline at the end, the exception is glued to the last
    line. *)
Example update_gitignore_glues :
  fst (_update_gitignore (Some context_entry))
  = Some (context_entry ++ manifest_exception ++ [10%N]).
Proof. reflexivity. Qed.

End RepoIngestionProofs.

(** ** The worktree planner *)

Module PlanWorktreeProofs.
Import PyStr PyStrFacts PlanWorktree.

(** *** Setting up a worktree that is already there *)

Lemma nodes_under_directory w :
  well_formed w ->
  forall b a, a <> [] -> b <> [] -> nodes w (a ++ b) <> None ->
  nodes w a = Some Dir.
Proof.
  intros Hwf b. induction b as [|x b IH] using rev_ind; intros a Ha Hb Hn.
  - congruence.
  - rewrite app_assoc in Hn. apply Hwf in Hn.
    + destruct b as [|y b]; [now rewrite app_nil_r in Hn|].
      apply IH; auto; try discriminate; congruence.
    + destruct a; [congruence | discriminate].
Qed.

Lemma mkdir_walk_existing w :
  well_formed w ->
  forall todo done rest,
    rest <> [] -> nodes w (done ++ todo ++ rest) <> None ->
    mkdir_walk done todo w = (Ok tt, w).
Proof.
  intros Hwf todo. induction todo as [|part todo IH]; intros done rest Hr Hn; simpl.
  - reflexivity.
  - assert (E : done ++ (part :: todo) ++ rest = (done ++ [part]) ++ todo ++ rest)
      by (rewrite <- app_assoc; reflexivity).
    rewrite E in Hn.
    rewrite (nodes_under_directory w Hwf (todo ++ rest) (done ++ [part])); auto.
    + eapply IH; eauto.
    + destruct done; discriminate.
    + destruct todo; [exact Hr | discriminate].
Qed.

Lemma mkdir_parent_of_existing w p :
  well_formed w -> exists_in w p = true ->
  mkdir (parent p) w = (Ok tt, w, [Mkdir (parent p)]).
Proof.
  intros Hwf Hex. unfold mkdir, parent.
  destruct p as [|x p]; [reflexivity|].
  assert (Hne : x :: p <> []) by discriminate.
  rewrite (mkdir_walk_existing w Hwf (removelast (x :: p)) []
             [List.last (x :: p) []]); [reflexivity | discriminate |].
  rewrite app_nil_l, <- app_removelast_last by exact Hne.
  unfold exists_in in Hex. destruct (nodes w (x :: p)); [discriminate | discriminate Hex].
Qed.

Section Idempotence.

Context {env : Environment}.

(** C8. When the stage's worktree path exists, [create_worktree] returns
    [True] and leaves the file system as it was; it prints the warning that
    the worktree already exists, writes nothing to standard error, runs no
    subprocess (no [git worktree add], no branch) and makes no symbolic
    link; its only call on the file system is the [mkdir] of the parent
    directory, which is there already. *)
Theorem existing_worktree_is_left_alone (plan_file : path) (stage : Stage)
  (metadata : PlanMetadata) (w : world) :
  well_formed w ->
  exists_in w (expanduser (worktree_path stage)) = true ->
  exists events,
    create_worktree plan_file stage metadata w = (Ok true, w, events) /\
    In (Stdout ((YELLOW
                 ++ (u "Worktree already exists at "
                     ++ path_text (expanduser (worktree_path stage)) ++ [10%N])
                 ++ NC) ++ [10%N])) events /\
    Forall (fun e =>
              match e with
              | Stdout _ => True
              | Mkdir p => p = parent (expanduser (worktree_path stage))
              | Stderr _ | Subprocess _ | SymlinkTo _ _ => False
              end) events.
Proof.
  intros Hwf Hex.
  pose proof (mkdir_parent_of_existing w _ Hwf Hex) as Hmk.
  unfold create_worktree, bind, print_warning, print, emit, path_exists, ret.
  destruct (depends_on stage) as [[|d ds]|]; cbn beta iota; rewrite Hmk, Hex;
    eexists; (split; [reflexivity|]); cbn [app];
    (split; [repeat (first [left; reflexivity | right]) |]);
    repeat constructor.
Qed.

End Idempotence.

Lemma path_eqb_eq (a b : path) : path_eqb a b = true <-> a = b.
Proof.
  unfold path_eqb. revert b.
  induction a as [|x a IH]; intros [|y b]; simpl;
    try (split; [discriminate | intros [=]]); [tauto|].
  specialize (IH b). rewrite andb_true_iff in IH.
  rewrite !andb_true_iff, Nat.eqb_eq, str_eqb_eq. rewrite Nat.eqb_eq in IH.
  split.
  - intros (Hlen & -> & Hall). f_equal. apply IH. split; [lia | exact Hall].
  - intros [= -> ->]. split; [reflexivity|]. split; [reflexivity|].
    now apply IH.
Qed.

Lemma sample_world_well_formed : well_formed sample_world.
Proof.
  intros p part Hp Hn. simpl in *.
  destruct (path_eqb (p ++ [part]) [u ".."] || _ || _) eqn:E; [|congruence].
  repeat (apply orb_true_iff in E as [E | E]);
    apply path_eqb_eq in E; apply (f_equal (@removelast str)) in E;
    rewrite removelast_last in E; subst p;
    [now elim Hp | reflexivity | reflexivity].
Qed.

(** Without the worktree directory the same call goes on to [git]: here
    [git] fails, so the call returns [False] after two subprocesses and a
    message on standard error. *)
Example missing_worktree_runs_git :
  let w := set_node sample_world [u ".."; u "wt"; u "parser"] None in
  let '(r, w', events) :=
    create_worktree (env := sample_environment) [u "plans"; u "plan.md"]
      sample_stage sample_metadata w in
  r = Ok false /\
  List.filter (fun e => match e with Subprocess _ => true | _ => false end)
    events
  = [ Subprocess [u "git"; u "show-ref"; u "--verify";
                  u "refs/heads/feature/parser"];
      Subprocess [u "git"; u "worktree"; u "add"; u "-b"; u "feature/parser";
                  u "../wt/parser"] ] /\
  List.length
    (List.filter (fun e => match e with Stderr _ => true | _ => false end)
       events) = 2%nat.
Proof. vm_compute. repeat split. Qed.

Lemma existing_worktree_is_left_alone_witness :
  (well_formed sample_world /\
   exists_in sample_world (sample_expanduser (worktree_path sample_stage))
   = true) /\
  exists events,
    create_worktree (env := sample_environment)
      [u "plans"; u "plan.md"] sample_stage sample_metadata sample_world
    = (Ok true, sample_world, events) /\
    In (Stdout ((YELLOW
                 ++ (u "Worktree already exists at "
                     ++ join (u "/")
                          (sample_expanduser (worktree_path sample_stage))
                     ++ [10%N])
                 ++ NC) ++ [10%N])) events /\
    Forall (fun e =>
              match e with
              | Stdout _ => True
              | Mkdir p =>
                  p = parent (sample_expanduser (worktree_path sample_stage))
              | Stderr _ | Subprocess _ | SymlinkTo _ _ => False
              end) events.
Proof.
  assert (H : exists_in sample_world
                (sample_expanduser (worktree_path sample_stage)) = true)
    by (vm_compute; reflexivity).
  split; [split; [exact sample_world_well_formed | exact H]|].
  exact (existing_worktree_is_left_alone (env := sample_environment)
           [u "plans"; u "plan.md"] sample_stage sample_metadata sample_world
           sample_world_well_formed H).
Defined.

(** *** Tables *)

Lemma le_widths_refl (ws : list nat) : Forall2 le ws ws.
Proof. induction ws; constructor; auto. Qed.

Lemma le_widths_trans (a b c : list nat) :
  Forall2 le a b -> Forall2 le b c -> Forall2 le a c.
Proof.
  intros H. revert c. induction H as [|x y a b Hxy _ IH]; intros c Hc;
    inversion Hc; subst; constructor; [lia | auto].
Qed.

Lemma le_widths_insert (ws : list nat) i w v :
  ws !! i = Some w -> (w <= v)%nat -> Forall2 le ws (<[i := v]> ws).
Proof.
  revert i. induction ws as [|x ws IH]; intros [|i] H Hv; simpl in *;
    try discriminate.
  - injection H as ->. constructor; [exact Hv | apply le_widths_refl].
  - constructor; [lia | now apply IH].
Qed.

Lemma le_widths_lookup (a b : list nat) i w :
  Forall2 le a b -> a !! i = Some w ->
  exists w', b !! i = Some w' /\ (w <= w')%nat.
Proof.
  intros H. revert i. induction H as [|x y a b Hxy _ IH]; intros [|i] Hi;
    simpl in *; try discriminate.
  - injection Hi as ->. eauto.
  - now apply IH.
Qed.

Lemma le_widths_length (a b : list nat) : Forall2 le a b -> length b = length a.
Proof. induction 1; simpl; congruence. Qed.

Lemma widen_row_Some ws row : forall i,
  (i + length row <= length ws)%nat ->
  exists ws',
    widen_row ws i row = Some ws' /\ Forall2 le ws ws' /\
    forall k cell, row !! k = Some cell ->
      exists w', ws' !! (i + k)%nat = Some w' /\ (length cell <= w')%nat.
Proof.
  revert ws. induction row as [|cell row IH]; intros ws i Hlen; simpl in *.
  - exists ws. split; [reflexivity|]. split; [apply le_widths_refl|].
    intros k c H. destruct k; discriminate H.
  - unfold widen.
    destruct (ws !! i) as [w|] eqn:Ew;
      [|apply lookup_ge_None in Ew; lia].
    set (ws1 := <[i := Nat.max w (length cell)]> ws).
    assert (H1 : Forall2 le ws ws1)
      by (apply (le_widths_insert ws i w); [exact Ew | lia]).
    destruct (IH ws1 (S i)) as (ws' & E & H2 & Hcov).
    { unfold ws1. rewrite length_insert. lia. }
    exists ws'. split; [exact E|].
    split; [now apply (le_widths_trans _ ws1)|].
    intros [|k] c Hc; simpl in Hc.
    + injection Hc as ->. rewrite Nat.add_0_r.
      assert (E1 : ws1 !! i = Some (Nat.max w (length c))).
      { unfold ws1. apply list_lookup_insert_eq.
        now apply lookup_lt_Some in Ew. }
      destruct (le_widths_lookup _ _ _ _ H2 E1) as (w' & Hw' & Hle).
      exists w'. split; [exact Hw' | lia].
    + replace (i + S k)%nat with (S i + k)%nat by lia. now apply Hcov.
Qed.

Lemma widen_row_None ws row : forall i,
  (i <= length ws)%nat -> (length ws < i + length row)%nat ->
  widen_row ws i row = None.
Proof.
  revert ws. induction row as [|cell row IH]; intros ws i Hi Hlen;
    simpl in *; [lia|].
  unfold widen. destruct (ws !! i) as [w|] eqn:Ew; [|reflexivity].
  apply lookup_lt_Some in Ew.
  apply IH; rewrite length_insert; lia.
Qed.

Lemma widen_rows_Some rows : forall ws,
  Forall (fun row => (length row <= length ws)%nat) rows ->
  exists ws',
    widen_rows ws rows = Some ws' /\ Forall2 le ws ws' /\
    Forall (fun row => forall k cell, row !! k = Some cell ->
              exists w', ws' !! k = Some w' /\ (length cell <= w')%nat) rows.
Proof.
  induction rows as [|row rows IH]; intros ws Hall; simpl.
  - exists ws. split; [reflexivity|]. split; [apply le_widths_refl | constructor].
  - inversion Hall as [|? ? Hrow Hrows]; subst.
    destruct (widen_row_Some ws row 0%nat) as (ws1 & -> & H1 & Hcov);
      [simpl; lia|].
    pose proof (le_widths_length _ _ H1) as Hl1.
    destruct (IH ws1) as (ws' & -> & H2 & Hcovs).
    { eapply List.Forall_impl; [|exact Hrows]. simpl. intros r Hr. lia. }
    exists ws'. split; [reflexivity|].
    split; [now apply (le_widths_trans _ ws1)|].
    constructor; [|exact Hcovs].
    intros k cell Hc. destruct (Hcov k cell Hc) as (w1 & Hw1 & Hle1).
    simpl in Hw1.
    destruct (le_widths_lookup _ _ _ _ H2 Hw1) as (w' & Hw' & Hle).
    exists w'. split; [exact Hw' | lia].
Qed.

Lemma widen_rows_None rows : forall ws,
  Exists (fun row => (length ws < length row)%nat) rows ->
  widen_rows ws rows = None.
Proof.
  induction rows as [|row rows IH]; intros ws Hex; simpl;
    [inversion Hex|].
  destruct (le_lt_dec (length row) (length ws)) as [Hle | Hlt].
  - destruct (widen_row_Some ws row 0%nat) as (ws1 & -> & H1 & _);
      [simpl; lia|].
    apply IH. rewrite (le_widths_length _ _ H1).
    inversion Hex as [? ? Hrow | ? ? Hrows]; subst; [lia | exact Hrows].
  - rewrite (widen_row_None ws row 0%nat); [reflexivity | lia | simpl; lia].
Qed.

Lemma join_length sep parts :
  length (join sep parts)
  = (list_sum (List.map (@length char) parts)
     + length sep * (length parts - 1))%nat.
Proof.
  induction parts as [|p parts IH]; [simpl; lia|].
  destruct parts as [|q parts];
    [simpl; rewrite Nat.mul_0_r, !Nat.add_0_r; reflexivity|].
  change (join sep (p :: q :: parts)) with (p ++ sep ++ join sep (q :: parts)).
  rewrite !length_app, IH. simpl. rewrite Nat.sub_0_r, Nat.mul_succ_r.
  unfold str, char in *. lia.
Qed.

Lemma ljust_length w cell :
  (length cell <= w)%nat -> length (ljust w cell) = w.
Proof.
  intros H. unfold ljust. rewrite length_app, repeat_length. lia.
Qed.

Lemma padded_lengths cells : forall pre ws,
  Forall2 (fun (cell : str) w => (length cell <= w)%nat) cells ws ->
  List.map (@length char) (padded (pre ++ ws) (length pre) cells) = ws.
Proof.
  induction cells as [|cell cells IH]; intros pre ws H; inversion H; subst;
    [reflexivity|].
  cbn [padded List.map]. rewrite list_lookup_middle by reflexivity.
  cbn [default]. rewrite ljust_length by assumption. f_equal.
  match goal with
  | |- context [padded (pre ++ ?w :: ?ws') _ _] =>
      replace (pre ++ w :: ws') with ((pre ++ [w]) ++ ws')
        by (now rewrite <- app_assoc);
      replace (S (length pre)) with (length (pre ++ [w]))
        by (rewrite length_app; simpl; lia)
  end.
  now apply IH.
Qed.

Lemma headers_fit headers : forall ws,
  Forall2 le (List.map (@length char) headers) ws ->
  Forall2 (fun (cell : str) w => (length cell <= w)%nat) headers ws.
Proof.
  induction headers as [|h headers IH]; intros ws H; inversion H; subst;
    constructor; auto.
Qed.

Lemma cells_line_length ws cells :
  cells <> [] ->
  Forall2 (fun (cell : str) w => (length cell <= w)%nat) cells ws ->
  length (cells_line ws cells) = (list_sum ws + 3 * length ws + 1)%nat.
Proof.
  intros Hne H. unfold cells_line.
  assert (Ep : List.map (@length char) (padded ws 0 cells) = ws)
    by exact (padded_lengths cells [] ws H).
  assert (El : length (padded ws 0 cells) = length ws)
    by (rewrite <- Ep at 2; now rewrite length_map).
  rewrite !length_app, join_length, Ep, El.
  assert (length ws <> 0%nat).
  { inversion H; subst; [congruence | discriminate]. }
  change (length (u "| ")) with 2%nat. change (length (u " | ")) with 3%nat.
  change (length (u " |")) with 2%nat. lia.
Qed.

Lemma sep_line_length ws :
  ws <> [] -> length (sep_line ws) = (list_sum ws + 3 * length ws + 1)%nat.
Proof.
  intros Hne. unfold sep_line. rewrite !length_app, join_length.
  rewrite List.map_map, length_map.
  assert (E : list_sum (List.map (fun w => length (repeat 45%N (w + 2))) ws)
              = (list_sum ws + 2 * length ws)%nat).
  { clear Hne. induction ws as [|w ws IH]; simpl; [reflexivity|].
    rewrite repeat_length. simpl in IH. rewrite IH. lia. }
  unfold str, char in *. rewrite E. destruct ws; [congruence|].
  change (length (u "+")) with 1%nat. simpl length. lia.
Qed.

(** X17. [print_table] raises [IndexError], before it prints anything,
    exactly when a row has more cells than there are headers. With at least
    one header and rows of as many cells as there are headers it prints the
    rows between three separator lines and the header line, and all these
    lines have the same length. *)
Theorem table_is_rectangular (headers : list str) (rows : list (list str)) :
  (print_table headers rows = None <->
   Exists (fun row => (length headers < length row)%nat) rows) /\
  (headers <> [] ->
   Forall (fun row => length row = length headers) rows ->
   exists lines width,
     print_table headers rows = Some lines /\
     length lines = (length rows + 4)%nat /\
     Forall (fun line => length line = width) lines).
Proof.
  unfold print_table. split.
  - split.
    + intros Hnone.
      destruct (List.Exists_dec
                  (fun row : list str => (length headers < length row)%nat) rows
                  (fun row => lt_dec (length headers) (length row)))
        as [Hex | Hnot]; [exact Hex|].
      exfalso. apply Forall_Exists_neg in Hnot.
      destruct (widen_rows_Some rows (List.map (@length char) headers))
        as (ws' & E & _).
      { eapply List.Forall_impl; [|exact Hnot]. simpl. intros r Hr.
        rewrite length_map. unfold str, char in *. lia. }
      rewrite E in Hnone. discriminate Hnone.
    + intros Hex. rewrite widen_rows_None; [reflexivity|].
      now rewrite length_map.
  - intros Hne Hrows.
    destruct (widen_rows_Some rows (List.map (@length char) headers))
      as (ws' & -> & Hle & Hcov).
    { eapply List.Forall_impl; [|exact Hrows]. simpl. intros r Hr.
      rewrite length_map. unfold str, char in *. lia. }
    pose proof (le_widths_length _ _ Hle) as Hlen. rewrite length_map in Hlen.
    assert (Hws : ws' <> []) by (destruct ws', headers; simpl in *; congruence).
    eexists _, (list_sum ws' + 3 * length ws' + 1)%nat.
    split; [reflexivity|]. split.
    + rewrite !length_app, length_map. simpl. lia.
    + repeat (apply Forall_cons_2 || apply Forall_app_2);
        try (now apply sep_line_length);
        [now apply cells_line_length, headers_fit | | apply Forall_nil_2].
      apply List.Forall_forall. intros line Hin.
      apply in_map_iff in Hin as (row & <- & Hrow).
      rewrite List.Forall_forall in Hrows, Hcov.
      apply cells_line_length.
      * intros ->. specialize (Hrows _ Hrow). simpl in Hrows.
        destruct headers; [congruence | discriminate].
      * apply Forall2_same_length_lookup_2;
          [rewrite (Hrows _ Hrow); unfold str, char in *; lia|].
        intros k cell w Hc Hw. destruct (Hcov _ Hrow k cell Hc) as (w' & E & Hl).
        congruence.
Qed.

(** *** Setting up every stage *)

Section SetupAll.

Context {env : Environment}.

Lemma create_worktree_existing (plan_file : path) (stage : Stage)
  (metadata : PlanMetadata) (w : world) :
  well_formed w ->
  exists_in w (expanduser (worktree_path stage)) = true ->
  exists events,
    create_worktree plan_file stage metadata w = (Ok true, w, events) /\
    subprocesses events = [] /\ symlinks events = [] /\ stderr events = [].
Proof.
  intros Hwf Hex.
  pose proof (mkdir_parent_of_existing w _ Hwf Hex) as Hmk.
  unfold create_worktree, bind, print_warning, print, emit, path_exists, ret.
  destruct (depends_on stage) as [[|d ds]|]; cbn beta iota; rewrite Hmk, Hex;
    eexists; (split; [reflexivity|]); repeat split.
Qed.

Lemma setup_all_loop_existing (plan_file : path) (metadata : PlanMetadata)
  (w : world) (todo : list Stage) :
  well_formed w ->
  Forall (fun stage => exists_in w (expanduser (worktree_path stage)) = true)
    todo ->
  forall failures, exists events,
    setup_all_loop plan_file metadata todo failures w
    = (Ok failures, w, events) /\
    subprocesses events = [] /\ symlinks events = [] /\ stderr events = [].
Proof.
  intros Hwf Hall. induction Hall as [|stage todo Hex _ IH]; intros failures.
  - exists []. repeat split.
  - destruct (create_worktree_existing plan_file stage metadata w Hwf Hex)
      as (ev1 & E1 & S1 & L1 & R1).
    destruct (IH failures) as (ev2 & E2 & S2 & L2 & R2).
    exists (ev1 ++ ev2). cbn [setup_all_loop]. unfold bind at 1.
    rewrite E1, E2. split; [reflexivity|].
    unfold subprocesses, symlinks, stderr in *.
    rewrite !flat_map_app, S1, S2, L1, L2, R1, R2. repeat split.
Qed.

(** X18. [setup_all] can be run again. When the worktree path of every
    stage exists it ends with code 0 and leaves the file system as it was;
    it runs no subprocess, makes no symbolic link and writes nothing to
    standard error, and its last line says that all worktrees were
    created. *)
Theorem setup_all_on_existing_worktrees (plan_file : path)
  (metadata : PlanMetadata) (w : world) :
  well_formed w ->
  Forall (fun stage => exists_in w (expanduser (worktree_path stage)) = true)
    (stages metadata) ->
  exists events,
    setup_all plan_file (Some metadata) w = (Ok 0, w, events) /\
    subprocesses events = [] /\ symlinks events = [] /\ stderr events = [] /\
    List.last events (Stdout [])
    = Stdout ((GREEN ++ (BOLD ++ u "All worktrees created successfully!" ++ NC
                         ++ [10%N]) ++ NC) ++ [10%N]).
Proof.
  intros Hwf Hall.
  destruct (setup_all_loop_existing plan_file metadata w (stages metadata)
              Hwf Hall []) as (ev & E & S1 & L1 & R1).
  unfold setup_all, bind, print_info, print_success, print, emit, ret.
  rewrite E. eexists. split; [reflexivity|].
  unfold subprocesses, symlinks, stderr in *.
  cbn [flat_map app]. rewrite !flat_map_app, S1, L1, R1.
  repeat split. cbn [flat_map app].
  now rewrite app_comm_cons, last_last.
Qed.

End SetupAll.

Lemma setup_all_on_existing_worktrees_witness :
  (well_formed sample_world /\
   Forall (fun stage =>
             exists_in sample_world (sample_expanduser (worktree_path stage))
             = true) (stages single_stage_metadata)) /\
  exists events,
    setup_all (env := sample_environment) [u "plans"; u "plan.md"]
      (Some single_stage_metadata) sample_world = (Ok 0, sample_world, events) /\
    subprocesses events = [] /\ symlinks events = [] /\ stderr events = [] /\
    List.last events (Stdout [])
    = Stdout ((GREEN ++ (BOLD ++ u "All worktrees created successfully!" ++ NC
                         ++ [10%N]) ++ NC) ++ [10%N]).
Proof.
  assert (H : Forall (fun stage =>
                        exists_in sample_world
                          (sample_expanduser (worktree_path stage)) = true)
                (stages single_stage_metadata))
    by (repeat constructor).
  split; [split; [exact sample_world_well_formed | exact H]|].
  exact (setup_all_on_existing_worktrees (env := sample_environment)
           [u "plans"; u "plan.md"] single_stage_metadata sample_world
           sample_world_well_formed H).
Defined.

(** *** Setting up a worktree that is missing *)

Section Missing.

Context {env : Environment}.


End Missing.


End PlanWorktreeProofs.
